(** * The in-memory block cache of libkbfs ([bcache.go])

    A shallow embedding of [BlockCacheStandard] and of the operations of
    [src/libkbfs/bcache.go], followed by the properties of its byte
    accounting, of its two residency tiers and of its dedup index.

    Conventions.
    - Go's [uint32] and [uint64] are [Z] with the wrap-around written out
      ([wrap32], [wrap64]).
    - A [*lru.Cache] that may be [nil] is an [option]; the Go map
      [cleanPermanent] is a [gmap].
    - The methods mutate the receiver: here they take the cache and return
      the new cache next to their Go results.
    - Locks are not modelled: every operation runs alone. *)

From Stdlib Require Import ZArith Lia List Bool String.
From stdpp Require Import base gmap strings list fin_maps.

Open Scope Z_scope.

(** ** Machine integers *)

Definition wrap32 (z : Z) : Z := z mod 2 ^ 32.
Definition wrap64 (z : Z) : Z := z mod 2 ^ 64.

(** ** Identifiers, pointers and blocks

    These types are declared in other packages of the repository; only what
    [bcache.go] reads of them is kept. *)

(** [kbfsblock.ID]: an opaque content hash. *)
Definition kbfsblock_ID := string.
(** [tlf.ID]: an opaque folder identifier. *)
Definition tlf_ID := string.
(** [kbfsblock.RefNonce] is eight bytes; [kbfsblock.ZeroRefNonce] is all
    zeroes. *)
Definition kbfsblock_RefNonce := Z.
Definition ZeroRefNonce : kbfsblock_RefNonce := 0.
(** [kbfshash.RawDefaultHash]: the bytes of a digest. *)
Definition RawDefaultHash := list Z.

(** Modelled from the spec: [BlockPointer], declared outside [bcache.go], is
    "a (BlockID, RefNonce, ...) tuple"; the fields the cache never reads are
    lumped together in [ptrRest]. *)
Record BlockPointer := mkBlockPointer {
  ID : kbfsblock_ID;
  RefNonce : kbfsblock_RefNonce;
  ptrRest : Z
}.

(** The zero value [BlockPointer{}]. *)
Definition zeroBlockPointer : BlockPointer :=
  {| ID := EmptyString; RefNonce := ZeroRefNonce; ptrRest := 0 |}.

(** [ptr.RefNonce = kbfsblock.ZeroRefNonce] on the local copy of [ptr]. *)
Definition zeroRefNonce (ptr : BlockPointer) : BlockPointer :=
  {| ID := ID ptr; RefNonce := ZeroRefNonce; ptrRest := ptrRest ptr |}.

(** Modelled from the spec: the block variants, declared outside
    [bcache.go].  Every block embeds a [CommonBlock] carrying the [IsInd]
    flag and the encoded size that [GetEncodedSize] reports; a file block
    adds its plaintext [Contents].  [OtherBlock] stands for any further
    implementation of the [Block] interface (and for a nil interface), which
    the type switch of [PutWithPrefetch] sends to its [default] branch. *)
Record CommonBlock := mkCommonBlock {
  IsInd : bool;
  cachedEncodedSize : Z
}.

Record FileBlock := mkFileBlock {
  fileCommon : CommonBlock;
  Contents : list Z
}.

Record DirBlock := mkDirBlock {
  dirCommon : CommonBlock
}.

Inductive Block :=
| DirBlockOf (d : DirBlock)
| FileBlockOf (f : FileBlock)
| CommonBlockOf (c : CommonBlock)
| OtherBlock (encodedSize : Z).

(** [block.GetEncodedSize()], a [uint32]. *)
Definition GetEncodedSize (block : Block) : Z :=
  match block with
  | DirBlockOf d => wrap32 (cachedEncodedSize (dirCommon d))
  | FileBlockOf f => wrap32 (cachedEncodedSize (fileCommon f))
  | CommonBlockOf c => wrap32 (cachedEncodedSize c)
  | OtherBlock n => wrap32 n
  end.

Inductive BlockCacheLifetime :=
| NoCacheEntry
| TransientEntry
| PermanentEntry
| OtherLifetime (n : Z).

Inductive error :=
| BadDataError (id : kbfsblock_ID)
| NoSuchBlockError (id : kbfsblock_ID)
| NotDirectFileBlockError
| cachePutCacheFullError (id : kbfsblock_ID)
| AttemptedCommonBlockError
| UnknownBlockTypeError
| UnknownLifetimeError
| UnexpectedCachedIDError.

(** ** Cache entries *)

Record blockContainer := mkBlockContainer {
  block : Block;
  hasPrefetched : bool
}.

Record idCacheKey := mkIdCacheKey {
  tlf : tlf_ID;
  plaintextHash : RawDefaultHash
}.

Global Instance idCacheKey_eq_dec : EqDecision idCacheKey.
Proof. solve_decision. Defined.

(** The two LRUs hold [interface{}] values: block containers in
    [cleanTransient], block pointers in [ids].  The type assertions of the
    source are matches on this type. *)
Inductive iface :=
| IContainer (bc : blockContainer)
| IPointer (ptr : BlockPointer).

(** ** The LRU ([github.com/hashicorp/golang-lru])

    Modelled from the spec: the LRU library is a dependency, not part of
    [src/].  It is "classical least-recently-used by insertion or access",
    bounded by an entry count fixed at construction; the list below runs
    from the most recently used entry to the oldest.  Every operation that
    drops an entry returns it, so that the caller can run the eviction
    callback the cache was constructed with. *)
Module lru.

Section Cache.
Context {K : Type} `{EqDecision K}.

Record Cache := mkCache {
  size : Z;
  items : list (K * iface)
}.

(** [lru.New(size)] fails unless [size] is positive. *)
Definition New (n : Z) : option Cache :=
  if n <=? 0 then None else Some {| size := n; items := [] |}.

Fixpoint find (k : K) (l : list (K * iface)) : option iface :=
  match l with
  | [] => None
  | (k', v) :: r => if decide (k = k') then Some v else find k r
  end.

Fixpoint drop (k : K) (l : list (K * iface)) : list (K * iface) :=
  match l with
  | [] => []
  | (k', v) :: r => if decide (k = k') then drop k r else (k', v) :: drop k r
  end.

Definition Len (c : Cache) : Z := Z.of_nat (length (items c)).

(** [c.Get(key)]: a hit moves the entry to the front. *)
Definition Get (c : Cache) (k : K) : Cache * option iface :=
  match find k (items c) with
  | Some v => ({| size := size c; items := (k, v) :: drop k (items c) |}, Some v)
  | None => (c, None)
  end.

(** [c.RemoveOldest()]: drops the last entry, if any. *)
Definition RemoveOldest (c : Cache) : Cache * option (K * iface) :=
  match rev (items c) with
  | [] => (c, None)
  | old :: r => ({| size := size c; items := rev r |}, Some old)
  end.

(** [c.Add(key, value)]: an existing key is refreshed and takes the new
    value; a new key goes to the front and, when the entry count then
    exceeds [size], the oldest entry is evicted. *)
Definition Add (c : Cache) (k : K) (v : iface) : Cache * option (K * iface) :=
  match find k (items c) with
  | Some _ => ({| size := size c; items := (k, v) :: drop k (items c) |}, None)
  | None =>
      let c' := {| size := size c; items := (k, v) :: items c |} in
      if Len c' >? size c then RemoveOldest c' else (c', None)
  end.

(** [c.Remove(key)]: drops the entry of [key], if any. *)
Definition Remove (c : Cache) (k : K) : Cache * option (K * iface) :=
  match find k (items c) with
  | Some v => ({| size := size c; items := drop k (items c) |}, Some (k, v))
  | None => (c, None)
  end.

End Cache.

Arguments Cache K : clear implicits.

End lru.

(** ** The cache *)

Record BlockCacheStandard := mkBlockCacheStandard {
  cleanBytesCapacity : Z;
  ids : option (lru.Cache idCacheKey);
  cleanTransient : option (lru.Cache kbfsblock_ID);
  cleanPermanent : gmap kbfsblock_ID Block;
  cleanTotalBytes : Z
}.

Definition withCapacity (b : BlockCacheStandard) (c : Z) : BlockCacheStandard :=
  {| cleanBytesCapacity := c; ids := ids b; cleanTransient := cleanTransient b;
     cleanPermanent := cleanPermanent b; cleanTotalBytes := cleanTotalBytes b |}.

Definition withIds (b : BlockCacheStandard) (c : lru.Cache idCacheKey) : BlockCacheStandard :=
  {| cleanBytesCapacity := cleanBytesCapacity b; ids := Some c;
     cleanTransient := cleanTransient b;
     cleanPermanent := cleanPermanent b; cleanTotalBytes := cleanTotalBytes b |}.

Definition withTransient (b : BlockCacheStandard) (c : lru.Cache kbfsblock_ID) : BlockCacheStandard :=
  {| cleanBytesCapacity := cleanBytesCapacity b; ids := ids b;
     cleanTransient := Some c;
     cleanPermanent := cleanPermanent b; cleanTotalBytes := cleanTotalBytes b |}.

Definition withPermanent (b : BlockCacheStandard) (m : gmap kbfsblock_ID Block) : BlockCacheStandard :=
  {| cleanBytesCapacity := cleanBytesCapacity b; ids := ids b;
     cleanTransient := cleanTransient b;
     cleanPermanent := m; cleanTotalBytes := cleanTotalBytes b |}.

Definition withTotalBytes (b : BlockCacheStandard) (n : Z) : BlockCacheStandard :=
  {| cleanBytesCapacity := cleanBytesCapacity b; ids := ids b;
     cleanTransient := cleanTransient b;
     cleanPermanent := cleanPermanent b; cleanTotalBytes := n |}.

(** [NewBlockCacheStandard]: the two LRUs exist only for a positive
    [transientCapacity]; a failing [lru.New] makes the constructor return
    [nil]. *)
Definition NewBlockCacheStandard (transientCapacity : Z) (cleanBytesCapacity : Z)
  : option BlockCacheStandard :=
  let b := {| cleanBytesCapacity := cleanBytesCapacity; ids := None;
              cleanTransient := None; cleanPermanent := ∅;
              cleanTotalBytes := 0 |} in
  if transientCapacity >? 0 then
    match lru.New transientCapacity with
    | None => None
    | Some i =>
        match lru.New transientCapacity with
        | None => None
        | Some t => Some (withTransient (withIds b i) t)
        end
    end
  else Some b.

(** [getCachedBlockSize], a [uint32]. *)
Definition getCachedBlockSize (block : Block) : Z :=
  match block with
  | FileBlockOf f =>
      if IsInd (fileCommon f) then GetEncodedSize block
      else wrap32 (Z.of_nat (length (Contents f)))
  | _ => GetEncodedSize block
  end.

Definition subtractBlockBytes (b : BlockCacheStandard) (block : Block) : BlockCacheStandard :=
  let size := getCachedBlockSize block in
  if cleanTotalBytes b >=? size then withTotalBytes b (cleanTotalBytes b - size)
  else withTotalBytes b 0.

Definition onEvict (b : BlockCacheStandard) (key : kbfsblock_ID) (value : iface)
  : BlockCacheStandard :=
  match value with
  | IContainer bc => subtractBlockBytes b (block bc)
  | _ => b
  end.

(** The eviction callback of [cleanTransient], run on what an LRU operation
    dropped. *)
Definition evicted (b : BlockCacheStandard) (ev : option (kbfsblock_ID * iface))
  : BlockCacheStandard :=
  match ev with
  | Some (k, v) => onEvict b k v
  | None => b
  end.

(** [b.cleanTransient.Len()], [.RemoveOldest()], [.Add()] and [.Remove()] on
    a cache whose transient store exists, callback included. *)
Definition transientLen (b : BlockCacheStandard) : Z :=
  match cleanTransient b with
  | Some c => lru.Len c
  | None => 0
  end.

Definition transientRemoveOldest (b : BlockCacheStandard) : BlockCacheStandard :=
  match cleanTransient b with
  | Some c => let (c', ev) := lru.RemoveOldest c in evicted (withTransient b c') ev
  | None => b
  end.

Definition transientAdd (b : BlockCacheStandard) (k : kbfsblock_ID) (v : iface)
  : BlockCacheStandard :=
  match cleanTransient b with
  | Some c => let (c', ev) := lru.Add c k v in evicted (withTransient b c') ev
  | None => b
  end.

Definition transientRemove (b : BlockCacheStandard) (k : kbfsblock_ID)
  : BlockCacheStandard :=
  match cleanTransient b with
  | Some c => let (c', ev) := lru.Remove c k in evicted (withTransient b c') ev
  | None => b
  end.

(** [GetWithPrefetch]; the probe of the transient store refreshes the
    entry. *)
Definition GetWithPrefetch (b : BlockCacheStandard) (ptr : BlockPointer)
  : BlockCacheStandard * (option Block * bool * BlockCacheLifetime * option error) :=
  let permanent (b' : BlockCacheStandard) :=
    match cleanPermanent b' !! ID ptr with
    | Some blk => (b', (Some blk, true, PermanentEntry, None))
    | None => (b', (None, false, NoCacheEntry, Some (NoSuchBlockError (ID ptr))))
    end in
  match cleanTransient b with
  | Some c =>
      match lru.Get c (ID ptr) with
      | (c', Some tmp) =>
          match tmp with
          | IContainer bc =>
              (withTransient b c',
               (Some (block bc), hasPrefetched bc, TransientEntry, None))
          | _ =>
              (withTransient b c',
               (None, false, NoCacheEntry, Some (BadDataError (ID ptr))))
          end
      | (c', None) => permanent (withTransient b c')
      end
  | None => permanent b
  end.

Definition Get (b : BlockCacheStandard) (ptr : BlockPointer)
  : BlockCacheStandard * (option Block * option error) :=
  let '(b', (blk, _, _, err)) := GetWithPrefetch b ptr in (b', (blk, err)).

Definition SetCleanBytesCapacity (b : BlockCacheStandard) (capacity : Z)
  : BlockCacheStandard :=
  withCapacity b capacity.

Definition GetCleanBytesCapacity (b : BlockCacheStandard) : Z :=
  cleanBytesCapacity b.

(** ** Making room

    The loop of [makeRoomForSize] is not structurally recursive; it runs on
    fuel, and [makeRoomForSize] hands it more than it can use
    ([makeRoomForSize_returns] below).  [None] is a loop that did not
    finish. *)
Fixpoint makeRoomLoop (fuel : nat) (size cleanBytesCapacity oldLen : Z)
  (b : BlockCacheStandard) : option BlockCacheStandard :=
  match fuel with
  | O => None
  | S fuel' =>
      if wrap64 (cleanTotalBytes b + size) >? cleanBytesCapacity then
        if oldLen =? transientLen b then Some b
        else
          makeRoomLoop fuel' size cleanBytesCapacity (transientLen b)
            (transientRemoveOldest b)
      else Some b
  end.

Definition makeRoomForSize (b : BlockCacheStandard) (size : Z)
  (lifetime : BlockCacheLifetime) : option (BlockCacheStandard * bool) :=
  match cleanTransient b with
  | None => Some (b, false)
  | Some _ =>
      let oldLen := transientLen b + 1 in
      let cleanBytesCapacity := GetCleanBytesCapacity b in
      match
        makeRoomLoop (S (S (Z.to_nat (transientLen b)))) size
          cleanBytesCapacity oldLen b
      with
      | None => None
      | Some b' =>
          if wrap64 (cleanTotalBytes b' + size) >? cleanBytesCapacity then
            match lifetime with
            | PermanentEntry =>
                Some (withTotalBytes b' (wrap64 (cleanTotalBytes b' + size)), false)
            | _ => Some (b', false)
            end
          else Some (withTotalBytes b' (wrap64 (cleanTotalBytes b' + size)), true)
      end
  end.

(** What a call can do besides returning: panic (a failed unchecked type
    assertion) or fail to finish its loop. *)
Inductive outcome (A : Type) :=
| Returned (a : A)
| Panicked
| Unfinished.

Arguments Returned {A} a.
Arguments Panicked {A}.
Arguments Unfinished {A}.

Section Hashed.

(** [kbfshash.DoRawDefaultHash], the digest of a plaintext, lives in another
    package; the cache only compares its results. *)
Variable DoRawDefaultHash : list Z -> RawDefaultHash.

(** Modelled from the spec: [FileBlock.GetHash], declared outside
    [bcache.go], is the "digest of a direct file-block's plaintext". *)
Definition GetHash (fb : FileBlock) : RawDefaultHash :=
  DoRawDefaultHash (Contents fb).

(** [CheckForKnownPtr]; a hit refreshes the entry of the index. *)
Definition CheckForKnownPtr (b : BlockCacheStandard) (tlf : tlf_ID)
  (block : FileBlock) : BlockCacheStandard * (BlockPointer * option error) :=
  if IsInd (fileCommon block) then
    (b, (zeroBlockPointer, Some NotDirectFileBlockError))
  else
    match ids b with
    | None => (b, (zeroBlockPointer, None))
    | Some c =>
        let key := {| tlf := tlf; plaintextHash := GetHash block |} in
        match lru.Get c key with
        | (c', None) => (withIds b c', (zeroBlockPointer, None))
        | (c', Some tmp) =>
            match tmp with
            | IPointer ptr => (withIds b c', (ptr, None))
            | _ => (withIds b c', (zeroBlockPointer, Some UnexpectedCachedIDError))
            end
        end
    end.

(** The first statement of the [TransientEntry] case of [PutWithPrefetch]
    (lines 267-274): a direct file block is written to the index, under a
    pointer whose RefNonce is zeroed; the zeroing is visible in [ptr]
    afterwards. *)
Definition putRecordHash (b : BlockCacheStandard) (ptr : BlockPointer)
  (tlf : tlf_ID) (block : Block) : BlockCacheStandard * BlockPointer :=
  match ids b, block with
  | Some c, FileBlockOf fBlock =>
      if negb (IsInd (fileCommon fBlock)) then
        let key := {| tlf := tlf; plaintextHash := GetHash fBlock |} in
        let ptr' := zeroRefNonce ptr in
        (withIds b (fst (lru.Add c key (IPointer ptr'))), ptr')
      else (b, ptr)
  | _, _ => (b, ptr)
  end.

(** The end of [PutWithPrefetch], from [transientCacheHasRoom := true] on. *)
Definition putFinish (b : BlockCacheStandard) (ptr : BlockPointer)
  (block : Block) (lifetime : BlockCacheLifetime) (hasPrefetched : bool)
  (wasInCache : bool) : outcome (BlockCacheStandard * option error) :=
  let made :=
    if negb wasInCache then
      makeRoomForSize b (getCachedBlockSize block) lifetime
    else Some (b, true) in
  match made with
  | None => Unfinished
  | Some (b', transientCacheHasRoom) =>
      match lifetime with
      | TransientEntry =>
          if negb transientCacheHasRoom then
            Returned (b', Some (cachePutCacheFullError (ID ptr)))
          else
            Returned
              (transientAdd b' (ID ptr)
                 (IContainer {| block := block; hasPrefetched := hasPrefetched |}),
               None)
      | _ => Returned (b', None)
      end
  end.

Definition PutWithPrefetch (b : BlockCacheStandard) (ptr : BlockPointer)
  (tlf : tlf_ID) (block : Block) (lifetime : BlockCacheLifetime)
  (hasPrefetched : bool) : outcome (BlockCacheStandard * option error) :=
  match block with
  | CommonBlockOf _ => Returned (b, Some AttemptedCommonBlockError)
  | OtherBlock _ => Returned (b, Some UnknownBlockTypeError)
  | DirBlockOf _ | FileBlockOf _ =>
      match lifetime with
      | NoCacheEntry => Returned (b, None)
      | TransientEntry =>
          let '(b1, ptr1) := putRecordHash b ptr tlf block in
          match cleanTransient b1 with
          | None => Returned (b1, None)
          | Some c =>
              match lru.Get c (ID ptr1) with
              | (c', Some bc) =>
                  match bc with
                  | IContainer (mkBlockContainer _ stored) =>
                      putFinish (withTransient b1 c') ptr1 block lifetime
                        (hasPrefetched || stored) true
                  | _ => Panicked
                  end
              | (c', None) =>
                  putFinish (withTransient b1 c') ptr1 block lifetime
                    hasPrefetched false
              end
          end
      | PermanentEntry =>
          let wasInCache := bool_decide (is_Some (cleanPermanent b !! ID ptr)) in
          putFinish (withPermanent b (<[ID ptr := block]> (cleanPermanent b)))
            ptr block lifetime hasPrefetched wasInCache
      | OtherLifetime _ => Returned (b, Some UnknownLifetimeError)
      end
  end.

(** [Put]: the prefetch is assumed to have happened. *)
Definition Put (b : BlockCacheStandard) (ptr : BlockPointer) (tlf : tlf_ID)
  (block : Block) (lifetime : BlockCacheLifetime)
  : outcome (BlockCacheStandard * option error) :=
  PutWithPrefetch b ptr tlf block lifetime true.

Definition DeletePermanent (b : BlockCacheStandard) (id : kbfsblock_ID)
  : BlockCacheStandard * option error :=
  match cleanPermanent b !! id with
  | Some block =>
      (subtractBlockBytes (withPermanent b (delete id (cleanPermanent b))) block,
       None)
  | None => (b, None)
  end.

Definition DeleteTransient (b : BlockCacheStandard) (ptr : BlockPointer)
  (tlf : tlf_ID) : BlockCacheStandard * option error :=
  match cleanTransient b with
  | None => (b, None)
  | Some c =>
      match lru.Get c (ID ptr) with
      | (c', Some tmp) =>
          let b0 := withTransient b c' in
          match tmp with
          | IContainer bc =>
              let b1 :=
                match ids b0, block bc with
                | Some i, FileBlockOf fBlock =>
                    if negb (IsInd (fileCommon fBlock)) then
                      let hash := DoRawDefaultHash (Contents fBlock) in
                      let key := {| tlf := tlf; plaintextHash := hash |} in
                      withIds b0 (fst (lru.Remove i key))
                    else b0
                | _, _ => b0
                end in
              (transientRemove b1 (ID ptr), None)
          | _ => (b0, Some (BadDataError (ID ptr)))
          end
      | (c', None) => (withTransient b c', None)
      end
  end.

Definition DeleteKnownPtr (b : BlockCacheStandard) (tlf : tlf_ID)
  (block : FileBlock) : BlockCacheStandard * option error :=
  if IsInd (fileCommon block) then (b, Some NotDirectFileBlockError)
  else
    match ids b with
    | None => (b, None)
    | Some i =>
        let hash := DoRawDefaultHash (Contents block) in
        let key := {| tlf := tlf; plaintextHash := hash |} in
        (withIds b (fst (lru.Remove i key)), None)
    end.

(** ** Sequences of operations *)

Inductive op :=
| OpPut (ptr : BlockPointer) (tlf : tlf_ID) (block : Block)
    (lifetime : BlockCacheLifetime) (hasPrefetched : bool)
| OpDeletePermanent (id : kbfsblock_ID)
| OpDeleteTransient (ptr : BlockPointer) (tlf : tlf_ID)
| OpDeleteKnownPtr (tlf : tlf_ID) (block : FileBlock)
| OpGet (ptr : BlockPointer)
| OpCheckForKnownPtr (tlf : tlf_ID) (block : FileBlock)
| OpSetCleanBytesCapacity (capacity : Z).

(** One call on the cache; the Go results are dropped, the cache is kept. *)
Definition step (b : BlockCacheStandard) (o : op) : outcome BlockCacheStandard :=
  match o with
  | OpPut ptr tlf block lifetime hasPrefetched =>
      match PutWithPrefetch b ptr tlf block lifetime hasPrefetched with
      | Returned (b', _) => Returned b'
      | Panicked => Panicked
      | Unfinished => Unfinished
      end
  | OpDeletePermanent id => Returned (fst (DeletePermanent b id))
  | OpDeleteTransient ptr tlf => Returned (fst (DeleteTransient b ptr tlf))
  | OpDeleteKnownPtr tlf block => Returned (fst (DeleteKnownPtr b tlf block))
  | OpGet ptr => Returned (fst (Get b ptr))
  | OpCheckForKnownPtr tlf block => Returned (fst (CheckForKnownPtr b tlf block))
  | OpSetCleanBytesCapacity capacity => Returned (SetCleanBytesCapacity b capacity)
  end.

Fixpoint run (b : BlockCacheStandard) (os : list op) : outcome BlockCacheStandard :=
  match os with
  | [] => Returned b
  | o :: os' =>
      match step b o with
      | Returned b' => run b' os'
      | Panicked => Panicked
      | Unfinished => Unfinished
      end
  end.

End Hashed.

(** ** What the properties speak about *)

(** The blocks the type switch of [PutWithPrefetch] lets through. *)
Definition cacheable (block : Block) : Prop :=
  match block with
  | DirBlockOf _ | FileBlockOf _ => True
  | _ => False
  end.

(** The bytes of one LRU value: the computed size of the block of a
    container (what [onEvict] debits), nothing for anything else. *)
Definition entryBytes (v : iface) : Z :=
  match v with
  | IContainer bc => getCachedBlockSize (block bc)
  | _ => 0
  end.

Definition itemsBytes {K : Type} (l : list (K * iface)) : Z :=
  foldr (fun kv acc => entryBytes (snd kv) + acc) 0 l.

Arguments itemsBytes : simpl never.

(** The sum of [sizeOf] over the transient store. *)
Definition transientBytes (b : BlockCacheStandard) : Z :=
  match cleanTransient b with
  | Some c => itemsBytes (lru.items c)
  | None => 0
  end.

Definition mapBytes (m : gmap kbfsblock_ID Block) : Z :=
  map_fold (fun _ blk acc => getCachedBlockSize blk + acc) 0 m.

(** The sum of [sizeOf] over the permanent store. *)
Definition permanentBytes (b : BlockCacheStandard) : Z :=
  mapBytes (cleanPermanent b).

(** The sum of [sizeOf] over the blocks resident in either store. *)
Definition residentBytes (b : BlockCacheStandard) : Z :=
  transientBytes b + permanentBytes b.

(** The keys of the transient store are pairwise distinct and its values are
    block containers, as the LRU library and line 315 of [bcache.go] make
    them. *)
Definition transientShape (b : BlockCacheStandard) : Prop :=
  match cleanTransient b with
  | Some c =>
      NoDup (lru.items c).*1 /\
      Forall (fun kv => exists bc, snd kv = IContainer bc) (lru.items c)
  | None => True
  end.

(** The accounting invariant: [cleanTotalBytes] is the resident byte count. *)
Definition accounted (b : BlockCacheStandard) : Prop :=
  transientShape b /\ cleanTotalBytes b = residentBytes b.

(** [cleanTotalBytes] is the transient byte count plus [p] bytes charged
    for everything else. *)
Definition charged (p : Z) (b : BlockCacheStandard) : Prop :=
  cleanTotalBytes b = transientBytes b + p.

(** The fields an operation on the transient store leaves alone. *)
Definition sameRest (b b' : BlockCacheStandard) : Prop :=
  cleanBytesCapacity b' = cleanBytesCapacity b /\
  ids b' = ids b /\
  cleanPermanent b' = cleanPermanent b.

(** The bytes an operation offers to the cache. *)
Definition opBytes (o : op) : Z :=
  match o with
  | OpPut _ _ blk _ _ => getCachedBlockSize blk
  | _ => 0
  end.

Definition opsBytes (os : list op) : Z :=
  foldr (fun o acc => opBytes o + acc) 0 os.

(** An operation puts under an ID only blocks of the size [sz] gives that
    ID (the assumption stated above [PutWithPrefetch]: a block cached under
    a pointer never changes its size). *)
Definition opSized (sz : kbfsblock_ID -> Z) (o : op) : Prop :=
  match o with
  | OpPut ptr _ blk _ _ => getCachedBlockSize blk = sz (ID ptr)
  | _ => True
  end.

(** The entry [key -> ptr] of the dedup index was written by the operation
    [o]: a Transient put of a direct file block of that folder and
    plaintext, at that pointer with its RefNonce zeroed. *)
Definition recordedBy (hash : list Z -> RawDefaultHash) (key : idCacheKey)
  (v : iface) (o : op) : Prop :=
  match o with
  | OpPut ptr t (FileBlockOf fb) TransientEntry _ =>
      IsInd (fileCommon fb) = false /\
      key = {| tlf := t; plaintextHash := GetHash hash fb |} /\
      v = IPointer (zeroRefNonce ptr)
  | _ => False
  end.

(** Residency: what the two stores hold under an ID, without touching the
    recency order. *)
Definition transientLookup (b : BlockCacheStandard) (id : kbfsblock_ID)
  : option iface :=
  match cleanTransient b with
  | Some c => lru.find id (lru.items c)
  | None => None
  end.

Definition permanentLookup (b : BlockCacheStandard) (id : kbfsblock_ID)
  : option Block :=
  cleanPermanent b !! id.

(** What the dedup index holds under a folder and a plaintext digest. *)
Definition idsLookup (b : BlockCacheStandard) (key : idCacheKey) : option iface :=
  match ids b with
  | Some i => lru.find key (lru.items i)
  | None => None
  end.

(** The two LRUs are as [NewBlockCacheStandard] makes them: both absent, or
    both present with a positive entry capacity. *)
Definition wellFormed (b : BlockCacheStandard) : Prop :=
  match ids b, cleanTransient b with
  | None, None => True
  | Some i, Some c => 0 < lru.size i /\ 0 < lru.size c
  | _, _ => False
  end.


(** An entry of the transient store is a block container whose block has
    the size [sz] gives its ID. *)
Definition sizedEntry (sz : kbfsblock_ID -> Z) (kv : kbfsblock_ID * iface) : Prop :=
  exists bc, snd kv = IContainer bc /\ getCachedBlockSize (block bc) = sz (fst kv).

Definition sizedItems (sz : kbfsblock_ID -> Z) (l : list (kbfsblock_ID * iface))
  : Prop :=
  NoDup l.*1 /\ Forall (sizedEntry sz) l.

(** The invariant carried along a sequence of operations whose puts respect
    the sizes [sz], on a cache with a transient store: distinct keys, block
    containers of the size of their ID in the transient store, blocks of the
    size of their ID in the permanent store, exact accounting, and at most
    [B] resident bytes. *)
Definition traceInv (sz : kbfsblock_ID -> Z) (B : Z) (b : BlockCacheStandard)
  : Prop :=
  wellFormed b /\
  (exists c, cleanTransient b = Some c /\ sizedItems sz (lru.items c)) /\
  map_Forall (fun id blk => getCachedBlockSize blk = sz id) (cleanPermanent b) /\
  cleanTotalBytes b = residentBytes b /\
  residentBytes b <= B.

(** The dedup index holds the entry [key -> v]. *)
Definition indexEntry (b : BlockCacheStandard) (key : idCacheKey) (v : iface)
  : Prop :=
  match ids b with
  | Some i => (key, v) ∈ lru.items i
  | None => False
  end.

(** Distinct keys, block containers as values. *)
Definition shapedItems (l : list (kbfsblock_ID * iface)) : Prop :=
  NoDup l.*1 /\ Forall (fun kv => exists bc, snd kv = IContainer bc) l.

(** [b'] has the LRUs of [b], with the same entry capacities; its transient
    store is well shaped if that of [b] is, and its byte count is not
    negative if that of [b] is not. *)
Definition keeps (b b' : BlockCacheStandard) : Prop :=
  match ids b, ids b' with
  | Some i, Some i' => lru.size i' = lru.size i
  | None, None => True
  | _, _ => False
  end /\
  match cleanTransient b, cleanTransient b' with
  | Some c, Some c' =>
      lru.size c' = lru.size c /\
      (shapedItems (lru.items c) -> shapedItems (lru.items c'))
  | None, None => True
  | _, _ => False
  end /\
  (0 <= cleanTotalBytes b -> 0 <= cleanTotalBytes b').

(** The bytes that stay charged when every transient entry is evicted: each
    eviction debits [cleanTotalBytes] by the size of the evicted block,
    stopping at 0. *)
Definition fixedBytes (b : BlockCacheStandard) : Z :=
  Z.max 0 (cleanTotalBytes b - transientBytes b).

(** ** Concrete data for the examples *)

(** A stand-in digest: the plaintext itself. *)
Definition exampleHash (contents : list Z) : RawDefaultHash := contents.

(** A direct file block of [n] bytes [x]. *)
Definition directBlock (n : nat) (x : Z) : FileBlock :=
  {| fileCommon := {| IsInd := false; cachedEncodedSize := 0 |};
     Contents := repeat x n |}.

Definition pointerAt (id : kbfsblock_ID) : BlockPointer :=
  {| ID := id; RefNonce := 7; ptrRest := 1 |}.

(** The cache of a successful constructor call, or an empty cache. *)
Definition newCache (transientCapacity cleanBytesCapacity : Z) : BlockCacheStandard :=
  match NewBlockCacheStandard transientCapacity cleanBytesCapacity with
  | Some b => b
  | None => mkBlockCacheStandard cleanBytesCapacity None None ∅ 0
  end.

(** The cache after a call, whatever the call did besides. *)
Definition after {A : Type} (b : BlockCacheStandard)
  (r : outcome (BlockCacheStandard * A)) : BlockCacheStandard :=
  match r with
  | Returned (b', _) => b'
  | _ => b
  end.

(** The Go results of a call that returned. *)
Definition resultOf {A : Type} (r : outcome (BlockCacheStandard * A)) : option A :=
  match r with
  | Returned (_, a) => Some a
  | _ => None
  end.

Definition exampleFolder : tlf_ID := "folder"%string.

(** Blocks of 10, 32, 100, 400 and 500 bytes of plaintext. *)
Definition block10 : Block := FileBlockOf (directBlock 10 1).
Definition block32 : Block := FileBlockOf (directBlock 32 170).
Definition block100 : Block := FileBlockOf (directBlock 100 2).
Definition block400 : Block := FileBlockOf (directBlock 400 3).
Definition block500 : Block := FileBlockOf (directBlock 500 4).

Definition putOn (b : BlockCacheStandard) (id : kbfsblock_ID) (blk : Block)
  (lifetime : BlockCacheLifetime) (hp : bool)
  : outcome (BlockCacheStandard * option error) :=
  PutWithPrefetch exampleHash b (pointerAt id) exampleFolder blk lifetime hp.

(** A permanent-only cache of 100 bytes, after a Permanent put of 500
    bytes. *)
Definition permanentOnly500 : BlockCacheStandard :=
  after (newCache 0 100) (putOn (newCache 0 100) "p" block500 PermanentEntry true).

(** A cache of 10 entries and 100 bytes, after a Permanent put of 500
    bytes. *)
Definition permanent500 : BlockCacheStandard :=
  after (newCache 10 100) (putOn (newCache 10 100) "p" block500 PermanentEntry true).

(** A cache of 10 entries and 1000 bytes, after Permanent puts of 100 and
    then of 500 bytes under the same ID. *)
Definition permanent100 : BlockCacheStandard :=
  after (newCache 10 1000) (putOn (newCache 10 1000) "p" block100 PermanentEntry true).

Definition reput100then500 : BlockCacheStandard :=
  after permanent100 (putOn permanent100 "p" block500 PermanentEntry true).

(** A cache of 10 entries and 1000 bytes, after a Transient put of 32
    bytes with [hasPrefetched = true]. *)
Definition transient32 : BlockCacheStandard :=
  after (newCache 10 1000) (putOn (newCache 10 1000) "1" block32 TransientEntry true).

(** A cache of 10 entries and 100 bytes, after a Transient put of 400 bytes
    (which fails). *)
Definition failed400 : BlockCacheStandard :=
  after (newCache 10 100) (putOn (newCache 10 100) "1" block400 TransientEntry false).

Definition exampleSizes (id : kbfsblock_ID) : Z :=
  if String.eqb id "a" then 400 else 500.

Definition exampleOps : list op :=
  [ OpPut (pointerAt "a") exampleFolder block400 TransientEntry false;
    OpPut (pointerAt "p") exampleFolder block500 PermanentEntry true;
    OpGet (pointerAt "a");
    OpPut (pointerAt "b") exampleFolder block500 TransientEntry true;
    OpDeleteTransient (pointerAt "a") exampleFolder;
    OpDeletePermanent "p" ].

(** ** Further properties: what they speak about *)

Definition optionRel {A : Type} (R : A -> A -> Prop) (o o' : option A) : Prop :=
  match o, o' with
  | Some a, Some a' => R a a'
  | None, None => True
  | _, _ => False
  end.

(** [c'] has the entry capacity of [c] and holds at most that many entries
    if [c] does. *)
Definition lruKeeps {K : Type} (c c' : lru.Cache K) : Prop :=
  lru.size c' = lru.size c /\
  (lru.Len c <= lru.size c -> lru.Len c' <= lru.size c').

(** [b'] has the LRUs of [b], within their entry capacities if those of [b]
    are, and a byte count that is a [uint64] if that of [b] is. *)
Definition capped (b b' : BlockCacheStandard) : Prop :=
  optionRel lruKeeps (ids b) (ids b') /\
  optionRel lruKeeps (cleanTransient b) (cleanTransient b') /\
  (0 <= cleanTotalBytes b < 2 ^ 64 -> 0 <= cleanTotalBytes b' < 2 ^ 64).

(** The operation is neither a Permanent put under [id] nor a
    [DeletePermanent] of [id]. *)
Definition leavesPermanent (id : kbfsblock_ID) (o : op) : Prop :=
  match o with
  | OpPut ptr _ _ PermanentEntry _ => ID ptr <> id
  | OpDeletePermanent id' => id' <> id
  | _ => True
  end.

(** [k -> v] is the most recently used entry of [c], and the only one
    under [k]. *)
Definition atFront {K : Type} `{EqDecision K} (k : K) (v : iface)
  (c : lru.Cache K) : Prop :=
  exists tl, lru.items c = (k, v) :: tl /\ lru.find k tl = None.

(** The operation is neither a Permanent put nor a change of the byte
    capacity. *)
Definition transientOnly (o : op) : Prop :=
  match o with
  | OpPut _ _ _ PermanentEntry _ => False
  | OpSetCleanBytesCapacity _ => False
  | _ => True
  end.

(** [b'] counts no more bytes than [b], and no fewer than none. *)
Definition lowers (b b' : BlockCacheStandard) : Prop :=
  0 <= cleanTotalBytes b -> 0 <= cleanTotalBytes b' <= cleanTotalBytes b.

(** [b'] holds what [b] holds: the same value under every key of either
    LRU, the same permanent store, byte count and byte capacity.  The
    recency order of the LRUs may differ. *)
Definition sameContents (b b' : BlockCacheStandard) : Prop :=
  (forall id, transientLookup b' id = transientLookup b id) /\
  (forall key, idsLookup b' key = idsLookup b key) /\
  cleanPermanent b' = cleanPermanent b /\
  cleanTotalBytes b' = cleanTotalBytes b /\
  cleanBytesCapacity b' = cleanBytesCapacity b.

(** ** Further concrete data *)

(** A cache without LRUs (entry capacity 0), after a Transient put of 32
    bytes. *)
Definition indexless32 : BlockCacheStandard :=
  after (newCache 0 1000) (putOn (newCache 0 1000) "1" block32 TransientEntry true).

(** A cache of 10 entries and 1000 bytes after a Permanent put of 32 bytes
    under "1", and after a Transient put of the same block under "1". *)
Definition pinned32 : BlockCacheStandard :=
  after (newCache 10 1000) (putOn (newCache 10 1000) "1" block32 PermanentEntry true).

Definition pinned32put : BlockCacheStandard :=
  after pinned32 (putOn pinned32 "1" block32 TransientEntry true).

(** A cache of 10 entries and 100 bytes after Transient puts of 32 bytes
    under "1", "2" and "3", in that order, and after one more of 10 bytes
    under "4". *)
Definition three32 : BlockCacheStandard :=
  let b1 := newCache 10 100 in
  let b2 := after b1 (putOn b1 "1" block32 TransientEntry false) in
  let b3 := after b2 (putOn b2 "2" block32 TransientEntry false) in
  after b3 (putOn b3 "3" block32 TransientEntry false).

Definition three32then10 : BlockCacheStandard :=
  after three32 (putOn three32 "4" block10 TransientEntry false).

(** [three32] after a Transient put of 400 bytes (which fails). *)
Definition three32then400 : BlockCacheStandard :=
  after three32 (putOn three32 "5" block400 TransientEntry false).

(** Transient puts, a lookup and a delete. *)
Definition transientOps : list op :=
  [ OpPut (pointerAt "1") exampleFolder block32 TransientEntry false;
    OpPut (pointerAt "2") exampleFolder block32 TransientEntry true;
    OpPut (pointerAt "3") exampleFolder block32 TransientEntry false;
    OpPut (pointerAt "5") exampleFolder block400 TransientEntry false;
    OpGet (pointerAt "2");
    OpPut (pointerAt "4") exampleFolder block10 TransientEntry false;
    OpDeleteTransient (pointerAt "4") exampleFolder ].

(** [permanent100] after [transientOps]. *)
Definition permanent100Used : BlockCacheStandard :=
  match run exampleHash permanent100 transientOps with
  | Returned b => b
  | _ => permanent100
  end.

(** [transient32] after a Transient put of 100 bytes under "2". *)
Definition transient32then100 : BlockCacheStandard :=
  after transient32 (putOn transient32 "2" block100 TransientEntry false).

(** * Proofs *)

(** ** The LRU *)

Section LruFacts.
Context {K : Type} `{EqDecision K}.
Implicit Types (k : K) (l : list (K * iface)) (c : lru.Cache K).

Lemma find_None k l : lru.find k l = None -> k ∉ l.*1.
Proof.
  induction l as [|[k' v] r IH]; simpl; intros Hf.
  - apply not_elem_of_nil.
  - destruct (decide (k = k')) as [->|Hne]; [discriminate|].
    intros Hin. apply elem_of_cons in Hin as [?|?]; [done|].
    by apply IH.
Qed.

Lemma find_Some k l v : lru.find k l = Some v -> (k, v) ∈ l.
Proof.
  induction l as [|[k' v'] r IH]; simpl; intros Hf; [discriminate|].
  destruct (decide (k = k')) as [->|Hne].
  - injection Hf as ->. apply elem_of_cons; by left.
  - apply elem_of_cons; right; by apply IH.
Qed.

Lemma find_drop_eq k l : lru.find k (lru.drop k l) = None.
Proof.
  induction l as [|[k' v] r IH]; simpl; [done|].
  destruct (decide (k = k')) as [->|Hne]; [done|].
  simpl. by destruct (decide (k = k')).
Qed.

Lemma find_drop_ne k k' l : k <> k' -> lru.find k' (lru.drop k l) = lru.find k' l.
Proof.
  intros Hne. induction l as [|[k0 v] r IH]; simpl; [done|].
  destruct (decide (k = k0)) as [->|Hne0].
  - destruct (decide (k' = k0)); [congruence|done].
  - simpl. by rewrite IH.
Qed.

Lemma drop_absent k l : k ∉ l.*1 -> lru.drop k l = l.
Proof.
  induction l as [|[k' v] r IH]; simpl; intros Hn; [done|].
  apply not_elem_of_cons in Hn as [Hne Hn].
  destruct (decide (k = k')); [done|]. by rewrite IH.
Qed.

Lemma drop_subset k l x : x ∈ lru.drop k l -> x ∈ l.
Proof.
  induction l as [|[k' v] r IH]; simpl; [done|].
  destruct (decide (k = k')) as [->|Hne]; intros Hin.
  - apply elem_of_cons; right; by apply IH.
  - apply elem_of_cons in Hin as [->|Hin]; apply elem_of_cons; [by left|].
    right; by apply IH.
Qed.

Lemma drop_Forall (P : K * iface -> Prop) k l :
  Forall P l -> Forall P (lru.drop k l).
Proof.
  rewrite !Forall_forall. intros HP x Hx. apply HP. by eapply drop_subset.
Qed.

Lemma drop_NoDup k l : NoDup l.*1 -> NoDup (lru.drop k l).*1.
Proof.
  induction l as [|[k' v] r IH]; simpl; [done|].
  rewrite NoDup_cons. intros [Hn Hnd].
  destruct (decide (k = k')) as [->|Hne]; [by apply IH|].
  simpl. apply NoDup_cons. split; [|by apply IH].
  intros Hin. apply Hn.
  apply list_elem_of_fmap in Hin as [[k0 v0] [-> Hin]].
  apply list_elem_of_fmap. exists (k0, v0). split; [done|].
  by eapply drop_subset.
Qed.

Lemma drop_key_absent k l : k ∉ (lru.drop k l).*1.
Proof. apply find_None, find_drop_eq. Qed.

Lemma drop_perm k l v :
  lru.find k l = Some v -> NoDup l.*1 -> l ≡ₚ (k, v) :: lru.drop k l.
Proof.
  induction l as [|[k' v'] r IH]; simpl; [discriminate|].
  rewrite NoDup_cons. intros Hf [Hn Hnd].
  destruct (decide (k = k')) as [->|Hne].
  - injection Hf as ->. by rewrite drop_absent.
  - rewrite (IH Hf Hnd) at 1. apply Permutation_swap.
Qed.

Lemma Get_result c k : snd (lru.Get c k) = lru.find k (lru.items c).
Proof. unfold lru.Get. by destruct (lru.find k (lru.items c)). Qed.

Lemma Get_size c k : lru.size (fst (lru.Get c k)) = lru.size c.
Proof. unfold lru.Get. by destruct (lru.find k (lru.items c)). Qed.

Lemma Get_find c k k' :
  lru.find k' (lru.items (fst (lru.Get c k))) = lru.find k' (lru.items c).
Proof.
  unfold lru.Get. destruct (lru.find k (lru.items c)) as [v|] eqn:E; [|done].
  simpl. destruct (decide (k' = k)) as [->|Hne]; [done|].
  by apply find_drop_ne.
Qed.

Lemma Get_perm c k :
  NoDup (lru.items c).*1 -> lru.items (fst (lru.Get c k)) ≡ₚ lru.items c.
Proof.
  intros Hnd. unfold lru.Get.
  destruct (lru.find k (lru.items c)) as [v|] eqn:E; [|done].
  simpl. symmetry. by apply drop_perm.
Qed.

Lemma Get_miss c k : lru.find k (lru.items c) = None -> lru.Get c k = (c, None).
Proof. unfold lru.Get. by intros ->. Qed.

Lemma Get_hit c k v :
  lru.find k (lru.items c) = Some v ->
  lru.Get c k =
    ({| lru.size := lru.size c; lru.items := (k, v) :: lru.drop k (lru.items c) |},
     Some v).
Proof. unfold lru.Get. by intros ->. Qed.

Lemma Add_size c k v : lru.size (fst (lru.Add c k v)) = lru.size c.
Proof.
  unfold lru.Add, lru.RemoveOldest.
  destruct (lru.find k (lru.items c)); [done|].
  destruct (_ >? _); [|done]. simpl. by destruct (rev _ ++ _).
Qed.

Lemma Add_hit c k v old :
  lru.find k (lru.items c) = Some old ->
  lru.Add c k v =
    ({| lru.size := lru.size c; lru.items := (k, v) :: lru.drop k (lru.items c) |},
     None).
Proof. unfold lru.Add. by intros ->. Qed.

(** A new key: the entry goes to the front; an overflow drops the oldest
    entry, which is not the new one. *)
Lemma Add_miss c k v :
  0 < lru.size c -> lru.find k (lru.items c) = None ->
  lru.Add c k v =
    ({| lru.size := lru.size c; lru.items := (k, v) :: lru.items c |}, None) \/
  (exists l ev, lru.items c = l ++ [ev] /\
     lru.Add c k v =
       ({| lru.size := lru.size c; lru.items := (k, v) :: l |}, Some ev)).
Proof.
  intros Hsz Hf. unfold lru.Add. rewrite Hf.
  destruct (_ >? _) eqn:Hgt; [|by left].
  right. unfold lru.RemoveOldest. simpl.
  apply Z.gtb_lt in Hgt. unfold lru.Len in Hgt. simpl in Hgt.
  assert (Hcase : lru.items c = [] \/ exists r x, lru.items c = r ++ [x]).
  { destruct (lru.items c) as [|x r _] using rev_ind; eauto. }
  destruct Hcase as [Hnil|(r & x & Hr)].
  { rewrite Hnil in Hgt. simpl in Hgt. lia. }
  exists r, x. split; [done|].
  rewrite Hr, rev_unit. simpl. by rewrite rev_unit, rev_involutive.
Qed.

Lemma Add_find_eq c k v :
  0 < lru.size c -> lru.find k (lru.items (fst (lru.Add c k v))) = Some v.
Proof.
  intros Hsz. destruct (lru.find k (lru.items c)) as [old|] eqn:Hf.
  - rewrite (Add_hit _ _ _ _ Hf). simpl. by destruct (decide (k = k)).
  - destruct (Add_miss c k v Hsz Hf) as [->|(l & ev & _ & ->)]; simpl;
      by destruct (decide (k = k)).
Qed.

Lemma Remove_find_eq c k : lru.find k (lru.items (fst (lru.Remove c k))) = None.
Proof.
  unfold lru.Remove. destruct (lru.find k (lru.items c)) eqn:Hf; [|done].
  apply find_drop_eq.
Qed.

Lemma Remove_size c k : lru.size (fst (lru.Remove c k)) = lru.size c.
Proof. unfold lru.Remove. by destruct (lru.find k (lru.items c)). Qed.

Lemma itemsBytes_app l1 l2 :
  itemsBytes (l1 ++ l2) = itemsBytes l1 + itemsBytes l2.
Proof.
  induction l1 as [|x r IH]; simpl; [done|].
  unfold itemsBytes in *. simpl. rewrite IH. lia.
Qed.

Lemma itemsBytes_cons x l : itemsBytes (x :: l) = entryBytes (snd x) + itemsBytes l.
Proof. reflexivity. Qed.

Lemma itemsBytes_snoc l x : itemsBytes (l ++ [x]) = itemsBytes l + entryBytes (snd x).
Proof.
  rewrite itemsBytes_app, itemsBytes_cons.
  change (itemsBytes (@nil (K * iface))) with 0. lia.
Qed.

Lemma itemsBytes_perm l1 l2 : l1 ≡ₚ l2 -> itemsBytes l1 = itemsBytes l2.
Proof.
  induction 1; rewrite ?itemsBytes_cons in *; lia.
Qed.

Lemma itemsBytes_rev l : itemsBytes (rev l) = itemsBytes l.
Proof. apply itemsBytes_perm. symmetry. apply Permutation_rev. Qed.

End LruFacts.

(** ** Sizes *)

Lemma getCachedBlockSize_range blk : 0 <= getCachedBlockSize blk < 2 ^ 32.
Proof.
  unfold getCachedBlockSize, GetEncodedSize, wrap32.
  destruct blk as [d|f|c|n]; try destruct (IsInd (fileCommon f));
    apply Z.mod_pos_bound; lia.
Qed.

Lemma entryBytes_nonneg v : 0 <= entryBytes v.
Proof.
  destruct v; simpl; [|lia]. pose proof (getCachedBlockSize_range (block bc)). lia.
Qed.

Lemma itemsBytes_nonneg {K : Type} (l : list (K * iface)) : 0 <= itemsBytes l.
Proof.
  induction l as [|x r IH]; [done|].
  rewrite itemsBytes_cons. pose proof (entryBytes_nonneg (snd x)). lia.
Qed.

Lemma mapBytes_empty : mapBytes ∅ = 0.
Proof. apply map_fold_empty. Qed.

Lemma mapBytes_insert_new (m : gmap kbfsblock_ID Block) id blk :
  m !! id = None -> mapBytes (<[id:=blk]> m) = getCachedBlockSize blk + mapBytes m.
Proof.
  intros Hn. unfold mapBytes.
  rewrite map_fold_insert_L; [done| |done].
  intros. lia.
Qed.

Lemma mapBytes_delete (m : gmap kbfsblock_ID Block) id blk :
  m !! id = Some blk -> mapBytes m = getCachedBlockSize blk + mapBytes (delete id m).
Proof.
  intros Hs. unfold mapBytes.
  rewrite (map_fold_delete_L _ _ id blk m); [done| |done].
  intros. lia.
Qed.

Lemma mapBytes_insert_old (m : gmap kbfsblock_ID Block) id blk old :
  m !! id = Some old ->
  mapBytes (<[id:=blk]> m) = getCachedBlockSize blk - getCachedBlockSize old + mapBytes m.
Proof.
  intros Hs. rewrite <- insert_delete_eq.
  rewrite mapBytes_insert_new by apply lookup_delete_eq.
  rewrite (mapBytes_delete m id old Hs). lia.
Qed.

Lemma mapBytes_nonneg (m : gmap kbfsblock_ID Block) : 0 <= mapBytes m.
Proof.
  induction m as [|id blk m Hn IH] using map_ind.
  - by rewrite mapBytes_empty.
  - rewrite mapBytes_insert_new by done.
    pose proof (getCachedBlockSize_range blk). lia.
Qed.

Lemma permanentBytes_nonneg b : 0 <= permanentBytes b.
Proof. apply mapBytes_nonneg. Qed.

Lemma transientBytes_nonneg b : 0 <= transientBytes b.
Proof.
  unfold transientBytes. destruct (cleanTransient b); [apply itemsBytes_nonneg|lia].
Qed.

(** ** Evictions and the accountant *)

Lemma RemoveOldest_spec {K : Type} (c : lru.Cache K) :
  (lru.items c = [] /\ lru.RemoveOldest c = (c, None)) \/
  (exists l ev, lru.items c = l ++ [ev] /\
     lru.RemoveOldest c = ({| lru.size := lru.size c; lru.items := l |}, Some ev)).
Proof.
  unfold lru.RemoveOldest. destruct (rev (lru.items c)) as [|old r] eqn:E.
  - left. split; [|done].
    rewrite <- (rev_involutive (lru.items c)), E. done.
  - right. exists (rev r), old. split; [|done].
    rewrite <- (rev_involutive (lru.items c)), E. done.
Qed.

Lemma evicted_transient b c ev :
  cleanTransient (evicted (withTransient b c) ev) = Some c.
Proof.
  destruct ev as [[k [bc|ptr]]|]; simpl; [|done..].
  unfold subtractBlockBytes. by destruct (_ >=? _).
Qed.

Lemma evicted_sameRest b c ev : sameRest b (evicted (withTransient b c) ev).
Proof.
  destruct ev as [[k [bc|ptr]]|]; simpl; [|done..].
  unfold subtractBlockBytes. by destruct (_ >=? _).
Qed.

Lemma evicted_None_total b c :
  cleanTotalBytes (evicted (withTransient b c) None) = cleanTotalBytes b.
Proof. done. Qed.

Lemma evicted_Some_total b c k v :
  entryBytes v <= cleanTotalBytes b ->
  cleanTotalBytes (evicted (withTransient b c) (Some (k, v)))
  = cleanTotalBytes b - entryBytes v.
Proof.
  intros Hle. destruct v as [bc|ptr]; simpl in *; [|lia].
  unfold subtractBlockBytes. simpl.
  destruct (_ >=? _) eqn:E; simpl; [done|]. lia.
Qed.

Lemma evicted_charged p b c k v :
  0 <= p ->
  cleanTotalBytes b = itemsBytes (lru.items c) + entryBytes v + p ->
  charged p (evicted (withTransient b c) (Some (k, v))).
Proof.
  intros Hp Ht. unfold charged, transientBytes.
  rewrite evicted_transient, evicted_Some_total; [lia|].
  pose proof (itemsBytes_nonneg (lru.items c)). lia.
Qed.

Lemma sameRest_refl b : sameRest b b.
Proof. done. Qed.

Lemma sameRest_trans b1 b2 b3 : sameRest b1 b2 -> sameRest b2 b3 -> sameRest b1 b3.
Proof. unfold sameRest. intros (?&?&?) (?&?&?). repeat split; congruence. Qed.

Lemma transientRemoveOldest_spec p b c :
  0 <= p -> cleanTransient b = Some c -> charged p b ->
  (lru.items c = [] /\ transientRemoveOldest b = withTransient b c) \/
  (exists l ev, lru.items c = l ++ [ev] /\
     cleanTransient (transientRemoveOldest b)
       = Some {| lru.size := lru.size c; lru.items := l |} /\
     charged p (transientRemoveOldest b) /\
     sameRest b (transientRemoveOldest b)).
Proof.
  intros Hp Hc Hch. unfold transientRemoveOldest. rewrite Hc.
  destruct (RemoveOldest_spec c) as [[Hnil ->]|(l & ev & Hl & ->)].
  - by left.
  - right. exists l, ev. destruct ev as [k v].
    split; [done|]. split; [apply evicted_transient|].
    split; [|apply evicted_sameRest].
    apply evicted_charged; [done|]. simpl.
    unfold charged, transientBytes in Hch.
    rewrite Hc, Hl, itemsBytes_snoc in Hch. simpl in Hch. lia.
Qed.

Lemma withTransient_same b c : cleanTransient b = Some c -> withTransient b c = b.
Proof. destruct b; simpl; by intros ->. Qed.

(** The loop of [makeRoomForSize] finishes on the fuel it is given; it only
    drops entries from the old end of the transient store, debiting each,
    and stops when the block fits or when nothing is left to evict. *)
Lemma makeRoomLoop_spec size cap p :
  0 <= p ->
  forall fuel b c oldLen,
    cleanTransient b = Some c -> charged p b ->
    (oldLen = transientLen b -> lru.items c = []) ->
    ((if decide (oldLen = transientLen b) then 1 else length (lru.items c) + 2)
       <= fuel)%nat ->
    exists b' l dropped,
      makeRoomLoop fuel size cap oldLen b = Some b' /\
      cleanTransient b' = Some {| lru.size := lru.size c; lru.items := l |} /\
      lru.items c = l ++ dropped /\
      charged p b' /\ sameRest b b' /\
      (wrap64 (cleanTotalBytes b' + size) <= cap \/ l = []).
Proof.
  intros Hp. induction fuel as [|fuel IH]; intros b c oldLen Hc Hch Hold Hfuel.
  { destruct (decide _); lia. }
  simpl. destruct (wrap64 (cleanTotalBytes b + size) >? cap) eqn:Hgt.
  2:{ exists b, (lru.items c), []. rewrite app_nil_r.
      repeat split; try done. { by destruct c. } left. lia. }
  assert (Hlen : transientLen b = Z.of_nat (length (lru.items c))).
  { unfold transientLen. by rewrite Hc. }
  destruct (oldLen =? transientLen b) eqn:Heq.
  { apply Z.eqb_eq in Heq. specialize (Hold Heq).
    exists b, [], []. rewrite Hold in *. repeat split; try done.
    - destruct c; simpl in *; by subst.
    - by right. }
  apply Z.eqb_neq in Heq. destruct (decide _) as [|_]; [done|].
  destruct (transientRemoveOldest_spec p b c Hp Hc Hch)
    as [[Hnil Heqb]|(l & ev & Hl & Hc' & Hch' & Hsame)].
  - rewrite Heqb, withTransient_same by done.
    destruct (IH b c (transientLen b) Hc Hch (fun _ => Hnil))
      as (b' & l & dropped & Hloop & ?); [|by exists b', l, dropped].
    destruct (decide _); [|done]. rewrite Hnil in Hfuel. simpl in Hfuel. lia.
  - destruct (IH (transientRemoveOldest b) _ (transientLen b) Hc' Hch')
      as (b' & l' & dropped & Hloop & Hc'' & Hitems & Hch'' & Hsame' & Hfit).
    + unfold transientLen at 2. rewrite Hc'. unfold lru.Len. simpl.
      rewrite Hlen, Hl, length_app. simpl. lia.
    + destruct (decide _) as [Hd|_].
      * unfold transientLen at 2 in Hd. rewrite Hc' in Hd. unfold lru.Len in Hd.
        simpl in Hd. rewrite Hlen, Hl, length_app in Hd. simpl in Hd. lia.
      * simpl. rewrite Hl, length_app in Hfuel. simpl in Hfuel. lia.
    + exists b', l', (dropped ++ [ev]). simpl in *.
      refine (conj Hloop (conj Hc'' (conj _ (conj Hch'' (conj _ Hfit))))).
      * rewrite Hl, Hitems. by rewrite app_assoc.
      * by eapply sameRest_trans.
Qed.

(** [makeRoomForSize] on a cache with a transient store: it returns, having
    dropped only old transient entries; it answers [true] exactly when the
    block then fits, and charges the block when it fits or is permanent. *)
Lemma makeRoomForSize_spec p b c size lifetime :
  0 <= p -> cleanTransient b = Some c -> charged p b ->
  exists b' ok l dropped,
    makeRoomForSize b size lifetime = Some (b', ok) /\
    cleanTransient b' = Some {| lru.size := lru.size c; lru.items := l |} /\
    lru.items c = l ++ dropped /\
    sameRest b b' /\
    let fits := wrap64 (itemsBytes l + p + size) <= cleanBytesCapacity b in
    if ok then
      fits /\ cleanTotalBytes b' = wrap64 (itemsBytes l + p + size)
    else
      ~ fits /\ l = [] /\
      cleanTotalBytes b' =
        match lifetime with
        | PermanentEntry => wrap64 (p + size)
        | _ => p
        end.
Proof.
  intros Hp Hc Hch. unfold makeRoomForSize. rewrite Hc.
  destruct (makeRoomLoop_spec size (GetCleanBytesCapacity b) p Hp
              (S (S (Z.to_nat (transientLen b)))) b c (transientLen b + 1) Hc Hch)
    as (b' & l & dropped & -> & Hc' & Hitems & Hch' & Hsame & Hfit).
  { lia. }
  { destruct (decide _); [lia|]. unfold transientLen. rewrite Hc. unfold lru.Len. lia. }
  assert (Ht : cleanTotalBytes b' = itemsBytes l + p).
  { unfold charged, transientBytes in Hch'. by rewrite Hc' in Hch'. }
  unfold GetCleanBytesCapacity in *.
  destruct (wrap64 (cleanTotalBytes b' + size) >? cleanBytesCapacity b) eqn:Hgt.
  - assert (Hl : l = []) by (destruct Hfit; [lia|done]). subst l.
    change (itemsBytes (@nil (kbfsblock_ID * iface))) with 0 in *.
    assert (Ht0 : cleanTotalBytes b' = p) by lia.
    exists (match lifetime with
            | PermanentEntry =>
                withTotalBytes b' (wrap64 (cleanTotalBytes b' + size))
            | _ => b'
            end), false, [], dropped.
    split. { by destruct lifetime. }
    split. { by destruct lifetime. }
    split; [done|].
    split. { eapply sameRest_trans; [exact Hsame|]. by destruct lifetime. }
    simpl. change (itemsBytes (@nil (kbfsblock_ID * iface))) with 0.
    replace (0 + p + size) with (p + size) by lia.
    rewrite Ht0 in Hgt.
    split; [lia|]. split; [done|].
    destruct lifetime; simpl; rewrite ?Ht0; done.
  - eexists _, true, l, dropped; simpl.
    split; [reflexivity|]. split; [exact Hc'|]. split; [exact Hitems|].
    split; [by eapply sameRest_trans; [exact Hsame|]|].
    rewrite Ht in *. split; [lia|done].
Qed.

(** A cache without a transient store charges nothing. *)
Lemma makeRoomForSize_disabled b size lifetime :
  cleanTransient b = None -> makeRoomForSize b size lifetime = Some (b, false).
Proof. unfold makeRoomForSize. by intros ->. Qed.

(** [makeRoomForSize] returns: its loop never runs out of fuel. *)
Lemma makeRoomForSize_returns b size lifetime :
  exists r, makeRoomForSize b size lifetime = Some r.
Proof.
  unfold makeRoomForSize. destruct (cleanTransient b) as [c|] eqn:Hc; [|by eexists].
  assert (Hloop : exists b', makeRoomLoop (S (S (Z.to_nat (transientLen b)))) size
            (GetCleanBytesCapacity b) (transientLen b + 1) b = Some b').
  { clear lifetime.
    assert (Hgen : forall fuel b0 c0 oldLen, cleanTransient b0 = Some c0 ->
      (oldLen = transientLen b0 \/ length (lru.items c0) + 2 <= fuel)%nat ->
      (1 <= fuel)%nat ->
      exists b', makeRoomLoop fuel size (GetCleanBytesCapacity b) oldLen b0 = Some b').
    { induction fuel as [|fuel IH]; intros b0 c0 oldLen Hc0 Hor Hf; [lia|].
      simpl. destruct (_ >? _); [|by eexists].
      destruct (oldLen =? transientLen b0) eqn:E; [by eexists|].
      apply Z.eqb_neq in E. destruct Hor as [|Hor]; [done|].
      unfold transientRemoveOldest. rewrite Hc0.
      destruct (RemoveOldest_spec c0) as [[Hnil ->]|(l & ev & Hl & ->)].
      - eapply (IH _ c0); [apply evicted_transient| |lia].
        left. simpl. unfold transientLen. rewrite Hc0. by destruct c0.
      - eapply IH; [apply evicted_transient| |].
        + right. simpl. rewrite Hl, length_app in Hor. simpl in Hor. lia.
        + rewrite Hl, length_app in Hor. simpl in Hor. lia. }
    eapply (Hgen _ b c); [done| |lia].
    right. unfold transientLen. rewrite Hc. unfold lru.Len. lia. }
  destruct Hloop as [b' ->].
  destruct (_ >? _); [destruct lifetime|]; by eexists.
Qed.

(** ** Lookups *)

(** C4. [GetWithPrefetch] answers from the transient store when it holds the
    pointer's ID (even if the permanent store holds it too), otherwise from
    the permanent store, otherwise with [NoSuchBlockError]; an answer from
    the permanent store is always [hasPrefetched = true] with
    [PermanentEntry]; [Get] returns the same block and error. *)
Theorem C4_get_probes_transient_then_permanent (b : BlockCacheStandard)
  (ptr : BlockPointer) :
  let r := snd (GetWithPrefetch b ptr) in
  match transientLookup b (ID ptr) with
  | Some (IContainer bc) =>
      r = (Some (block bc), hasPrefetched bc, TransientEntry, None)
  | Some _ => r = (None, false, NoCacheEntry, Some (BadDataError (ID ptr)))
  | None =>
      match permanentLookup b (ID ptr) with
      | Some blk => r = (Some blk, true, PermanentEntry, None)
      | None => r = (None, false, NoCacheEntry, Some (NoSuchBlockError (ID ptr)))
      end
  end /\
  (forall blk hp err, r = (blk, hp, PermanentEntry, err) ->
     hp = true /\ err = None /\ blk = permanentLookup b (ID ptr) /\
     transientLookup b (ID ptr) = None) /\
  snd (Get b ptr) = (fst (fst (fst r)), snd r).
Proof.
  unfold GetWithPrefetch, Get, GetWithPrefetch, transientLookup, permanentLookup.
  destruct (cleanTransient b) as [c|]; simpl.
  - unfold lru.Get. destruct (lru.find (ID ptr) (lru.items c)) as [[bc|p]|]; simpl.
    + split; [done|]. split; [|done]. intros ????; discriminate.
    + split; [done|]. split; [|done]. intros ????; discriminate.
    + destruct (cleanPermanent b !! ID ptr) as [blk|]; simpl.
      * split; [done|]. split; [|done]. by intros ??? [= <- <- <-].
      * split; [done|]. split; [|done]. intros ????; discriminate.
  - destruct (cleanPermanent b !! ID ptr) as [blk|]; simpl.
    + split; [done|]. split; [|done]. by intros ??? [= <- <- <-].
    + split; [done|]. split; [|done]. intros ????; discriminate.
Qed.

(** ** Puts *)

Lemma wrap64_small z : 0 <= z < 2 ^ 64 -> wrap64 z = z.
Proof. intros. unfold wrap64. by apply Z.mod_small. Qed.

Lemma wrap64_le z : 0 <= z -> wrap64 z <= z.
Proof. intros. unfold wrap64. apply Z.mod_le; lia. Qed.

Lemma drop_drop {K : Type} `{EqDecision K} (k : K) (l : list (K * iface)) :
  lru.drop k (lru.drop k l) = lru.drop k l.
Proof. apply drop_absent, drop_key_absent. Qed.

Lemma find_app_None {K : Type} `{EqDecision K} (k : K) (l r : list (K * iface)) :
  lru.find k (l ++ r) = None -> lru.find k l = None.
Proof.
  induction l as [|[k' v] l IH]; simpl; [done|].
  destruct (decide (k = k')); [done|]. apply IH.
Qed.

(** A re-put of a resident ID replaces the entry, at the front. *)
Lemma putFinish_reput b c ptr blk h old :
  cleanTransient b = Some c ->
  lru.find (ID ptr) (lru.items c) = Some old ->
  putFinish b ptr blk TransientEntry h true =
    Returned
      (withTransient b
         {| lru.size := lru.size c;
            lru.items :=
              (ID ptr, IContainer {| block := blk; hasPrefetched := h |})
                :: lru.drop (ID ptr) (lru.items c) |},
       None).
Proof.
  intros Hc Hf. unfold putFinish, transientAdd. simpl. rewrite Hc.
  by rewrite (Add_hit _ _ _ _ Hf).
Qed.

(** A put of an ID that is not resident: either the block fits after
    evictions and is inserted at the front, possibly pushing out the oldest
    entry, or nothing is left to evict and the put fails, the transient
    store being empty. *)
Lemma putFinish_new p b c ptr blk h :
  0 <= p -> cleanTransient b = Some c -> 0 < lru.size c -> charged p b ->
  lru.find (ID ptr) (lru.items c) = None ->
  let v := IContainer {| block := blk; hasPrefetched := h |} in
  let size := getCachedBlockSize blk in
  exists b' e,
    putFinish b ptr blk TransientEntry h false = Returned (b', e) /\
    sameRest b b' /\
    ((e = None /\
      exists l dropped, lru.items c = l ++ dropped /\
        cleanTransient b' =
          Some {| lru.size := lru.size c; lru.items := (ID ptr, v) :: l |} /\
        (itemsBytes (lru.items c) + p + size < 2 ^ 64 ->
         cleanTotalBytes b' = itemsBytes ((ID ptr, v) :: l) + p)) \/
     (e = Some (cachePutCacheFullError (ID ptr)) /\
      cleanTransient b' = Some {| lru.size := lru.size c; lru.items := [] |} /\
      cleanTotalBytes b' = p /\
      cleanBytesCapacity b < wrap64 (p + size))).
Proof.
  intros Hp Hc Hsz Hch Hf. cbv zeta. unfold putFinish. simpl.
  set (size := getCachedBlockSize blk).
  set (v := IContainer {| block := blk; hasPrefetched := h |}).
  destruct (makeRoomForSize_spec p b c size TransientEntry Hp Hc Hch)
    as (b1 & ok & l & dropped & -> & Hc1 & Hitems & Hsame & Hok).
  simpl in Hok. destruct ok; simpl.
  - destruct Hok as [Hfits Htot].
    assert (Hfl : lru.find (ID ptr) l = None).
    { rewrite Hitems in Hf. by eapply find_app_None. }
    eexists _, None. split; [reflexivity|].
    unfold transientAdd. rewrite Hc1.
    destruct (Add_miss {| lru.size := lru.size c; lru.items := l |} (ID ptr) v)
      as [->|(l' & ev & Hl & ->)]; [done..| |].
    + split; [eapply sameRest_trans; [exact Hsame|apply evicted_sameRest]|].
      left. split; [done|]. exists l, dropped. split; [done|].
      split; [done|]. intros Hbound. simpl. rewrite Htot, itemsBytes_cons. simpl.
      pose proof (itemsBytes_nonneg l). pose proof (itemsBytes_nonneg dropped).
      pose proof (getCachedBlockSize_range blk).
      rewrite Hitems, itemsBytes_app in Hbound. fold size in Hbound |- *.
      rewrite wrap64_small; lia.
    + split; [eapply sameRest_trans; [exact Hsame|apply evicted_sameRest]|].
      left. split; [done|]. simpl in Hl. subst l.
      exists l', ([ev] ++ dropped). split; [by rewrite Hitems, <- app_assoc|].
      destruct ev as [k' v']. split; [apply evicted_transient|].
      intros Hbound.
      pose proof (itemsBytes_nonneg l'). pose proof (itemsBytes_nonneg dropped).
      pose proof (getCachedBlockSize_range blk). pose proof (entryBytes_nonneg v').
      rewrite Hitems, itemsBytes_app, itemsBytes_snoc in Hbound. simpl in Hbound.
      rewrite itemsBytes_snoc in Htot. simpl in Htot.
      rewrite wrap64_small in Htot by (fold size in Hbound |- *; lia).
      rewrite evicted_Some_total by (fold size in Htot; lia).
      rewrite itemsBytes_cons. simpl. fold size in Htot |- *. lia.
  - destruct Hok as (Hnfit & -> & Htot).
    eexists _, _. split; [reflexivity|]. split; [done|].
    right. split; [done|]. split; [done|]. split; [done|].
    change (itemsBytes (@nil (kbfsblock_ID * iface))) with 0 in Hnfit.
    replace (0 + p + size) with (p + size) in Hnfit by lia. lia.
Qed.

Section Properties.

Variable hash : list Z -> RawDefaultHash.

Lemma putRecordHash_frame b ptr t blk :
  let r := putRecordHash hash b ptr t blk in
  ID (snd r) = ID ptr /\
  cleanTransient (fst r) = cleanTransient b /\
  cleanPermanent (fst r) = cleanPermanent b /\
  cleanTotalBytes (fst r) = cleanTotalBytes b /\
  cleanBytesCapacity (fst r) = cleanBytesCapacity b.
Proof.
  unfold putRecordHash.
  destruct (ids b) as [i|]; [|done].
  destruct blk as [d|f|cb|n]; try done.
  by destruct (IsInd (fileCommon f)).
Qed.

Lemma PutWithPrefetch_Transient b ptr t blk hp :
  cacheable blk ->
  PutWithPrefetch hash b ptr t blk TransientEntry hp =
    let '(b1, ptr1) := putRecordHash hash b ptr t blk in
    match cleanTransient b1 with
    | None => Returned (b1, None)
    | Some c =>
        match lru.Get c (ID ptr1) with
        | (c', Some (IContainer (mkBlockContainer _ stored))) =>
            putFinish (withTransient b1 c') ptr1 blk TransientEntry
              (hp || stored) true
        | (c', Some _) => Panicked
        | (c', None) =>
            putFinish (withTransient b1 c') ptr1 blk TransientEntry hp false
        end
    end.
Proof. by destruct blk. Qed.

(** A Transient put on a cache with a transient store returns, and does one
    of three things: it replaces a resident entry, OR-ing the prefetch
    flags; it inserts a new entry after making room; or it fails for lack
    of room, having emptied the transient store. *)
Lemma put_transient_spec p b c ptr t blk hp :
  cacheable blk -> 0 <= p ->
  cleanTransient b = Some c -> 0 < lru.size c ->
  transientShape b -> charged p b ->
  let b1 := fst (putRecordHash hash b ptr t blk) in
  let id := ID ptr in
  let size := getCachedBlockSize blk in
  exists b' e,
    PutWithPrefetch hash b ptr t blk TransientEntry hp = Returned (b', e) /\
    ids b' = ids b1 /\
    cleanPermanent b' = cleanPermanent b /\
    cleanBytesCapacity b' = cleanBytesCapacity b /\
    ((exists old h0,
        lru.find id (lru.items c)
          = Some (IContainer {| block := old; hasPrefetched := h0 |}) /\
        e = None /\
        cleanTransient b' =
          Some {| lru.size := lru.size c;
                  lru.items :=
                    (id, IContainer {| block := blk; hasPrefetched := hp || h0 |})
                      :: lru.drop id (lru.items c) |} /\
        cleanTotalBytes b' = cleanTotalBytes b) \/
     (lru.find id (lru.items c) = None /\ e = None /\
      exists l dropped, lru.items c = l ++ dropped /\
        cleanTransient b' =
          Some {| lru.size := lru.size c;
                  lru.items :=
                    (id, IContainer {| block := blk; hasPrefetched := hp |}) :: l |} /\
        (itemsBytes (lru.items c) + p + size < 2 ^ 64 ->
         cleanTotalBytes b' = size + itemsBytes l + p)) \/
     (lru.find id (lru.items c) = None /\
      e = Some (cachePutCacheFullError id) /\
      cleanTransient b' = Some {| lru.size := lru.size c; lru.items := [] |} /\
      cleanTotalBytes b' = p /\
      cleanBytesCapacity b < wrap64 (p + size))).
Proof.
  intros Hblk Hp Hc Hsz Hshape Hch. cbv zeta.
  rewrite PutWithPrefetch_Transient by done.
  pose proof (putRecordHash_frame b ptr t blk) as Hframe. cbv zeta in Hframe.
  destruct (putRecordHash hash b ptr t blk) as [b1 ptr1]. simpl in Hframe |- *.
  destruct Hframe as (Hid & Ht1 & Hp1 & Htot1 & Hcap1).
  rewrite Ht1, Hc, Hid.
  destruct (lru.find (ID ptr) (lru.items c)) as [[[old h0]|q]|] eqn:Hf.
  - rewrite (Get_hit _ _ _ Hf).
    erewrite putFinish_reput; [| reflexivity | rewrite Hid; simpl; by destruct (decide _)].
    eexists _, _. split; [reflexivity|]. repeat (split; [done|]).
    left. exists old, h0. split; [done|]. split; [done|]. split; [|done].
    simpl. rewrite Hid. simpl. destruct (decide _); [|done]. by rewrite drop_drop.
  - exfalso. unfold transientShape in Hshape. rewrite Hc in Hshape.
    destruct Hshape as [_ Hall]. apply find_Some in Hf.
    rewrite Forall_forall in Hall. destruct (Hall _ Hf) as [bc Hbc]. discriminate.
  - rewrite (Get_miss _ _ Hf).
    assert (Hch1 : charged p (withTransient b1 c)).
    { unfold charged, transientBytes in *. simpl. rewrite Htot1, Hch. by rewrite Hc. }
    destruct (putFinish_new p (withTransient b1 c) c ptr1 blk hp Hp eq_refl Hsz Hch1)
      as (b' & e & Hput & (Hs1 & Hs2 & Hs3) & Hcases).
    { by rewrite Hid. }
    rewrite Hput. exists b', e. split; [done|]. simpl in *.
    split; [done|]. split; [congruence|]. split; [congruence|].
    right. rewrite Hid, Hcap1 in Hcases.
    destruct Hcases as [(-> & l & dropped & Hl & Hc' & Htot)|(-> & Hc' & Htot & Hcap)].
    + left. split; [done|]. split; [done|]. exists l, dropped.
      split; [done|]. split; [done|]. intros Hb. rewrite (Htot Hb), itemsBytes_cons.
      simpl. lia.
    + right. done.
Qed.

(** Whatever the byte counts, the eviction loop only shortens the transient
    store from its old end and leaves the other fields alone. *)
Lemma makeRoomLoop_frame size cap fuel : forall b c oldLen b',
  makeRoomLoop fuel size cap oldLen b = Some b' ->
  cleanTransient b = Some c ->
  exists l dropped,
    cleanTransient b' = Some {| lru.size := lru.size c; lru.items := l |} /\
    lru.items c = l ++ dropped /\ sameRest b b'.
Proof.
  induction fuel as [|fuel IH]; intros b c oldLen b' Hloop Hc; [discriminate|].
  simpl in Hloop.
  assert (Hstop : Some b = Some b' ->
    exists l dropped,
      cleanTransient b' = Some {| lru.size := lru.size c; lru.items := l |} /\
      lru.items c = l ++ dropped /\ sameRest b b').
  { intros [= <-]. exists (lru.items c), []. rewrite app_nil_r.
    split; [by destruct c|done]. }
  destruct (_ >? _); [|by apply Hstop].
  destruct (_ =? _); [by apply Hstop|]. clear Hstop.
  unfold transientRemoveOldest in Hloop. rewrite Hc in Hloop.
  destruct (RemoveOldest_spec c) as [[Hnil Heq]|(l & ev & Hl & Heq)];
    rewrite Heq in Hloop.
  - destruct (IH _ c _ _ Hloop (evicted_transient _ _ _))
      as (l' & dropped & Hc' & Hitems & Hsame).
    exists l', dropped. split; [done|]. split; [done|].
    eapply sameRest_trans; [|exact Hsame]. apply evicted_sameRest.
  - destruct (IH _ _ _ _ Hloop (evicted_transient _ _ _))
      as (l' & dropped & Hc' & Hitems & Hsame).
    exists l', (dropped ++ [ev]). split; [done|].
    split; [simpl in Hitems; by rewrite Hl, Hitems, app_assoc|].
    eapply sameRest_trans; [|exact Hsame]. apply evicted_sameRest.
Qed.

Lemma makeRoomForSize_frame b c size lifetime b' ok :
  makeRoomForSize b size lifetime = Some (b', ok) ->
  cleanTransient b = Some c ->
  exists l dropped,
    cleanTransient b' = Some {| lru.size := lru.size c; lru.items := l |} /\
    lru.items c = l ++ dropped /\ sameRest b b'.
Proof.
  unfold makeRoomForSize. intros Hm Hc. rewrite Hc in Hm.
  destruct (makeRoomLoop _ _ _ _ _) as [b1|] eqn:Hloop; [|discriminate].
  destruct (makeRoomLoop_frame _ _ _ _ _ _ _ Hloop Hc)
    as (l & dropped & Hc1 & Hitems & Hsame).
  exists l, dropped.
  destruct (_ >? _); [destruct lifetime|]; injection Hm as <- <-; done.
Qed.

(** After a Transient put that returned without error on a cache with a
    transient store, the block is resident under the pointer's ID. *)
Lemma put_transient_resident b c ptr t blk hp b' :
  cacheable blk -> cleanTransient b = Some c -> 0 < lru.size c ->
  PutWithPrefetch hash b ptr t blk TransientEntry hp = Returned (b', None) ->
  exists c' h,
    cleanTransient b' = Some c' /\ lru.size c' = lru.size c /\
    lru.find (ID ptr) (lru.items c')
      = Some (IContainer {| block := blk; hasPrefetched := h |}) /\
    (hp = true -> h = true) /\
    ids b' = ids (fst (putRecordHash hash b ptr t blk)) /\
    cleanPermanent b' = cleanPermanent b.
Proof.
  intros Hblk Hc Hsz. rewrite PutWithPrefetch_Transient by done.
  pose proof (putRecordHash_frame b ptr t blk) as Hframe. cbv zeta in Hframe.
  destruct (putRecordHash hash b ptr t blk) as [b1 ptr1]. simpl in Hframe |- *.
  destruct Hframe as (Hid & Ht1 & Hp1 & Htot1 & Hcap1).
  rewrite Ht1, Hc, Hid.
  destruct (lru.find (ID ptr) (lru.items c)) as [[[old h0]|q]|] eqn:Hf.
  - rewrite (Get_hit _ _ _ Hf).
    erewrite putFinish_reput; [| reflexivity | rewrite Hid; simpl; by destruct (decide _)].
    intros [= <-]. eexists _, _. simpl. split; [reflexivity|]. simpl.
    rewrite Hid. destruct (decide _); [|done].
    repeat split; try done. by intros ->.
  - by rewrite (Get_hit _ _ _ Hf).
  - rewrite (Get_miss _ _ Hf). unfold putFinish. simpl.
    destruct (makeRoomForSize _ _ _) as [[b2 ok]|] eqn:Hm; [|done].
    destruct (makeRoomForSize_frame _ c _ _ _ _ Hm eq_refl)
      as (l & dropped & Hc2 & Hitems & Hs1 & Hs2 & Hs3).
    destruct ok; simpl; [|done]. intros [= <-].
    unfold transientAdd. rewrite Hc2.
    destruct (lru.Add _ _ _) as [c3 ev] eqn:Hadd.
    exists c3, hp. rewrite evicted_transient. split; [done|].
    assert (Hc3 : c3 = fst (lru.Add {| lru.size := lru.size c; lru.items := l |}
                    (ID ptr1)
                    (IContainer {| block := blk; hasPrefetched := hp |})))
      by by rewrite Hadd.
    split; [by rewrite Hc3, Add_size|].
    split; [rewrite Hc3, <- Hid; by apply Add_find_eq|].
    split; [done|].
    pose proof (evicted_sameRest b2 c3 ev) as (He1 & He2 & He3).
    simpl in *. split; congruence.
Qed.

Lemma makeRoomForSize_sameRest b size lifetime b' ok :
  makeRoomForSize b size lifetime = Some (b', ok) -> sameRest b b'.
Proof.
  intros Hm. destruct (cleanTransient b) as [c|] eqn:Hc.
  - by destruct (makeRoomForSize_frame _ _ _ _ _ _ Hm Hc) as (?&?&?&?&?).
  - rewrite makeRoomForSize_disabled in Hm by done. by injection Hm as <- <-.
Qed.

Lemma transientAdd_sameRest b k v : sameRest b (transientAdd b k v).
Proof.
  unfold transientAdd. destruct (cleanTransient b) as [c|]; [|done].
  destruct (lru.Add c k v). apply evicted_sameRest.
Qed.

Lemma transientRemove_sameRest b k : sameRest b (transientRemove b k).
Proof.
  unfold transientRemove. destruct (cleanTransient b) as [c|]; [|done].
  destruct (lru.Remove c k). apply evicted_sameRest.
Qed.

Lemma putFinish_sameRest b ptr blk lifetime h w b' e :
  putFinish b ptr blk lifetime h w = Returned (b', e) -> sameRest b b'.
Proof.
  unfold putFinish.
  destruct (if negb w then _ else _) as [[b1 ok]|] eqn:Hm; [|done].
  assert (Hs : sameRest b b1).
  { destruct w; simpl in Hm; [by injection Hm as <- <-|].
    by eapply makeRoomForSize_sameRest. }
  destruct lifetime; try (by intros [= <- <-]).
  destruct (negb ok); intros [= <- <-]; [done|].
  eapply sameRest_trans; [exact Hs|apply transientAdd_sameRest].
Qed.

(** [putFinish] returns. *)
Lemma putFinish_returns b ptr blk lifetime h w :
  exists r, putFinish b ptr blk lifetime h w = Returned r.
Proof.
  unfold putFinish.
  assert (Hm : exists r, (if negb w
            then makeRoomForSize b (getCachedBlockSize blk) lifetime
            else Some (b, true)) = Some r).
  { destruct w; simpl; [by eexists|apply makeRoomForSize_returns]. }
  destruct Hm as [[b1 ok] ->].
  destruct lifetime; try by eexists. destruct (negb ok); by eexists.
Qed.

(** The index after a put that returned: written by [putRecordHash] for a
    Transient put of a cacheable block, untouched otherwise. *)
Lemma PutWithPrefetch_ids_transient b ptr t blk hp b' e :
  cacheable blk ->
  PutWithPrefetch hash b ptr t blk TransientEntry hp = Returned (b', e) ->
  ids b' = ids (fst (putRecordHash hash b ptr t blk)).
Proof.
  intros Hblk Hput.
  rewrite PutWithPrefetch_Transient in Hput by done.
  destruct (putRecordHash hash b ptr t blk) as [b1 ptr1]. simpl.
  destruct (cleanTransient b1) as [c|]; [|by injection Hput as <- <-].
  destruct (lru.Get c (ID ptr1)) as [c' [[[old h0]|q]|]]; try done;
    by apply putFinish_sameRest in Hput as (_ & -> & _).
Qed.

Lemma PutWithPrefetch_ids_other b ptr t blk lifetime hp b' e :
  lifetime <> TransientEntry \/ ~ cacheable blk ->
  PutWithPrefetch hash b ptr t blk lifetime hp = Returned (b', e) ->
  ids b' = ids b.
Proof.
  intros Hor Hput.
  assert (Hcases : cacheable blk \/ ~ cacheable blk)
    by (destruct blk; simpl; tauto).
  destruct Hcases as [Hblk|Hblk].
  2:{ destruct blk; simpl in Hblk; try tauto; by injection Hput as <- <-. }
  destruct Hor as [Hlt|?]; [|done].
  destruct lifetime; try done.
  - destruct blk; simpl in Hblk; try tauto; by injection Hput as <- <-.
  - assert (Hp : putFinish
        (withPermanent b (<[ID ptr:=blk]> (cleanPermanent b))) ptr blk
        PermanentEntry hp (bool_decide (is_Some (cleanPermanent b !! ID ptr)))
        = Returned (b', e)).
    { by destruct blk; simpl in Hblk; try tauto. }
    by apply putFinish_sameRest in Hp as (_ & -> & _).
  - destruct blk; simpl in Hblk; try tauto; by injection Hput as <- <-.
Qed.

(** A put returns on every cache whose transient store holds block
    containers only. *)
Lemma PutWithPrefetch_returns b ptr t blk lifetime hp :
  transientShape b ->
  exists r, PutWithPrefetch hash b ptr t blk lifetime hp = Returned r.
Proof.
  intros Hshape.
  assert (Hcases : cacheable blk \/ ~ cacheable blk)
    by (destruct blk; simpl; tauto).
  destruct Hcases as [Hblk|Hblk].
  2:{ destruct blk; simpl in Hblk; try tauto; by eexists. }
  destruct lifetime.
  - destruct blk; simpl in Hblk; try tauto; by eexists.
  - rewrite PutWithPrefetch_Transient by done.
    pose proof (putRecordHash_frame b ptr t blk) as Hframe. cbv zeta in Hframe.
    destruct (putRecordHash hash b ptr t blk) as [b1 ptr1]. simpl in Hframe |- *.
    destruct Hframe as (Hid & Ht1 & _). rewrite Ht1.
    destruct (cleanTransient b) as [c|] eqn:Hc; [|by eexists].
    destruct (lru.find (ID ptr1) (lru.items c)) as [[[old h0]|q]|] eqn:Hf.
    + rewrite (Get_hit _ _ _ Hf). apply putFinish_returns.
    + exfalso. unfold transientShape in Hshape. rewrite Hc in Hshape.
      destruct Hshape as [_ Hall]. apply find_Some in Hf.
      rewrite Forall_forall in Hall. destruct (Hall _ Hf) as [bc Hbc]. discriminate.
    + rewrite (Get_miss _ _ Hf). apply putFinish_returns.
  - destruct blk; simpl in Hblk; try tauto; apply putFinish_returns.
  - destruct blk; simpl in Hblk; try tauto; by eexists.
Qed.

Lemma GetWithPrefetch_transient_hit b ptr bc :
  transientLookup b (ID ptr) = Some (IContainer bc) ->
  snd (GetWithPrefetch b ptr)
  = (Some (block bc), hasPrefetched bc, TransientEntry, None).
Proof.
  unfold transientLookup, GetWithPrefetch.
  destruct (cleanTransient b) as [c|]; [|done]. intros Hf.
  by rewrite (Get_hit _ _ _ Hf).
Qed.

Lemma GetWithPrefetch_miss b ptr :
  transientLookup b (ID ptr) = None -> permanentLookup b (ID ptr) = None ->
  snd (GetWithPrefetch b ptr)
  = (None, false, NoCacheEntry, Some (NoSuchBlockError (ID ptr))).
Proof.
  unfold transientLookup, permanentLookup, GetWithPrefetch.
  destruct (cleanTransient b) as [c|].
  - intros Hf Hp. rewrite (Get_miss _ _ Hf). simpl. by rewrite Hp.
  - intros _ Hp. by rewrite Hp.
Qed.

(** C5. A Transient put of a cacheable block under an ID that is resident in
    the transient store returns without error and leaves the entry with the
    new block and the logical OR of the incoming and the stored
    [hasPrefetched]; in particular, after a successful Transient put with
    [hasPrefetched = true], a Transient put with [hasPrefetched = false]
    under the same ID leaves an entry whose [hasPrefetched] is [true]. *)
Theorem C5_reput_or_merges_hasPrefetched :
  (forall b ptr t blk hp old h0,
     cacheable blk ->
     transientLookup b (ID ptr)
       = Some (IContainer {| block := old; hasPrefetched := h0 |}) ->
     exists b',
       PutWithPrefetch hash b ptr t blk TransientEntry hp = Returned (b', None) /\
       transientLookup b' (ID ptr)
         = Some (IContainer {| block := blk; hasPrefetched := hp || h0 |}) /\
       snd (GetWithPrefetch b' ptr) = (Some blk, hp || h0, TransientEntry, None)) /\
  (forall b c ptr t blk b1 ptr' t' blk',
     cacheable blk -> cacheable blk' ->
     cleanTransient b = Some c -> 0 < lru.size c ->
     ID ptr' = ID ptr ->
     PutWithPrefetch hash b ptr t blk TransientEntry true = Returned (b1, None) ->
     exists b2,
       PutWithPrefetch hash b1 ptr' t' blk' TransientEntry false
         = Returned (b2, None) /\
       transientLookup b2 (ID ptr)
         = Some (IContainer {| block := blk'; hasPrefetched := true |}) /\
       snd (GetWithPrefetch b2 ptr) = (Some blk', true, TransientEntry, None)).
Proof.
  assert (Hfirst : forall b ptr t blk hp old h0,
     cacheable blk ->
     transientLookup b (ID ptr)
       = Some (IContainer {| block := old; hasPrefetched := h0 |}) ->
     exists b',
       PutWithPrefetch hash b ptr t blk TransientEntry hp = Returned (b', None) /\
       transientLookup b' (ID ptr)
         = Some (IContainer {| block := blk; hasPrefetched := hp || h0 |}) /\
       snd (GetWithPrefetch b' ptr) = (Some blk, hp || h0, TransientEntry, None)).
  { intros b ptr t blk hp old h0 Hblk Hlook.
    unfold transientLookup in Hlook.
    destruct (cleanTransient b) as [c|] eqn:Hc; [|done].
    rewrite PutWithPrefetch_Transient by done.
    pose proof (putRecordHash_frame b ptr t blk) as Hframe. cbv zeta in Hframe.
    destruct (putRecordHash hash b ptr t blk) as [b1 ptr1]. simpl in Hframe |- *.
    destruct Hframe as (Hid & Ht1 & _). rewrite Ht1, Hc, Hid.
    rewrite (Get_hit _ _ _ Hlook).
    erewrite putFinish_reput;
      [| reflexivity | rewrite Hid; simpl; by destruct (decide _)].
    eexists. split; [reflexivity|].
    match goal with
    | |- transientLookup ?s _ = _ /\ _ =>
        assert (Hl : transientLookup s (ID ptr)
          = Some (IContainer {| block := blk; hasPrefetched := hp || h0 |}))
    end.
    { unfold transientLookup. simpl. rewrite Hid. by destruct (decide _). }
    split; [exact Hl|]. by rewrite (GetWithPrefetch_transient_hit _ _ _ Hl). }
  split; [exact Hfirst|].
  intros b c ptr t blk b1 ptr' t' blk' Hblk Hblk' Hc Hsz Hid Hput.
  destruct (put_transient_resident b c ptr t blk true b1 Hblk Hc Hsz Hput)
    as (c1 & h & Hc1 & _ & Hf & Hh & _).
  rewrite (Hh eq_refl) in Hf.
  destruct (Hfirst b1 ptr' t' blk' false blk true Hblk') as (b2 & Hput2 & Hl2 & Hg2).
  { unfold transientLookup. by rewrite Hc1, Hid. }
  exists b2. split; [done|]. rewrite Hid in Hl2. split; [done|].
  by rewrite (GetWithPrefetch_transient_hit _ _ _ Hl2).
Qed.

Lemma CheckForKnownPtr_hit b t fb ptr :
  IsInd (fileCommon fb) = false ->
  idsLookup b {| tlf := t; plaintextHash := GetHash hash fb |} = Some (IPointer ptr) ->
  snd (CheckForKnownPtr hash b t fb) = (ptr, None).
Proof.
  unfold idsLookup, CheckForKnownPtr. intros -> Hf.
  destruct (ids b) as [i|]; [|done]. by rewrite (Get_hit _ _ _ Hf).
Qed.

Lemma CheckForKnownPtr_miss b t fb :
  IsInd (fileCommon fb) = false ->
  idsLookup b {| tlf := t; plaintextHash := GetHash hash fb |} = None ->
  snd (CheckForKnownPtr hash b t fb) = (zeroBlockPointer, None).
Proof.
  unfold idsLookup, CheckForKnownPtr. intros -> Hf.
  destruct (ids b) as [i|]; [|done]. by rewrite (Get_miss _ _ Hf).
Qed.

(** On a cache with a dedup index, a Transient put of a direct file block
    returns, and a lookup with a direct file block of the same plaintext
    then returns the pointer with its RefNonce zeroed. *)
Lemma put_then_CheckForKnownPtr b i ptr t fb fb' hp :
  ids b = Some i -> 0 < lru.size i -> transientShape b ->
  IsInd (fileCommon fb) = false -> IsInd (fileCommon fb') = false ->
  Contents fb' = Contents fb ->
  exists b' e,
    PutWithPrefetch hash b ptr t (FileBlockOf fb) TransientEntry hp
      = Returned (b', e) /\
    snd (CheckForKnownPtr hash b' t fb')
      = ({| ID := ID ptr; RefNonce := ZeroRefNonce; ptrRest := ptrRest ptr |}, None).
Proof.
  intros Hi Hsz Hshape Hfb Hfb' Hcont.
  destruct (PutWithPrefetch_returns b ptr t (FileBlockOf fb) TransientEntry hp Hshape)
    as [[b' e] Hput].
  exists b', e. split; [done|].
  apply CheckForKnownPtr_hit; [done|].
  unfold idsLookup.
  rewrite (PutWithPrefetch_ids_transient b ptr t (FileBlockOf fb) hp b' e I Hput).
  unfold putRecordHash. rewrite Hi, Hfb. simpl.
  unfold GetHash. rewrite Hcont. by apply Add_find_eq.
Qed.

Lemma Get_miss_result b ptr :
  transientLookup b (ID ptr) = None -> permanentLookup b (ID ptr) = None ->
  snd (Get b ptr) = (None, Some (NoSuchBlockError (ID ptr))).
Proof.
  intros Ht Hp. pose proof (GetWithPrefetch_miss b ptr Ht Hp) as Hg.
  unfold Get. destruct (GetWithPrefetch b ptr) as [b' [[[blk hp] lt] err]].
  simpl in *. by injection Hg as -> _ _ ->.
Qed.

Lemma transientRemove_lookup b k : transientLookup (transientRemove b k) k = None.
Proof.
  unfold transientLookup, transientRemove.
  destruct (cleanTransient b) as [c|] eqn:Hc; [|by rewrite Hc].
  pose proof (Remove_find_eq c k) as Hr.
  destruct (lru.Remove c k) as [c' ev]. by rewrite evicted_transient.
Qed.

(** After a Transient put of a direct file block that returned without
    error, [DeleteTransient] removes the transient entry and the index
    entry. *)
Lemma Get_permanent_result b ptr blk :
  transientLookup b (ID ptr) = None -> permanentLookup b (ID ptr) = Some blk ->
  snd (Get b ptr) = (Some blk, None).
Proof.
  unfold transientLookup, permanentLookup, Get, GetWithPrefetch.
  destruct (cleanTransient b) as [c|].
  - intros Hf Hp. rewrite (Get_miss _ _ Hf). simpl. by rewrite Hp.
  - intros _ Hp. by rewrite Hp.
Qed.

Lemma put_then_DeleteTransient b ptr t fb hp b1 :
  wellFormed b ->
  IsInd (fileCommon fb) = false ->
  PutWithPrefetch hash b ptr t (FileBlockOf fb) TransientEntry hp
    = Returned (b1, None) ->
  let r := DeleteTransient hash b1 ptr t in
  snd r = None /\
  transientLookup (fst r) (ID ptr) = None /\
  snd (Get (fst r) ptr)
  = match permanentLookup b (ID ptr) with
    | Some blk => (Some blk, None)
    | None => (None, Some (NoSuchBlockError (ID ptr)))
    end /\
  idsLookup (fst r) {| tlf := t; plaintextHash := GetHash hash fb |} = None /\
  snd (CheckForKnownPtr hash (fst r) t fb) = (zeroBlockPointer, None).
Proof.
  intros Hwf Hfb Hput r.
  assert (Hgoal : snd r = None /\
    transientLookup (fst r) (ID ptr) = None /\
    permanentLookup (fst r) (ID ptr) = permanentLookup b (ID ptr) /\
    idsLookup (fst r) {| tlf := t; plaintextHash := GetHash hash fb |} = None).
  { subst r. unfold wellFormed in Hwf.
    destruct (ids b) as [i|] eqn:Hi, (cleanTransient b) as [c|] eqn:Hc; try done.
    - destruct Hwf as [Hszi Hszc].
      destruct (put_transient_resident b c ptr t (FileBlockOf fb) hp b1 I Hc Hszc Hput)
        as (c1 & h & Hc1 & _ & Hf & _ & Hids & Hp1).
      unfold putRecordHash in Hids. rewrite Hi, Hfb in Hids. simpl in Hids.
      unfold DeleteTransient. rewrite Hc1, (Get_hit _ _ _ Hf). simpl.
      rewrite Hids, Hfb. simpl.
      split; [done|]. split; [apply transientRemove_lookup|].
      match goal with
      | |- context [transientRemove ?s ?k] =>
          pose proof (transientRemove_sameRest s k) as (_ & Hs2 & Hs3)
      end.
      unfold permanentLookup, idsLookup. rewrite Hs2, Hs3. simpl.
      split; [by rewrite Hp1|]. apply Remove_find_eq.
    - rewrite PutWithPrefetch_Transient in Hput by done.
      unfold putRecordHash in Hput. rewrite Hi, Hc in Hput.
      injection Hput as <-.
      unfold DeleteTransient. rewrite Hc. simpl.
      unfold transientLookup, idsLookup. by rewrite Hc, Hi. }
  destruct Hgoal as (He & Ht & Hp & Hi).
  split; [done|]. split; [done|].
  split; [|split; [done|by apply CheckForKnownPtr_miss]].
  rewrite <- Hp. destruct (permanentLookup (fst r) (ID ptr)) as [blk|] eqn:Hl.
  - by apply Get_permanent_result.
  - by apply Get_miss_result.
Qed.

(** ** Capacity *)

Lemma accounted_charged b : accounted b -> charged (permanentBytes b) b.
Proof. by intros [_ ?]. Qed.

Lemma PutWithPrefetch_Permanent b ptr t blk hp :
  cacheable blk ->
  PutWithPrefetch hash b ptr t blk PermanentEntry hp =
    putFinish (withPermanent b (<[ID ptr:=blk]> (cleanPermanent b))) ptr blk
      PermanentEntry hp (bool_decide (is_Some (cleanPermanent b !! ID ptr))).
Proof. by destruct blk. Qed.

(** A Permanent put under a new ID on a cache with a transient store: the
    block is charged after the evictions, whether it fits or not. *)
Lemma put_permanent_new p b c ptr t blk hp :
  cacheable blk -> 0 <= p ->
  cleanTransient b = Some c -> charged p b ->
  cleanPermanent b !! ID ptr = None ->
  let size := getCachedBlockSize blk in
  exists b' l dropped,
    PutWithPrefetch hash b ptr t blk PermanentEntry hp = Returned (b', None) /\
    cleanPermanent b' = <[ID ptr:=blk]> (cleanPermanent b) /\
    ids b' = ids b /\ cleanBytesCapacity b' = cleanBytesCapacity b /\
    cleanTransient b' = Some {| lru.size := lru.size c; lru.items := l |} /\
    lru.items c = l ++ dropped /\
    cleanTotalBytes b' = wrap64 (itemsBytes l + p + size) /\
    (itemsBytes (lru.items c) + p + size < 2 ^ 64 ->
     cleanBytesCapacity b < p + size -> l = []).
Proof.
  intros Hblk Hp Hc Hch Hnew. cbv zeta.
  rewrite PutWithPrefetch_Permanent by done. rewrite Hnew.
  rewrite bool_decide_eq_false_2 by (by intros [? ?]).
  unfold putFinish. simpl.
  set (b1 := withPermanent b (<[ID ptr:=blk]> (cleanPermanent b))).
  assert (Hch1 : charged p b1) by done.
  destruct (makeRoomForSize_spec p b1 c (getCachedBlockSize blk) PermanentEntry
              Hp Hc Hch1)
    as (b' & ok & l & dropped & -> & Hc' & Hitems & (Hs1 & Hs2 & Hs3) & Hok).
  exists b', l, dropped. simpl in *.
  split; [done|]. split; [done|]. split; [done|]. split; [done|].
  split; [done|]. split; [done|].
  destruct ok.
  - destruct Hok as [Hfits Htot]. split; [done|]. intros Hbound Hcap.
    exfalso.
    pose proof (itemsBytes_nonneg l). pose proof (itemsBytes_nonneg dropped).
    pose proof (getCachedBlockSize_range blk).
    rewrite Hitems, itemsBytes_app in Hbound.
    rewrite wrap64_small in Hfits by lia. lia.
  - destruct Hok as (_ & -> & Htot). split; [|done].
    change (itemsBytes (@nil (kbfsblock_ID * iface))) with 0.
    by replace (0 + p + getCachedBlockSize blk) with (p + getCachedBlockSize blk) by lia.
Qed.






(** ** The permanent-only cache *)



(** ** Deleting from the permanent store *)

(** C9 (as amended). [DeletePermanent] of a resident ID returns no error and
    removes the ID from the permanent store; [cleanTotalBytes] decreases by
    the computed size of the removed block when it is at least that size,
    and drops to 0 otherwise; the decrease is exact in every state whose
    accounting is exact, and the accounting stays exact. *)
Theorem C9_DeletePermanent_debits_saturating b id blk :
  permanentLookup b id = Some blk ->
  let r := DeletePermanent b id in
  snd r = None /\
  permanentLookup (fst r) id = None /\
  cleanTotalBytes (fst r)
    = Z.max 0 (cleanTotalBytes b - getCachedBlockSize blk) /\
  (accounted b ->
   cleanTotalBytes (fst r) = cleanTotalBytes b - getCachedBlockSize blk /\
   accounted (fst r)).
Proof.
  unfold permanentLookup. intros Hl. cbv zeta. unfold DeletePermanent. rewrite Hl.
  simpl. unfold subtractBlockBytes. simpl.
  pose proof (getCachedBlockSize_range blk) as Hr.
  split; [done|].
  split. { destruct (_ >=? _); simpl; apply lookup_delete_eq. }
  split. { destruct (_ >=? _) eqn:E; simpl; lia. }
  intros [Hshape Hacc].
  assert (Hge : getCachedBlockSize blk <= cleanTotalBytes b).
  { rewrite Hacc. unfold residentBytes, permanentBytes.
    rewrite (mapBytes_delete _ _ _ Hl).
    pose proof (transientBytes_nonneg b).
    pose proof (mapBytes_nonneg (delete id (cleanPermanent b))). lia. }
  destruct (_ >=? _) eqn:E; [|lia]. simpl. split; [done|].
  split; [done|]. simpl.
  unfold residentBytes, permanentBytes, transientBytes in *. simpl.
  rewrite (mapBytes_delete _ _ _ Hl) in Hacc. lia.
Qed.

(** ** Sequences of operations: the accounting invariant *)

Lemma sizedItems_perm sz l l' : l ≡ₚ l' -> sizedItems sz l -> sizedItems sz l'.
Proof.
  intros Hp [Hnd Hall]. split.
  - by rewrite <- Hp.
  - by rewrite <- Hp.
Qed.

Lemma sizedItems_prefix sz l d : sizedItems sz (l ++ d) -> sizedItems sz l.
Proof.
  intros [Hnd Hall]. rewrite fmap_app in Hnd.
  apply NoDup_app in Hnd as (Hnd & _ & _).
  apply Forall_app in Hall as [Hall _]. by split.
Qed.

Lemma sizedItems_drop sz k l : sizedItems sz l -> sizedItems sz (lru.drop k l).
Proof. intros [Hnd Hall]. split; [by apply drop_NoDup|by apply drop_Forall]. Qed.

Lemma sizedItems_cons sz k v l :
  k ∉ l.*1 -> sizedEntry sz (k, v) -> sizedItems sz l -> sizedItems sz ((k, v) :: l).
Proof.
  intros Hn He [Hnd Hall]. split.
  - simpl. by apply NoDup_cons.
  - by apply Forall_cons.
Qed.

Lemma sizedItems_find sz k l v :
  sizedItems sz l -> lru.find k l = Some v ->
  exists bc, v = IContainer bc /\ getCachedBlockSize (block bc) = sz k.
Proof.
  intros [_ Hall] Hf. apply find_Some in Hf.
  rewrite Forall_forall in Hall. by destruct (Hall _ Hf) as (bc & ? & ?); exists bc.
Qed.

Lemma sizedItems_shape sz l :
  sizedItems sz l ->
  NoDup l.*1 /\ Forall (fun kv => exists bc, snd kv = IContainer bc) l.
Proof.
  intros [Hnd Hall]. split; [done|].
  eapply Forall_impl; [exact Hall|]. intros kv (bc & ? & _). by exists bc.
Qed.

Lemma traceInv_accounted sz B b : traceInv sz B b -> accounted b /\ wellFormed b.
Proof.
  intros (Hwf & (c & Hc & Hitems) & _ & Hacc & _). split; [|done].
  split; [|done]. unfold transientShape. rewrite Hc. by eapply sizedItems_shape.
Qed.

(** Changes of the index and of the capacity do not touch the invariant. *)
Lemma traceInv_ext sz B b b' :
  traceInv sz B b -> wellFormed b' ->
  cleanTransient b' = cleanTransient b ->
  cleanPermanent b' = cleanPermanent b ->
  cleanTotalBytes b' = cleanTotalBytes b ->
  traceInv sz B b'.
Proof.
  intros (Hwf & Ht & Hp & Hacc & Hb) Hwf' Ht' Hp' Htot'.
  unfold traceInv, residentBytes, transientBytes, permanentBytes in *.
  rewrite Ht', Hp', Htot'. done.
Qed.

Lemma wellFormed_withIds b i i' :
  wellFormed b -> ids b = Some i -> lru.size i' = lru.size i ->
  wellFormed (withIds b i').
Proof.
  unfold wellFormed. simpl. intros Hwf Hi Hsz. rewrite Hi in Hwf.
  destruct (cleanTransient b); [|done]. by rewrite Hsz.
Qed.

Lemma wellFormed_transient b b' c c' :
  wellFormed b -> ids b' = ids b ->
  cleanTransient b = Some c -> cleanTransient b' = Some c' ->
  lru.size c' = lru.size c -> wellFormed b'.
Proof.
  unfold wellFormed. intros Hwf Hi Hc Hc' Hsz. rewrite Hi, Hc'. rewrite Hc in Hwf.
  destruct (ids b); [|done]. by rewrite Hsz.
Qed.

Lemma traceInv_intro sz B b i c :
  ids b = Some i -> 0 < lru.size i ->
  cleanTransient b = Some c -> 0 < lru.size c ->
  sizedItems sz (lru.items c) ->
  map_Forall (fun id blk => getCachedBlockSize blk = sz id) (cleanPermanent b) ->
  cleanTotalBytes b = itemsBytes (lru.items c) + mapBytes (cleanPermanent b) ->
  itemsBytes (lru.items c) + mapBytes (cleanPermanent b) <= B ->
  traceInv sz B b.
Proof.
  intros Hi Hszi Hc Hszc Hitems Hperm Htot Hb.
  unfold traceInv, wellFormed, residentBytes, transientBytes, permanentBytes.
  rewrite Hi, Hc. split; [done|]. split; [by exists c|]. done.
Qed.

Lemma traceInv_elim sz B b :
  traceInv sz B b ->
  exists i c,
    ids b = Some i /\ 0 < lru.size i /\
    cleanTransient b = Some c /\ 0 < lru.size c /\
    sizedItems sz (lru.items c) /\
    map_Forall (fun id blk => getCachedBlockSize blk = sz id) (cleanPermanent b) /\
    cleanTotalBytes b = itemsBytes (lru.items c) + mapBytes (cleanPermanent b) /\
    itemsBytes (lru.items c) + mapBytes (cleanPermanent b) <= B.
Proof.
  intros (Hwf & (c & Hc & Hitems) & Hperm & Htot & Hb).
  unfold wellFormed, residentBytes, transientBytes, permanentBytes in *.
  rewrite Hc in *. destruct (ids b) as [i|]; [|done]. destruct Hwf.
  by exists i, c.
Qed.

Lemma putRecordHash_ids b i ptr t blk :
  ids b = Some i ->
  exists i', ids (fst (putRecordHash hash b ptr t blk)) = Some i' /\
             lru.size i' = lru.size i.
Proof.
  intros Hi. unfold putRecordHash. rewrite Hi.
  destruct blk as [d|f|cb|n]; try by exists i.
  destruct (IsInd (fileCommon f)); simpl; [by exists i|].
  eexists. split; [reflexivity|]. apply Add_size.
Qed.

Lemma step_SetCleanBytesCapacity sz B b capacity :
  traceInv sz B b ->
  exists b', step hash b (OpSetCleanBytesCapacity capacity) = Returned b' /\
             traceInv sz B b'.
Proof.
  intros Hinv. eexists. split; [reflexivity|].
  eapply traceInv_ext; [exact Hinv| |done..]. by destruct Hinv.
Qed.

Lemma step_CheckForKnownPtr sz B b t fb :
  traceInv sz B b ->
  exists b', step hash b (OpCheckForKnownPtr t fb) = Returned b' /\
             traceInv sz B b'.
Proof.
  intros Hinv. eexists. split; [reflexivity|].
  destruct (traceInv_elim _ _ _ Hinv) as (i & c & Hi & Hszi & _).
  assert (Hwf : wellFormed b) by by destruct Hinv.
  unfold CheckForKnownPtr. destruct (IsInd (fileCommon fb)); [done|].
  rewrite Hi.
  pose proof (Get_size i {| tlf := t; plaintextHash := GetHash hash fb |}) as Hsz.
  destruct (lru.Get i _) as [i' [[bc|q]|]]; simpl in *;
    (eapply traceInv_ext; [exact Hinv| |done..]);
    by eapply wellFormed_withIds.
Qed.

Lemma step_DeleteKnownPtr sz B b t fb :
  traceInv sz B b ->
  exists b', step hash b (OpDeleteKnownPtr t fb) = Returned b' /\
             traceInv sz B b'.
Proof.
  intros Hinv. eexists. split; [reflexivity|].
  destruct (traceInv_elim _ _ _ Hinv) as (i & c & Hi & Hszi & _).
  assert (Hwf : wellFormed b) by by destruct Hinv.
  unfold DeleteKnownPtr. destruct (IsInd (fileCommon fb)); [done|].
  rewrite Hi. simpl.
  eapply traceInv_ext; [exact Hinv| |done..].
  eapply wellFormed_withIds; [done..|]. apply Remove_size.
Qed.

Lemma GetWithPrefetch_state b c ptr :
  cleanTransient b = Some c ->
  fst (GetWithPrefetch b ptr) = withTransient b (fst (lru.Get c (ID ptr))).
Proof.
  intros Hc. unfold GetWithPrefetch. rewrite Hc.
  destruct (lru.Get c (ID ptr)) as [c' [[bc|q]|]]; simpl; try done.
  by destruct (cleanPermanent b !! ID ptr).
Qed.

Lemma step_Get sz B b ptr :
  traceInv sz B b ->
  exists b', step hash b (OpGet ptr) = Returned b' /\ traceInv sz B b'.
Proof.
  intros Hinv. eexists. split; [reflexivity|].
  destruct (traceInv_elim _ _ _ Hinv)
    as (i & c & Hi & Hszi & Hc & Hszc & Hitems & Hperm & Htot & Hb).
  assert (Hst : fst (Get b ptr) = withTransient b (fst (lru.Get c (ID ptr)))).
  { rewrite <- (GetWithPrefetch_state b c ptr Hc). unfold Get.
    by destruct (GetWithPrefetch b ptr) as [b' [[[blk hp] lt] err]]. }
  rewrite Hst.
  pose proof (Get_perm c (ID ptr) (proj1 Hitems)) as Hp.
  eapply (traceInv_intro sz B _ i); simpl; [done|done|reflexivity| | | | |].
  - by rewrite Get_size.
  - eapply sizedItems_perm; [symmetry; exact Hp|done].
  - done.
  - by rewrite (itemsBytes_perm _ _ Hp).
  - by rewrite (itemsBytes_perm _ _ Hp).
Qed.

Lemma traceInv_mono sz B B' b : B <= B' -> traceInv sz B b -> traceInv sz B' b.
Proof. intros Hle (?&?&?&?&?). repeat split; try done. lia. Qed.

Lemma step_DeletePermanent sz B b id :
  traceInv sz B b ->
  exists b', step hash b (OpDeletePermanent id) = Returned b' /\ traceInv sz B b'.
Proof.
  intros Hinv. eexists. split; [reflexivity|].
  destruct (traceInv_elim _ _ _ Hinv)
    as (i & c & Hi & Hszi & Hc & Hszc & Hitems & Hperm & Htot & Hb).
  unfold DeletePermanent.
  destruct (cleanPermanent b !! id) as [blk|] eqn:Hl; [|done]. simpl.
  pose proof (mapBytes_delete _ _ _ Hl) as Hdel.
  pose proof (mapBytes_nonneg (delete id (cleanPermanent b))).
  pose proof (itemsBytes_nonneg (lru.items c)).
  pose proof (getCachedBlockSize_range blk).
  unfold subtractBlockBytes. simpl.
  destruct (_ >=? _) eqn:E; [|lia].
  eapply (traceInv_intro sz B _ i c); simpl; try done.
  - by apply map_Forall_delete.
  - lia.
  - lia.
Qed.

Lemma transientRemove_hit s c k v :
  cleanTransient s = Some c -> lru.find k (lru.items c) = Some v ->
  entryBytes v <= cleanTotalBytes s ->
  cleanTransient (transientRemove s k)
    = Some {| lru.size := lru.size c; lru.items := lru.drop k (lru.items c) |} /\
  cleanTotalBytes (transientRemove s k) = cleanTotalBytes s - entryBytes v /\
  sameRest s (transientRemove s k).
Proof.
  intros Hc Hf Hle. unfold transientRemove, lru.Remove. rewrite Hc, Hf.
  split; [apply evicted_transient|].
  split; [by apply evicted_Some_total|apply evicted_sameRest].
Qed.

Lemma step_DeleteTransient sz B b ptr t :
  traceInv sz B b ->
  exists b', step hash b (OpDeleteTransient ptr t) = Returned b' /\
             traceInv sz B b'.
Proof.
  intros Hinv. eexists. split; [reflexivity|].
  destruct (traceInv_elim _ _ _ Hinv)
    as (i & c & Hi & Hszi & Hc & Hszc & Hitems & Hperm & Htot & Hb).
  unfold DeleteTransient. rewrite Hc.
  destruct (lru.find (ID ptr) (lru.items c)) as [v|] eqn:Hf.
  2:{ rewrite (Get_miss _ _ Hf). simpl. by rewrite withTransient_same. }
  rewrite (Get_hit _ _ _ Hf).
  destruct (sizedItems_find _ _ _ _ Hitems Hf) as (bc & -> & Hsize).
  pose proof (drop_perm _ _ _ Hf (proj1 Hitems)) as Hperm'.
  pose proof (itemsBytes_perm _ _ Hperm') as Hbytes.
  rewrite itemsBytes_cons in Hbytes. simpl in Hbytes.
  pose proof (mapBytes_nonneg (cleanPermanent b)).
  pose proof (itemsBytes_nonneg (lru.drop (ID ptr) (lru.items c))).
  set (c' := {| lru.size := lru.size c;
                lru.items := (ID ptr, IContainer bc) :: lru.drop (ID ptr) (lru.items c) |}).
  assert (Hfinal : forall s i',
    ids s = Some i' -> lru.size i' = lru.size i ->
    cleanTransient s = Some c' ->
    cleanPermanent s = cleanPermanent b ->
    cleanTotalBytes s = cleanTotalBytes b ->
    traceInv sz B (transientRemove s (ID ptr))).
  { intros s i' Hi' Hszi' Hc' Hp' Ht'.
    destruct (transientRemove_hit s c' (ID ptr) (IContainer bc) Hc')
      as (Hc2 & Htot2 & _ & Hs2 & Hs3).
    { simpl. by destruct (decide _). }
    { simpl. lia. }
    simpl in Hc2. destruct (decide (ID ptr = ID ptr)); [|done].
    rewrite drop_drop in Hc2.
    eapply (traceInv_intro sz B _ i'); try done; try lia.
    - congruence.
    - simpl. by apply sizedItems_drop.
    - by rewrite Hs3, Hp'.
    - rewrite Htot2, Hs3, Hp', Ht'. simpl. lia.
    - rewrite Hs3, Hp'. simpl. pose proof (getCachedBlockSize_range (block bc)). lia. }
  simpl. rewrite Hi.
  destruct (block bc) as [d|f|cb|n]; try (by eapply (Hfinal _ i)).
  destruct (IsInd (fileCommon f)); simpl; [by eapply (Hfinal _ i)|].
  eapply Hfinal; simpl; try done. apply Remove_size.
Qed.

Lemma step_Put sz B b ptr t blk lifetime hp :
  traceInv sz B b ->
  getCachedBlockSize blk = sz (ID ptr) ->
  B + getCachedBlockSize blk < 2 ^ 64 ->
  exists b',
    step hash b (OpPut ptr t blk lifetime hp) = Returned b' /\
    traceInv sz (B + getCachedBlockSize blk) b'.
Proof.
  intros Hinv Hsized Hbound.
  pose proof (getCachedBlockSize_range blk) as Hrange.
  assert (Hsame : traceInv sz (B + getCachedBlockSize blk) b).
  { eapply traceInv_mono; [|exact Hinv]. lia. }
  assert (Hcases : cacheable blk \/ ~ cacheable blk)
    by (destruct blk; simpl; tauto).
  destruct Hcases as [Hblk|Hblk].
  2:{ exists b. split; [|done]. by destruct blk; simpl in Hblk; try tauto. }
  destruct (traceInv_elim _ _ _ Hinv)
    as (i & c & Hi & Hszi & Hc & Hszc & Hitems & Hperm & Htot & Hb).
  pose proof (mapBytes_nonneg (cleanPermanent b)) as Hpnn.
  pose proof (itemsBytes_nonneg (lru.items c)) as Htnn.
  destruct lifetime.
  - exists b. split; [|done]. by destruct blk; simpl in Hblk; try tauto.
  - (* Transient *)
    assert (Hshape : transientShape b).
    { unfold transientShape. rewrite Hc. by eapply sizedItems_shape. }
    destruct (put_transient_spec (mapBytes (cleanPermanent b)) b c ptr t blk hp
                Hblk Hpnn Hc Hszc Hshape)
      as (b' & e & Hput & Hids & Hp' & _ & Hcases).
    { unfold charged, transientBytes. by rewrite Hc. }
    exists b'. simpl. rewrite Hput. split; [done|].
    destruct (putRecordHash_ids b i ptr t blk Hi) as (i' & Hi' & Hszi').
    rewrite Hi' in Hids.
    destruct Hcases as [(old & h0 & Hf & _ & Hc' & Htot')
                       |[(Hf & _ & l & dropped & Hl & Hc' & Htot')
                        |(Hf & _ & Hc' & Htot' & _)]].
    + pose proof (drop_perm _ _ _ Hf (proj1 Hitems)) as Hpm.
      pose proof (itemsBytes_perm _ _ Hpm) as Hbytes.
      rewrite itemsBytes_cons in Hbytes. simpl in Hbytes.
      destruct (sizedItems_find _ _ _ _ Hitems Hf) as (bc & [= <-] & Hold).
      simpl in Hold.
      eapply (traceInv_intro sz _ b' i'); try done; try lia; simpl.
      * apply sizedItems_cons; [apply drop_key_absent| |by apply sizedItems_drop].
        by eexists.
      * by rewrite Hp'.
      * rewrite Htot', Hp', itemsBytes_cons. simpl. lia.
      * rewrite Hp', itemsBytes_cons. simpl. lia.
    + rewrite Hl in Hitems, Htnn, Hb, Htot.
      rewrite itemsBytes_app in Htnn, Hb, Htot.
      pose proof (itemsBytes_nonneg l). pose proof (itemsBytes_nonneg dropped).
      eapply (traceInv_intro sz _ b' i'); try done; try lia; simpl.
      * apply sizedItems_cons; [| by eexists |by eapply sizedItems_prefix].
        apply find_None. rewrite Hl in Hf. by eapply find_app_None.
      * by rewrite Hp'.
      * rewrite Hp', itemsBytes_cons. simpl. rewrite Htot'; [lia|].
        rewrite Hl, itemsBytes_app. lia.
      * rewrite Hp', itemsBytes_cons. simpl. lia.
    + eapply (traceInv_intro sz _ b' i'); try done; try lia; simpl.
      * split; [apply NoDup_nil_2|apply Forall_nil_2].
      * by rewrite Hp'.
      * rewrite Hp', Htot'. change (itemsBytes (@nil (kbfsblock_ID * iface))) with 0. lia.
      * rewrite Hp'. change (itemsBytes (@nil (kbfsblock_ID * iface))) with 0. lia.
  - (* Permanent *)
    destruct (cleanPermanent b !! ID ptr) as [old|] eqn:Hl.
    + exists (withPermanent b (<[ID ptr:=blk]> (cleanPermanent b))).
      simpl. rewrite PutWithPrefetch_Permanent by done.
      rewrite Hl. rewrite bool_decide_eq_true_2 by by eexists.
      unfold putFinish. simpl. split; [done|].
      pose proof (mapBytes_insert_old _ _ blk _ Hl) as Hins.
      pose proof (Hperm _ _ Hl) as Hold. simpl in Hold.
      eapply (traceInv_intro sz _ _ i c); try done; try lia; simpl.
      * by apply map_Forall_insert_2.
      * lia.
      * lia.
    + destruct (put_permanent_new (mapBytes (cleanPermanent b)) b c ptr t blk hp
                  Hblk Hpnn Hc)
        as (b' & l & dropped & Hput & Hp' & Hids & _ & Hc' & Hitems' & Htot' & _);
        [by unfold charged, transientBytes; rewrite Hc|done|].
      exists b'. simpl. rewrite Hput. split; [done|].
      rewrite Hitems' in Hitems, Htnn, Hb, Htot.
      rewrite itemsBytes_app in Htnn, Hb, Htot.
      pose proof (itemsBytes_nonneg l). pose proof (itemsBytes_nonneg dropped).
      rewrite wrap64_small in Htot' by lia.
      pose proof (mapBytes_insert_new _ _ blk Hl) as Hins.
      eapply (traceInv_intro sz _ b' i); try done; try lia; simpl.
      * congruence.
      * by eapply sizedItems_prefix.
      * rewrite Hp'. by apply map_Forall_insert_2.
      * rewrite Hp'. lia.
      * rewrite Hp'. lia.
  - exists b. split; [|done]. by destruct blk; simpl in Hblk; try tauto.
Qed.

Lemma opsBytes_nonneg os : 0 <= opsBytes os.
Proof.
  induction os as [|o os IH]; [done|].
  change (opsBytes (o :: os)) with (opBytes o + opsBytes os).
  assert (0 <= opBytes o); [|lia].
  destruct o as [ptr t blk lt hp| | | | | |]; simpl; try lia.
  pose proof (getCachedBlockSize_range blk). lia.
Qed.

Lemma step_traceInv sz B b o :
  traceInv sz B b -> opSized sz o -> B + opBytes o < 2 ^ 64 ->
  exists b', step hash b o = Returned b' /\ traceInv sz (B + opBytes o) b'.
Proof.
  intros Hinv Hsized Hbound.
  destruct o as [ptr t blk lt hp|id|ptr t|t fb|ptr|t fb|capacity].
  - by apply step_Put.
  - replace (B + opBytes (OpDeletePermanent id)) with B by (simpl; lia).
    by apply step_DeletePermanent.
  - replace (B + opBytes (OpDeleteTransient ptr t)) with B by (simpl; lia).
    by apply step_DeleteTransient.
  - replace (B + opBytes (OpDeleteKnownPtr t fb)) with B by (simpl; lia).
    by apply step_DeleteKnownPtr.
  - replace (B + opBytes (OpGet ptr)) with B by (simpl; lia).
    by apply step_Get.
  - replace (B + opBytes (OpCheckForKnownPtr t fb)) with B by (simpl; lia).
    by apply step_CheckForKnownPtr.
  - replace (B + opBytes (OpSetCleanBytesCapacity capacity)) with B by (simpl; lia).
    by apply step_SetCleanBytesCapacity.
Qed.

Lemma run_traceInv sz os : forall B b,
  traceInv sz B b -> Forall (opSized sz) os -> B + opsBytes os < 2 ^ 64 ->
  exists b', run hash b os = Returned b' /\ traceInv sz (B + opsBytes os) b'.
Proof.
  induction os as [|o os IH]; intros B b Hinv Hall Hbound.
  - exists b. split; [done|]. eapply traceInv_mono; [|exact Hinv]. simpl. lia.
  - apply Forall_cons in Hall as [Ho Hall].
    change (opsBytes (o :: os)) with (opBytes o + opsBytes os) in *.
    pose proof (opsBytes_nonneg os).
    destruct (step_traceInv sz B b o Hinv Ho) as (b1 & Hstep & Hinv1); [lia|].
    destruct (IH _ b1 Hinv1 Hall) as (b' & Hrun & Hinv'); [lia|].
    exists b'. simpl. rewrite Hstep. split; [done|].
    by replace (B + (opBytes o + opsBytes os)) with (B + opBytes o + opsBytes os) by lia.
Qed.

Lemma NewBlockCacheStandard_traceInv sz transientCapacity cleanBytesCapacity :
  0 < transientCapacity ->
  exists b0,
    NewBlockCacheStandard transientCapacity cleanBytesCapacity = Some b0 /\
    traceInv sz 0 b0.
Proof.
  intros Hcap. unfold NewBlockCacheStandard, lru.New.
  replace (transientCapacity >? 0) with true by (symmetry; apply Z.gtb_lt; lia).
  replace (transientCapacity <=? 0) with false by (symmetry; apply Z.leb_gt; lia).
  eexists. split; [reflexivity|].
  eapply traceInv_intro; simpl; try reflexivity; try done.
  split; [apply NoDup_nil_2|apply Forall_nil_2].
Qed.

(** C1 (as amended). On a cache constructed with a positive
    [transientCapacity], every sequence of operations (puts, deletes, gets,
    index lookups, capacity changes) in which the blocks put under one ID
    all have the same computed size, and which offers fewer than 2^64 bytes
    in total, runs to the end and leaves [cleanTotalBytes] equal to the sum
    of the computed sizes of the blocks resident in the transient and in
    the permanent store. *)
Theorem C1_cleanTotalBytes_is_resident_bytes
  (transientCapacity cleanBytesCapacity : Z) (sz : kbfsblock_ID -> Z)
  (os : list op) :
  0 < transientCapacity ->
  Forall (opSized sz) os ->
  opsBytes os < 2 ^ 64 ->
  exists b0 b,
    NewBlockCacheStandard transientCapacity cleanBytesCapacity = Some b0 /\
    run hash b0 os = Returned b /\
    cleanTotalBytes b = transientBytes b + permanentBytes b /\
    accounted b /\ wellFormed b.
Proof.
  intros Hcap Hall Hbound.
  destruct (NewBlockCacheStandard_traceInv sz transientCapacity cleanBytesCapacity Hcap)
    as (b0 & Hnew & Hinv0).
  destruct (run_traceInv sz os 0 b0 Hinv0 Hall) as (b & Hrun & Hinv); [lia|].
  exists b0, b. split; [done|]. split; [done|].
  destruct (traceInv_accounted _ _ _ Hinv) as [Hacc Hwf].
  split; [apply Hacc|done].
Qed.

(** ** Sequences of operations: the dedup index *)

Lemma RemoveOldest_subset {K : Type} (c : lru.Cache K) x :
  x ∈ lru.items (fst (lru.RemoveOldest c)) -> x ∈ lru.items c.
Proof.
  destruct (RemoveOldest_spec c) as [[_ ->]|(l & ev & Hl & ->)]; [done|].
  simpl. rewrite Hl. intros Hin. apply elem_of_app. by left.
Qed.

Lemma Add_subset {K : Type} `{EqDecision K} (c : lru.Cache K) k v x :
  x ∈ lru.items (fst (lru.Add c k v)) -> x = (k, v) \/ x ∈ lru.items c.
Proof.
  unfold lru.Add. destruct (lru.find k (lru.items c)) eqn:Hf; simpl.
  - intros [->|Hin]%elem_of_cons; [by left|]. right. by eapply drop_subset.
  - destruct (_ >? _).
    + intros Hin%RemoveOldest_subset. simpl in Hin.
      apply elem_of_cons in Hin as [->|Hin]; [by left|by right].
    + simpl. intros [->|Hin]%elem_of_cons; [by left|by right].
Qed.

Lemma Get_subset {K : Type} `{EqDecision K} (c : lru.Cache K) k x :
  x ∈ lru.items (fst (lru.Get c k)) -> x ∈ lru.items c.
Proof.
  unfold lru.Get. destruct (lru.find k (lru.items c)) eqn:Hf; simpl; [|done].
  intros [->|Hin]%elem_of_cons; [by apply find_Some|]. by eapply drop_subset.
Qed.

Lemma Remove_subset {K : Type} `{EqDecision K} (c : lru.Cache K) k x :
  x ∈ lru.items (fst (lru.Remove c k)) -> x ∈ lru.items c.
Proof.
  unfold lru.Remove. destruct (lru.find k (lru.items c)) eqn:Hf; simpl; [|done].
  apply drop_subset.
Qed.

Lemma indexEntry_ext b b' key v :
  ids b' = ids b -> indexEntry b' key v -> indexEntry b key v.
Proof. unfold indexEntry. by intros ->. Qed.

Lemma putRecordHash_indexEntry b ptr t blk hp key v :
  indexEntry (fst (putRecordHash hash b ptr t blk)) key v ->
  indexEntry b key v \/ recordedBy hash key v (OpPut ptr t blk TransientEntry hp).
Proof.
  unfold indexEntry, putRecordHash.
  destruct (ids b) as [i|] eqn:Hi; [|simpl; by rewrite Hi].
  destruct blk as [d|f|cb|n]; try (simpl; rewrite Hi; by left).
  destruct (IsInd (fileCommon f)) eqn:Hind; simpl; [rewrite Hi; by left|].
  intros [[= -> ->]|Hin]%Add_subset; [|by left].
  right. by rewrite Hind.
Qed.

Lemma step_indexEntry b o b' key v :
  step hash b o = Returned b' -> indexEntry b' key v ->
  indexEntry b key v \/ recordedBy hash key v o.
Proof.
  destruct o as [ptr t blk lt hp|id|ptr t|t fb|ptr|t fb|capacity]; simpl.
  - destruct (PutWithPrefetch hash b ptr t blk lt hp) as [[b1 e]| |] eqn:Hput;
      try done.
    intros [= <-] Hin.
    assert (Hcases : (lt = TransientEntry /\ cacheable blk) \/
                     (lt <> TransientEntry \/ ~ cacheable blk)).
    { destruct lt; destruct blk; simpl; try tauto; right; left; done. }
    destruct Hcases as [[-> Hblk]|Hother].
    + apply (putRecordHash_indexEntry b ptr t blk hp).
      eapply indexEntry_ext; [|exact Hin].
      by eapply PutWithPrefetch_ids_transient.
    + left. eapply indexEntry_ext; [|exact Hin].
      by eapply PutWithPrefetch_ids_other.
  - intros [= <-] Hin. left. unfold DeletePermanent in Hin.
    destruct (cleanPermanent b !! id); [|done].
    revert Hin. unfold subtractBlockBytes. simpl. by destruct (_ >=? _).
  - intros [= <-] Hin. left. unfold DeleteTransient in Hin.
    destruct (cleanTransient b) as [c|]; [|done].
    destruct (lru.Get c (ID ptr)) as [c' [[bc|q]|]]; simpl in Hin; try done.
    match type of Hin with
    | indexEntry (transientRemove ?s ?k) _ _ =>
        pose proof (transientRemove_sameRest s k) as (_ & Hs & _);
        apply (indexEntry_ext s) in Hin; [|exact Hs]
    end.
    clear Hs. simpl in Hin. destruct (ids b) as [i|] eqn:Hi; [|exact Hin].
    destruct (block bc) as [d|f|cb|n]; try exact Hin.
    destruct (IsInd (fileCommon f)); simpl in Hin; [exact Hin|].
    unfold indexEntry in *. simpl in Hin. rewrite Hi. by eapply Remove_subset.
  - intros [= <-] Hin. left. unfold DeleteKnownPtr in Hin.
    destruct (IsInd (fileCommon fb)); [exact Hin|].
    unfold indexEntry in *. destruct (ids b) as [i|] eqn:Hi; simpl in Hin;
      rewrite ?Hi in Hin; [|done].
    by eapply Remove_subset.
  - intros [= <-] Hin. left. eapply indexEntry_ext; [|exact Hin].
    unfold Get, GetWithPrefetch.
    destruct (cleanTransient b) as [c|].
    + destruct (lru.Get c (ID ptr)) as [c' [[bc|q]|]]; simpl; try done.
      by destruct (cleanPermanent b !! ID ptr).
    + by destruct (cleanPermanent b !! ID ptr).
  - intros [= <-] Hin. left. unfold CheckForKnownPtr in Hin.
    destruct (IsInd (fileCommon fb)); [exact Hin|].
    unfold indexEntry in *. destruct (ids b) as [i|] eqn:Hi; simpl in Hin;
      rewrite ?Hi in Hin; [|done].
    pose proof (Get_subset i {| tlf := t; plaintextHash := GetHash hash fb |} (key, v))
      as Hsub.
    destruct (lru.Get i _) as [i' [[bc|q]|]]; simpl in *; by apply Hsub.
  - intros [= <-] Hin. by left.
Qed.

Lemma run_indexEntry os : forall b b' key v,
  run hash b os = Returned b' -> indexEntry b' key v ->
  indexEntry b key v \/ exists o, o ∈ os /\ recordedBy hash key v o.
Proof.
  induction os as [|o os IH]; intros b b' key v Hrun Hin; simpl in Hrun.
  - injection Hrun as <-. by left.
  - destruct (step hash b o) as [b1| |] eqn:Hstep; try done.
    destruct (IH _ _ _ _ Hrun Hin) as [Hin1|(o' & Ho' & Hrec)].
    + destruct (step_indexEntry _ _ _ _ _ Hstep Hin1) as [?|Hrec]; [by left|].
      right. exists o. split; [apply elem_of_cons; by left|done].
    + right. exists o'. split; [apply elem_of_cons; by right|done].
Qed.

(** C7 (as amended). In every state reached from a new cache by a sequence
    of operations, each entry of the dedup index was written by a Transient
    put of a direct file block in that sequence, for that folder and
    plaintext and at that pointer with its RefNonce zeroed, whether or not
    that put made the block resident. *)
Theorem C7_index_entries_come_from_transient_puts
  (transientCapacity cleanBytesCapacity : Z) (os : list op)
  (b0 b : BlockCacheStandard) (key : idCacheKey) (v : iface) :
  NewBlockCacheStandard transientCapacity cleanBytesCapacity = Some b0 ->
  run hash b0 os = Returned b ->
  indexEntry b key v ->
  exists ptr t fb hp,
    OpPut ptr t (FileBlockOf fb) TransientEntry hp ∈ os /\
    IsInd (fileCommon fb) = false /\
    key = {| tlf := t; plaintextHash := GetHash hash fb |} /\
    v = IPointer (zeroRefNonce ptr).
Proof.
  intros Hnew Hrun Hin.
  destruct (run_indexEntry os b0 b key v Hrun Hin) as [Hin0|(o & Ho & Hrec)].
  - exfalso. unfold NewBlockCacheStandard, lru.New in Hnew.
    destruct (transientCapacity >? 0); [destruct (transientCapacity <=? 0)|];
      try done; injection Hnew as <-; unfold indexEntry in Hin0; simpl in Hin0;
      [by apply elem_of_nil in Hin0|done].
  - destruct o as [ptr t blk lt hp| | | | | |]; try done.
    destruct blk as [d|fb|cb|n]; try done. destruct lt; try done.
    destruct Hrec as (Hind & -> & ->). by exists ptr, t, fb, hp.
Qed.

End Properties.

(** * Reachable states

    Every operation keeps the two LRUs as the constructor made them and the
    transient store well shaped, whatever the sizes of the blocks. *)

Lemma keeps_refl b : keeps b b.
Proof.
  unfold keeps. destruct (ids b), (cleanTransient b); intuition.
Qed.

Lemma keeps_trans b1 b2 b3 : keeps b1 b2 -> keeps b2 b3 -> keeps b1 b3.
Proof.
  unfold keeps. intros (Hi & Ht & Hn) (Hi' & Ht' & Hn'). split; [|split].
  - destruct (ids b1), (ids b2), (ids b3); try done. congruence.
  - destruct (cleanTransient b1), (cleanTransient b2), (cleanTransient b3);
      try done.
    destruct Ht as [? ?], Ht' as [? ?]. split; [congruence|auto].
  - auto.
Qed.

Lemma keeps_same b b' :
  ids b' = ids b -> cleanTransient b' = cleanTransient b ->
  (0 <= cleanTotalBytes b -> 0 <= cleanTotalBytes b') ->
  keeps b b'.
Proof.
  unfold keeps. intros -> -> Hn.
  destruct (ids b), (cleanTransient b); intuition.
Qed.

Lemma keeps_withIds b i i' :
  ids b = Some i -> lru.size i' = lru.size i -> keeps b (withIds b i').
Proof.
  unfold keeps. simpl. intros -> Hsz. split; [done|].
  destruct (cleanTransient b); intuition.
Qed.

Lemma keeps_withTransient b c c' :
  cleanTransient b = Some c -> lru.size c' = lru.size c ->
  (shapedItems (lru.items c) -> shapedItems (lru.items c')) ->
  keeps b (withTransient b c').
Proof.
  unfold keeps. simpl. intros -> Hsz Hsh. split; [by destruct (ids b)|done].
Qed.

Lemma subtractBlockBytes_nonneg b blk :
  0 <= cleanTotalBytes b -> 0 <= cleanTotalBytes (subtractBlockBytes b blk).
Proof.
  intros Hn. unfold subtractBlockBytes. destruct (_ >=? _) eqn:E; simpl; lia.
Qed.

Lemma evicted_nonneg b ev :
  0 <= cleanTotalBytes b -> 0 <= cleanTotalBytes (evicted b ev).
Proof.
  destruct ev as [[k [bc|q]]|]; simpl; try done. apply subtractBlockBytes_nonneg.
Qed.

Lemma wrap64_nonneg z : 0 <= wrap64 z.
Proof. unfold wrap64. apply Z.mod_pos_bound. lia. Qed.

Lemma keeps_evicted b c ev : keeps (withTransient b c) (evicted (withTransient b c) ev).
Proof.
  apply keeps_same; [|by rewrite evicted_transient|apply evicted_nonneg].
  by destruct (evicted_sameRest b c ev) as (_ & ? & _).
Qed.

Lemma shapedItems_perm l l' : l ≡ₚ l' -> shapedItems l -> shapedItems l'.
Proof. intros Hp [Hnd Hall]. split; by rewrite <- Hp. Qed.

Lemma shapedItems_prefix l d : shapedItems (l ++ d) -> shapedItems l.
Proof.
  intros [Hnd Hall]. rewrite fmap_app in Hnd.
  apply NoDup_app in Hnd as (Hnd & _ & _).
  apply Forall_app in Hall as [Hall _]. by split.
Qed.

Lemma shapedItems_replace k bc l :
  shapedItems l -> shapedItems ((k, IContainer bc) :: lru.drop k l).
Proof.
  intros [Hnd Hall]. split.
  - simpl. apply NoDup_cons. split; [apply drop_key_absent|by apply drop_NoDup].
  - apply Forall_cons. split; [by eexists|by apply drop_Forall].
Qed.

Lemma Get_shaped (c : lru.Cache kbfsblock_ID) k :
  shapedItems (lru.items c) -> shapedItems (lru.items (fst (lru.Get c k))).
Proof.
  intros Hs. eapply shapedItems_perm; [|exact Hs].
  symmetry. apply Get_perm, Hs.
Qed.

Lemma RemoveOldest_shaped (c : lru.Cache kbfsblock_ID) :
  shapedItems (lru.items c) -> shapedItems (lru.items (fst (lru.RemoveOldest c))).
Proof.
  destruct (RemoveOldest_spec c) as [[_ ->]|(l & ev & Hl & ->)]; [done|].
  simpl. rewrite Hl. apply shapedItems_prefix.
Qed.

Lemma RemoveOldest_size {K : Type} (c : lru.Cache K) :
  lru.size (fst (lru.RemoveOldest c)) = lru.size c.
Proof. by destruct (RemoveOldest_spec c) as [[_ ->]|(l & ev & Hl & ->)]. Qed.

Lemma Add_shaped (c : lru.Cache kbfsblock_ID) k bc :
  shapedItems (lru.items c) ->
  shapedItems (lru.items (fst (lru.Add c k (IContainer bc)))).
Proof.
  intros Hs. unfold lru.Add.
  destruct (lru.find k (lru.items c)) eqn:Hf; simpl.
  - by apply shapedItems_replace.
  - assert (Hnew : shapedItems ((k, IContainer bc) :: lru.items c)).
    { rewrite <- (drop_absent k (lru.items c)) at 1 by by apply find_None.
      by apply shapedItems_replace. }
    destruct (_ >? _); [|done]. by apply RemoveOldest_shaped.
Qed.

Lemma Remove_shaped (c : lru.Cache kbfsblock_ID) k :
  shapedItems (lru.items c) -> shapedItems (lru.items (fst (lru.Remove c k))).
Proof.
  intros [Hnd Hall]. unfold lru.Remove.
  destruct (lru.find k (lru.items c)); [|done]. simpl.
  split; [by apply drop_NoDup|by apply drop_Forall].
Qed.

Lemma keeps_transientRemoveOldest b : keeps b (transientRemoveOldest b).
Proof.
  unfold transientRemoveOldest. destruct (cleanTransient b) as [c|] eqn:Hc;
    [|apply keeps_refl].
  pose proof (RemoveOldest_shaped c) as Hsh. pose proof (RemoveOldest_size c) as Hsz.
  destruct (lru.RemoveOldest c) as [c' ev]. simpl in *.
  eapply keeps_trans; [by apply (keeps_withTransient b c c')|apply keeps_evicted].
Qed.

Lemma keeps_transientAdd b k bc : keeps b (transientAdd b k (IContainer bc)).
Proof.
  unfold transientAdd. destruct (cleanTransient b) as [c|] eqn:Hc;
    [|apply keeps_refl].
  pose proof (Add_shaped c k bc) as Hsh. pose proof (Add_size c k (IContainer bc)) as Hsz.
  destruct (lru.Add c k (IContainer bc)) as [c' ev]. simpl in *.
  eapply keeps_trans; [by apply (keeps_withTransient b c c')|apply keeps_evicted].
Qed.

Lemma keeps_transientRemove b k : keeps b (transientRemove b k).
Proof.
  unfold transientRemove. destruct (cleanTransient b) as [c|] eqn:Hc;
    [|apply keeps_refl].
  pose proof (Remove_shaped c k) as Hsh. pose proof (Remove_size c k) as Hsz.
  destruct (lru.Remove c k) as [c' ev]. simpl in *.
  eapply keeps_trans; [by apply (keeps_withTransient b c c')|apply keeps_evicted].
Qed.

Lemma keeps_makeRoomLoop size cap fuel : forall b oldLen b',
  makeRoomLoop fuel size cap oldLen b = Some b' -> keeps b b'.
Proof.
  induction fuel as [|fuel IH]; intros b oldLen b' Hloop; [done|].
  simpl in Hloop.
  destruct (_ >? _); [|injection Hloop as <-; apply keeps_refl].
  destruct (_ =? _); [injection Hloop as <-; apply keeps_refl|].
  eapply keeps_trans; [apply keeps_transientRemoveOldest|by eapply IH].
Qed.

Lemma keeps_makeRoomForSize b size lifetime b' ok :
  makeRoomForSize b size lifetime = Some (b', ok) -> keeps b b'.
Proof.
  unfold makeRoomForSize. destruct (cleanTransient b) as [c|] eqn:Hc.
  2:{ intros [= <- <-]. apply keeps_refl. }
  destruct (makeRoomLoop _ _ _ _ _) as [b1|] eqn:Hloop; [|done].
  apply keeps_makeRoomLoop in Hloop.
  destruct (_ >? _); [destruct lifetime|]; intros [= <- <-]; try done;
    (eapply keeps_trans; [exact Hloop|];
     apply keeps_same; [done|done|]; intros _; apply wrap64_nonneg).
Qed.

Lemma keeps_putFinish b ptr blk lifetime h w b' e :
  putFinish b ptr blk lifetime h w = Returned (b', e) -> keeps b b'.
Proof.
  unfold putFinish.
  destruct (if negb w then _ else _) as [[b1 ok]|] eqn:Hm; [|done].
  assert (Hk : keeps b b1).
  { destruct w; simpl in Hm; [injection Hm as <- <-; apply keeps_refl|].
    by eapply keeps_makeRoomForSize. }
  destruct lifetime; try (by intros [= <- <-]).
  destruct (negb ok); intros [= <- <-]; [done|].
  eapply keeps_trans; [exact Hk|apply keeps_transientAdd].
Qed.

Section Reachable.

Variable hash : list Z -> RawDefaultHash.

Lemma keeps_putRecordHash b ptr t blk :
  keeps b (fst (putRecordHash hash b ptr t blk)).
Proof.
  unfold putRecordHash. destruct (ids b) as [i|] eqn:Hi; [|apply keeps_refl].
  destruct blk as [d|f|cb|n]; try apply keeps_refl.
  destruct (IsInd (fileCommon f)); simpl; [apply keeps_refl|].
  apply (keeps_withIds b i); [done|apply Add_size].
Qed.

Lemma keeps_PutWithPrefetch b ptr t blk lifetime hp b' e :
  PutWithPrefetch hash b ptr t blk lifetime hp = Returned (b', e) -> keeps b b'.
Proof.
  intros Hput.
  assert (Hcases : cacheable blk \/ ~ cacheable blk)
    by (destruct blk; simpl; tauto).
  destruct Hcases as [Hblk|Hblk].
  2:{ destruct blk; simpl in Hblk; try tauto; injection Hput as <- <-;
        apply keeps_refl. }
  destruct lifetime.
  - destruct blk; simpl in Hblk; try tauto; injection Hput as <- <-;
      apply keeps_refl.
  - rewrite PutWithPrefetch_Transient in Hput by done.
    pose proof (keeps_putRecordHash b ptr t blk) as Hk.
    destruct (putRecordHash hash b ptr t blk) as [b1 ptr1]. simpl in Hk.
    eapply keeps_trans; [exact Hk|].
    destruct (cleanTransient b1) as [c|] eqn:Hc;
      [|injection Hput as <- <-; apply keeps_refl].
    pose proof (Get_shaped c (ID ptr1)) as Hsh.
    pose proof (Get_size c (ID ptr1)) as Hsz.
    destruct (lru.Get c (ID ptr1)) as [c' [[[old h0]|q]|]]; try done;
      (eapply keeps_trans;
        [by apply (keeps_withTransient b1 c c')|by eapply keeps_putFinish]).
  - rewrite PutWithPrefetch_Permanent in Hput by done.
    eapply keeps_trans; [|by eapply keeps_putFinish]. by apply keeps_same.
  - destruct blk; simpl in Hblk; try tauto; injection Hput as <- <-;
      apply keeps_refl.
Qed.

Lemma keeps_step b o b' : step hash b o = Returned b' -> keeps b b'.
Proof.
  destruct o as [ptr t blk lt hp|id|ptr t|t fb|ptr|t fb|capacity]; simpl.
  - destruct (PutWithPrefetch hash b ptr t blk lt hp) as [[b1 e]| |] eqn:Hput;
      try done.
    intros [= <-]. by eapply keeps_PutWithPrefetch.
  - intros [= <-]. unfold DeletePermanent.
    destruct (cleanPermanent b !! id); [|apply keeps_refl].
    simpl. apply keeps_same; [by unfold subtractBlockBytes; destruct (_ >=? _)..|].
    intros Hn. by apply subtractBlockBytes_nonneg.
  - intros [= <-]. unfold DeleteTransient.
    destruct (cleanTransient b) as [c|] eqn:Hc; [|apply keeps_refl].
    pose proof (Get_shaped c (ID ptr)) as Hsh.
    pose proof (Get_size c (ID ptr)) as Hsz.
    destruct (lru.Get c (ID ptr)) as [c' [[bc|q]|]]; simpl in *;
      try (by apply (keeps_withTransient b c c')).
    eapply keeps_trans; [by apply (keeps_withTransient b c c')|].
    eapply keeps_trans; [|apply keeps_transientRemove].
    destruct (ids b) as [i|] eqn:Hi; [|apply keeps_refl].
    destruct (block bc) as [d|f|cb|n]; try apply keeps_refl.
    destruct (IsInd (fileCommon f)); simpl; [apply keeps_refl|].
    apply (keeps_withIds _ i); [done|apply Remove_size].
  - intros [= <-]. unfold DeleteKnownPtr.
    destruct (IsInd (fileCommon fb)); [apply keeps_refl|].
    destruct (ids b) as [i|] eqn:Hi; [|apply keeps_refl]. simpl.
    apply (keeps_withIds _ i); [done|apply Remove_size].
  - intros [= <-].
    assert (Hst : fst (Get b ptr) = fst (GetWithPrefetch b ptr)).
    { unfold Get. by destruct (GetWithPrefetch b ptr) as [b' [[[blk hp] lt] err]]. }
    rewrite Hst. destruct (cleanTransient b) as [c|] eqn:Hc.
    + rewrite (GetWithPrefetch_state b c ptr Hc).
      apply (keeps_withTransient b c); [done|apply Get_size|apply Get_shaped].
    + unfold GetWithPrefetch. rewrite Hc.
      destruct (cleanPermanent b !! ID ptr); apply keeps_refl.
  - intros [= <-]. unfold CheckForKnownPtr.
    destruct (IsInd (fileCommon fb)); [apply keeps_refl|].
    destruct (ids b) as [i|] eqn:Hi; [|apply keeps_refl].
    pose proof (Get_size i {| tlf := t; plaintextHash := GetHash hash fb |}) as Hsz.
    destruct (lru.Get i _) as [i' [[bc|q]|]]; simpl in *;
      by apply (keeps_withIds _ i).
  - intros [= <-]. by apply keeps_same.
Qed.

Lemma keeps_run os : forall b b', run hash b os = Returned b' -> keeps b b'.
Proof.
  induction os as [|o os IH]; intros b b' Hrun; simpl in Hrun.
  - injection Hrun as <-. apply keeps_refl.
  - destruct (step hash b o) as [b1| |] eqn:Hstep; try done.
    eapply keeps_trans; [by eapply keeps_step|by apply IH].
Qed.

(** Every state reached from a new cache has its LRUs as the constructor
    made them, and a well-shaped transient store. *)
Lemma reachable_shaped transientCapacity cleanBytesCapacity os b0 b :
  NewBlockCacheStandard transientCapacity cleanBytesCapacity = Some b0 ->
  run hash b0 os = Returned b ->
  wellFormed b /\ transientShape b /\ 0 <= cleanTotalBytes b /\
  (0 < transientCapacity -> exists i, ids b = Some i /\ 0 < lru.size i).
Proof.
  intros Hnew Hrun. apply keeps_run in Hrun.
  unfold NewBlockCacheStandard, lru.New in Hnew.
  destruct Hrun as (Hi & Ht & Hn). unfold wellFormed, transientShape.
  destruct (transientCapacity >? 0) eqn:Hcap.
  - apply Z.gtb_lt in Hcap.
    replace (transientCapacity <=? 0) with false in Hnew
      by (symmetry; apply Z.leb_gt; lia).
    injection Hnew as <-. simpl in Hi, Ht, Hn.
    destruct (ids b) as [i|]; [|done].
    destruct (cleanTransient b) as [c|]; [|done].
    destruct Ht as [Hc Hsh].
    rewrite Hi, Hc. split; [done|]. split; [|split].
    + apply Hsh. split; [apply NoDup_nil_2|apply Forall_nil_2].
    + by apply Hn.
    + intros _. exists i. by rewrite Hi.
  - injection Hnew as <-. simpl in Hi, Ht, Hn.
    destruct (ids b) as [i|]; [done|].
    destruct (cleanTransient b) as [c|]; [done|].
    split; [done|]. split; [done|]. split; [by apply Hn|].
    rewrite Z.gtb_ltb in Hcap. apply Z.ltb_ge in Hcap. lia.
Qed.

Lemma evicted_fixedBytes b c l ev :
  cleanTransient b = Some c -> lru.items c = l ++ [ev] ->
  0 <= cleanTotalBytes b ->
  fixedBytes (evicted (withTransient b {| lru.size := lru.size c; lru.items := l |})
                (Some ev))
  = fixedBytes b.
Proof.
  intros Hc Hl Hn. unfold fixedBytes, transientBytes.
  rewrite evicted_transient, Hc, Hl, itemsBytes_snoc. simpl.
  destruct ev as [k v]. pose proof (itemsBytes_nonneg l).
  destruct v as [bc|q]; simpl; [|lia].
  pose proof (getCachedBlockSize_range (block bc)).
  unfold subtractBlockBytes. simpl. destruct (_ >=? _) eqn:E; simpl; lia.
Qed.

(** The eviction loop leaves [fixedBytes] as it found it, and stops when the
    block fits or the transient store is empty. *)
Lemma makeRoomLoop_fixedBytes size cap fuel : forall b c oldLen b',
  makeRoomLoop fuel size cap oldLen b = Some b' ->
  cleanTransient b = Some c -> 0 <= cleanTotalBytes b ->
  (oldLen = transientLen b -> lru.items c = []) ->
  fixedBytes b' = fixedBytes b /\ 0 <= cleanTotalBytes b' /\
  (wrap64 (cleanTotalBytes b' + size) <= cap \/ transientBytes b' = 0).
Proof.
  induction fuel as [|fuel IH]; intros b c oldLen b' Hloop Hc Hn Hold;
    [discriminate|].
  simpl in Hloop.
  destruct (wrap64 (cleanTotalBytes b + size) >? cap) eqn:Hgt.
  2:{ injection Hloop as <-. split; [done|]. split; [done|]. left. lia. }
  destruct (oldLen =? transientLen b) eqn:Heq.
  { apply Z.eqb_eq in Heq. injection Hloop as <-. split; [done|]. split; [done|].
    right. unfold transientBytes. by rewrite Hc, (Hold Heq). }
  unfold transientRemoveOldest in Hloop. rewrite Hc in Hloop.
  destruct (RemoveOldest_spec c) as [[Hnil Heqr]|(l & ev & Hl & Heqr)];
    rewrite Heqr in Hloop.
  - destruct (IH _ c _ _ Hloop (evicted_transient _ _ _)) as (Hf & Hn' & Hfit);
      [done|done|].
    rewrite Hf. split; [|done]. unfold fixedBytes, transientBytes. simpl.
    by rewrite Hc.
  - destruct (IH _ _ _ _ Hloop (evicted_transient _ _ _)) as (Hf & Hn' & Hfit).
    + by apply evicted_nonneg.
    + intros Hlen. exfalso. revert Hlen. unfold transientLen.
      rewrite evicted_transient, Hc. unfold lru.Len. simpl.
      rewrite Hl, length_app. simpl. lia.
    + rewrite Hf. split; [|done]. by apply evicted_fixedBytes.
Qed.

(** When what cannot be evicted leaves room for the block,
    [makeRoomForSize] answers [true]. *)
Lemma makeRoomForSize_fits b c size lifetime b' ok :
  makeRoomForSize b size lifetime = Some (b', ok) ->
  cleanTransient b = Some c -> 0 <= cleanTotalBytes b -> 0 <= size ->
  fixedBytes b + size <= cleanBytesCapacity b ->
  ok = true.
Proof.
  unfold makeRoomForSize, GetCleanBytesCapacity. intros Hm Hc Hn Hsz Hle.
  rewrite Hc in Hm.
  destruct (makeRoomLoop _ _ _ _ _) as [b1|] eqn:Hloop; [|discriminate].
  destruct (makeRoomLoop_fixedBytes _ _ _ _ _ _ _ Hloop Hc Hn) as (Hf & Hn1 & Hfit).
  { unfold transientLen. rewrite Hc. lia. }
  destruct (wrap64 (cleanTotalBytes b1 + size) >? cleanBytesCapacity b) eqn:Hgt;
    [|by injection Hm as _ <-].
  exfalso. destruct Hfit as [Hfit|Hempty]; [lia|].
  unfold fixedBytes in Hf, Hle. rewrite Hempty in Hf.
  pose proof (wrap64_le (cleanTotalBytes b1 + size)). lia.
Qed.

Lemma fixedBytes_accounted b : accounted b -> fixedBytes b = permanentBytes b.
Proof.
  intros [_ Hacc]. unfold fixedBytes, residentBytes in *.
  pose proof (permanentBytes_nonneg b). lia.
Qed.

(** C2 (as amended). In every state reached from a new cache, after
    [SetCleanBytesCapacity c] a Transient put of a directory or file block
    returns without error whenever its size plus the bytes that evictions
    cannot free ([cleanTotalBytes] less the bytes of the transient entries)
    is at most [c]; when the accounting is exact, those bytes are the bytes
    held by the permanent store. *)
Theorem C2_transient_put_succeeds_beside_permanent
  (transientCapacity cleanBytesCapacity : Z) (os : list op)
  (b0 b : BlockCacheStandard) (capacity : Z) (ptr : BlockPointer) (t : tlf_ID)
  (blk : Block) (hp : bool) :
  NewBlockCacheStandard transientCapacity cleanBytesCapacity = Some b0 ->
  run hash b0 os = Returned b ->
  cacheable blk ->
  (accounted b -> fixedBytes b = permanentBytes b) /\
  (fixedBytes b + getCachedBlockSize blk <= capacity ->
   exists b',
     PutWithPrefetch hash (SetCleanBytesCapacity b capacity) ptr t blk
       TransientEntry hp = Returned (b', None)).
Proof.
  intros Hnew Hrun Hblk. split; [apply fixedBytes_accounted|]. intros Hle.
  destruct (reachable_shaped _ _ _ _ _ Hnew Hrun) as (Hwf & Hshape & Hn & _).
  set (bc := SetCleanBytesCapacity b capacity).
  rewrite PutWithPrefetch_Transient by done.
  pose proof (putRecordHash_frame hash bc ptr t blk) as Hframe. cbv zeta in Hframe.
  destruct (putRecordHash hash bc ptr t blk) as [b1 ptr1]. simpl in Hframe |- *.
  destruct Hframe as (Hid & Ht1 & _ & Htot1 & Hcap1). simpl in Ht1, Htot1, Hcap1.
  rewrite Ht1.
  destruct (cleanTransient b) as [c|] eqn:Hc; [|by eexists].
  destruct (lru.find (ID ptr1) (lru.items c)) as [[[old h0]|q]|] eqn:Hf.
  - rewrite (Get_hit _ _ _ Hf).
    erewrite putFinish_reput; [by eexists|reflexivity|].
    simpl. by destruct (decide _).
  - exfalso. unfold transientShape in Hshape. rewrite Hc in Hshape.
    destruct Hshape as [_ Hall]. apply find_Some in Hf.
    rewrite Forall_forall in Hall. destruct (Hall _ Hf) as [x Hx]. discriminate.
  - rewrite (Get_miss _ _ Hf). unfold putFinish. simpl.
    destruct (makeRoomForSize_returns (withTransient b1 c) (getCachedBlockSize blk)
                TransientEntry) as [[b2 ok] Hm].
    rewrite Hm.
    rewrite (makeRoomForSize_fits _ c _ _ _ _ Hm); simpl; try done.
    + by eexists.
    + lia.
    + apply getCachedBlockSize_range.
    + unfold fixedBytes, transientBytes in *. simpl. rewrite Htot1, Hcap1.
      by rewrite Hc in Hle.
Qed.

(** C6 (as amended). In every state reached from a new cache with a dedup
    index (constructed with a positive [transientCapacity]), a Transient put
    of a direct file block at pointer [ptr] in folder [t] returns, with or
    without an error, and a lookup on folder [t] with a direct file block of
    the same plaintext then returns [ptr] with its RefNonce zeroed and no
    error. *)
Theorem C6_transient_put_then_CheckForKnownPtr
  (transientCapacity cleanBytesCapacity : Z) (os : list op)
  (b0 b : BlockCacheStandard) (ptr : BlockPointer) (t : tlf_ID)
  (fb fb' : FileBlock) (hp : bool) :
  0 < transientCapacity ->
  NewBlockCacheStandard transientCapacity cleanBytesCapacity = Some b0 ->
  run hash b0 os = Returned b ->
  IsInd (fileCommon fb) = false -> IsInd (fileCommon fb') = false ->
  Contents fb' = Contents fb ->
  exists b' e,
    PutWithPrefetch hash b ptr t (FileBlockOf fb) TransientEntry hp
      = Returned (b', e) /\
    snd (CheckForKnownPtr hash b' t fb')
      = ({| ID := ID ptr; RefNonce := ZeroRefNonce; ptrRest := ptrRest ptr |}, None).
Proof.
  intros Hcap Hnew Hrun Hfb Hfb' Hcont.
  destruct (reachable_shaped _ _ _ _ _ Hnew Hrun) as (_ & Hshape & _ & Hids).
  destruct (Hids Hcap) as (i & Hi & Hsz).
  by eapply put_then_CheckForKnownPtr.
Qed.

(** C8 (as amended). In every state reached from a new cache: after a
    Transient put of a direct file block at [ptr] that returned without
    error, [DeleteTransient] returns no error, the ID is gone from the
    transient store, the index has no entry for the folder and plaintext,
    and [CheckForKnownPtr] answers the zero pointer without error.  [Get]
    then answers [NoSuchBlockError] when the permanent store did not hold
    the ID, and the permanent block, without error, when it did. *)
Theorem C8_put_then_DeleteTransient
  (transientCapacity cleanBytesCapacity : Z) (os : list op)
  (b0 b : BlockCacheStandard) (ptr : BlockPointer) (t : tlf_ID)
  (fb : FileBlock) (hp : bool) (b1 : BlockCacheStandard) :
  NewBlockCacheStandard transientCapacity cleanBytesCapacity = Some b0 ->
  run hash b0 os = Returned b ->
  IsInd (fileCommon fb) = false ->
  PutWithPrefetch hash b ptr t (FileBlockOf fb) TransientEntry hp
    = Returned (b1, None) ->
  let r := DeleteTransient hash b1 ptr t in
  snd r = None /\
  transientLookup (fst r) (ID ptr) = None /\
  snd (Get (fst r) ptr)
  = match permanentLookup b (ID ptr) with
    | Some blk => (Some blk, None)
    | None => (None, Some (NoSuchBlockError (ID ptr)))
    end /\
  idsLookup (fst r) {| tlf := t; plaintextHash := GetHash hash fb |} = None /\
  snd (CheckForKnownPtr hash (fst r) t fb) = (zeroBlockPointer, None).
Proof.
  intros Hnew Hrun Hfb Hput.
  destruct (reachable_shaped _ _ _ _ _ Hnew Hrun) as (Hwf & _).
  by eapply put_then_DeleteTransient.
Qed.

End Reachable.

(** * The properties at concrete caches *)

(** ** Byte accounting (C1) *)

(** On a permanent-only cache a Permanent put is stored and not charged; on
    a cache with a transient store, a Permanent re-put of a block of another
    size under the same ID is stored and not charged either.  In both
    states, reached from a new cache by puts alone, [cleanTotalBytes]
    differs from the resident byte count. *)
Lemma C1_counterexample :
  (run exampleHash (newCache 0 100)
     [OpPut (pointerAt "p") exampleFolder block500 PermanentEntry true]
   = Returned permanentOnly500 /\
   permanentLookup permanentOnly500 "p" = Some block500 /\
   cleanTotalBytes permanentOnly500 = 0 /\
   residentBytes permanentOnly500 = 500) /\
  (run exampleHash (newCache 10 1000)
     [OpPut (pointerAt "p") exampleFolder block100 PermanentEntry true;
      OpPut (pointerAt "p") exampleFolder block500 PermanentEntry true]
   = Returned reput100then500 /\
   permanentLookup reput100then500 "p" = Some block500 /\
   cleanTotalBytes reput100then500 = 100 /\
   residentBytes reput100then500 = 500).
Proof. vm_compute. repeat split; reflexivity. Qed.

Lemma C1_witness :
  exists b0 b,
    NewBlockCacheStandard 10 1000 = Some b0 /\
    run exampleHash b0 exampleOps = Returned b /\
    cleanTotalBytes b = transientBytes b + permanentBytes b /\
    accounted b /\ wellFormed b.
Proof.
  apply (C1_cleanTotalBytes_is_resident_bytes exampleHash 10 1000 exampleSizes
           exampleOps).
  - lia.
  - repeat constructor.
  - vm_compute. reflexivity.
Defined.

(** ** Capacity (C2, C3, C10) *)

(** Capacity 100, 500 bytes held by a permanent entry: a Transient put of 10
    bytes fails with [cachePutCacheFullError], although 10 <= 100. *)
Lemma C2_counterexample :
  run exampleHash (newCache 10 100)
    [OpPut (pointerAt "p") exampleFolder block500 PermanentEntry true]
  = Returned permanent500 /\
  getCachedBlockSize block10 <= 100 /\
  resultOf (putOn (SetCleanBytesCapacity permanent500 100) "t" block10
              TransientEntry false)
  = Some (Some (cachePutCacheFullError "t")).
Proof. vm_compute. repeat split; try reflexivity. discriminate. Qed.

Lemma C2_witness :
  exists b',
    PutWithPrefetch exampleHash (SetCleanBytesCapacity permanent500 1000)
      (pointerAt "t") exampleFolder block10 TransientEntry false
    = Returned (b', None).
Proof.
  apply (C2_transient_put_succeeds_beside_permanent exampleHash 10 100
           [OpPut (pointerAt "p") exampleFolder block500 PermanentEntry true]
           (newCache 10 100) permanent500 1000 (pointerAt "t") exampleFolder
           block10 false).
  - reflexivity.
  - vm_compute. reflexivity.
  - exact I.
  - vm_compute. discriminate.
Defined.




(** ** The prefetch flag (C5) *)

Lemma C5_witness :
  (exists b',
     PutWithPrefetch exampleHash transient32 (pointerAt "1") exampleFolder
       block32 TransientEntry false = Returned (b', None) /\
     snd (GetWithPrefetch b' (pointerAt "1"))
     = (Some block32, true, TransientEntry, None)) /\
  (exists b2,
     PutWithPrefetch exampleHash transient32 (pointerAt "1") exampleFolder
       block32 TransientEntry false = Returned (b2, None) /\
     transientLookup b2 "1"
     = Some (IContainer {| block := block32; hasPrefetched := true |})).
Proof.
  split.
  - destruct (proj1 (C5_reput_or_merges_hasPrefetched exampleHash) transient32
                (pointerAt "1") exampleFolder block32 false block32 true)
      as (b' & Hput & _ & Hget).
    + exact I.
    + vm_compute. reflexivity.
    + exists b'. split; [exact Hput|exact Hget].
  - destruct (proj2 (C5_reput_or_merges_hasPrefetched exampleHash)
                (newCache 10 1000) {| lru.size := 10; lru.items := [] |}
                (pointerAt "1") exampleFolder block32 transient32
                (pointerAt "1") exampleFolder block32)
      as (b2 & Hput & Hlook & _).
    + exact I.
    + exact I.
    + reflexivity.
    + simpl. lia.
    + reflexivity.
    + vm_compute. reflexivity.
    + exists b2. split; [exact Hput|exact Hlook].
Defined.

(** ** The dedup index (C6, C7, C8) *)

(** A cache constructed with [transientCapacity = 0] has no dedup index:
    the Transient put of a direct file block returns without error, and the
    lookup with the same plaintext returns the zero pointer, not the pointer
    that was put. *)
Lemma C6_counterexample :
  NewBlockCacheStandard 0 1000 = Some (newCache 0 1000) /\
  ids (newCache 0 1000) = None /\
  putOn (newCache 0 1000) "1" block32 TransientEntry true
  = Returned (indexless32, None) /\
  snd (CheckForKnownPtr exampleHash indexless32 exampleFolder (directBlock 32 170))
  = (zeroBlockPointer, None) /\
  snd (CheckForKnownPtr exampleHash indexless32 exampleFolder (directBlock 32 170))
  <> ({| ID := "1"; RefNonce := ZeroRefNonce; ptrRest := 1 |}, None).
Proof. vm_compute. repeat split; try reflexivity. discriminate. Qed.

Lemma C6_witness :
  exists b' e,
    PutWithPrefetch exampleHash transient32 (pointerAt "2") exampleFolder
      block100 TransientEntry true = Returned (b', e) /\
    snd (CheckForKnownPtr exampleHash b' exampleFolder (directBlock 100 2))
    = ({| ID := "2"; RefNonce := ZeroRefNonce; ptrRest := 1 |}, None).
Proof.
  apply (C6_transient_put_then_CheckForKnownPtr exampleHash 10 1000
           [OpPut (pointerAt "1") exampleFolder block32 TransientEntry true]
           (newCache 10 1000) transient32 (pointerAt "2") exampleFolder
           (directBlock 100 2) (directBlock 100 2) true).
  - lia.
  - reflexivity.
  - vm_compute. reflexivity.
  - reflexivity.
  - reflexivity.
  - reflexivity.
Defined.

(** A Transient put of 400 bytes into a new cache of 100 bytes fails with
    [cachePutCacheFullError]; the transient store is empty before and after
    (the block was never resident), yet the index holds an entry for it and
    [CheckForKnownPtr] returns its pointer. *)
Lemma C7_counterexample :
  run exampleHash (newCache 10 100)
    [OpPut (pointerAt "1") exampleFolder block400 TransientEntry false]
  = Returned failed400 /\
  resultOf (putOn (newCache 10 100) "1" block400 TransientEntry false)
  = Some (Some (cachePutCacheFullError "1")) /\
  cleanTransient (newCache 10 100) = Some {| lru.size := 10; lru.items := [] |} /\
  cleanTransient failed400 = Some {| lru.size := 10; lru.items := [] |} /\
  idsLookup failed400
    {| tlf := exampleFolder; plaintextHash := exampleHash (repeat 3 400) |}
  = Some (IPointer {| ID := "1"; RefNonce := ZeroRefNonce; ptrRest := 1 |}) /\
  snd (CheckForKnownPtr exampleHash failed400 exampleFolder (directBlock 400 3))
  = ({| ID := "1"; RefNonce := ZeroRefNonce; ptrRest := 1 |}, None).
Proof. vm_compute. repeat split; reflexivity. Qed.

Lemma C7_witness :
  exists ptr t fb hp,
    OpPut ptr t (FileBlockOf fb) TransientEntry hp
      ∈ [OpPut (pointerAt "1") exampleFolder block400 TransientEntry false] /\
    IsInd (fileCommon fb) = false /\
    {| tlf := exampleFolder; plaintextHash := exampleHash (repeat 3 400) |}
    = {| tlf := t; plaintextHash := GetHash exampleHash fb |} /\
    IPointer {| ID := "1"; RefNonce := ZeroRefNonce; ptrRest := 1 |}
    = IPointer (zeroRefNonce ptr).
Proof.
  apply (C7_index_entries_come_from_transient_puts exampleHash 10 100
           [OpPut (pointerAt "1") exampleFolder block400 TransientEntry false]
           (newCache 10 100) failed400).
  - reflexivity.
  - vm_compute. reflexivity.
  - vm_compute. constructor.
Defined.

(** With the ID pinned in the permanent store, the Transient put and
    [DeleteTransient] both return without error, and [Get] then returns the
    permanent block, not [NoSuchBlockError]. *)
Lemma C8_counterexample :
  run exampleHash (newCache 10 1000)
    [OpPut (pointerAt "1") exampleFolder block32 PermanentEntry true]
  = Returned pinned32 /\
  putOn pinned32 "1" block32 TransientEntry true = Returned (pinned32put, None) /\
  snd (DeleteTransient exampleHash pinned32put (pointerAt "1") exampleFolder)
  = None /\
  snd (Get (fst (DeleteTransient exampleHash pinned32put (pointerAt "1")
                   exampleFolder)) (pointerAt "1"))
  = (Some block32, None) /\
  snd (Get (fst (DeleteTransient exampleHash pinned32put (pointerAt "1")
                   exampleFolder)) (pointerAt "1"))
  <> (None, Some (NoSuchBlockError "1")).
Proof. vm_compute. repeat split; try reflexivity. discriminate. Qed.

Lemma C8_witness :
  snd (DeleteTransient exampleHash transient32 (pointerAt "1") exampleFolder)
  = None /\
  snd (Get (fst (DeleteTransient exampleHash transient32 (pointerAt "1")
                   exampleFolder)) (pointerAt "1"))
  = (None, Some (NoSuchBlockError "1")) /\
  snd (CheckForKnownPtr exampleHash
         (fst (DeleteTransient exampleHash transient32 (pointerAt "1")
                 exampleFolder))
         exampleFolder (directBlock 32 170))
  = (zeroBlockPointer, None).
Proof.
  destruct (C8_put_then_DeleteTransient exampleHash 10 1000 []
              (newCache 10 1000) (newCache 10 1000)
              (pointerAt "1") exampleFolder (directBlock 32 170) true transient32)
    as (Herr & _ & Hget & _ & Hcheck).
  - reflexivity.
  - reflexivity.
  - reflexivity.
  - vm_compute. reflexivity.
  - split; [exact Herr|]. split; [exact Hget|exact Hcheck].
Defined.

(** ** Deleting from the permanent store (C9) *)

(** After Permanent puts of 100 and then 500 bytes under one ID,
    [cleanTotalBytes] is 100 and the resident block has 500 bytes;
    [DeletePermanent] removes it and leaves [cleanTotalBytes] at 0: a
    decrease of 100, not of 500. *)
Lemma C9_counterexample :
  run exampleHash (newCache 10 1000)
    [OpPut (pointerAt "p") exampleFolder block100 PermanentEntry true;
     OpPut (pointerAt "p") exampleFolder block500 PermanentEntry true]
  = Returned reput100then500 /\
  permanentLookup reput100then500 "p" = Some block500 /\
  getCachedBlockSize block500 = 500 /\
  cleanTotalBytes reput100then500 = 100 /\
  cleanTotalBytes (fst (DeletePermanent reput100then500 "p")) = 0 /\
  cleanTotalBytes reput100then500
    - cleanTotalBytes (fst (DeletePermanent reput100then500 "p"))
  <> getCachedBlockSize block500.
Proof. vm_compute. repeat split; try reflexivity. discriminate. Qed.

Lemma C9_witness :
  snd (DeletePermanent permanent500 "p") = None /\
  permanentLookup (fst (DeletePermanent permanent500 "p")) "p" = None /\
  cleanTotalBytes (fst (DeletePermanent permanent500 "p"))
  = Z.max 0 (cleanTotalBytes permanent500 - getCachedBlockSize block500).
Proof.
  destruct (C9_DeletePermanent_debits_saturating permanent500 "p" block500)
    as (Herr & Hlook & Htot & _).
  - vm_compute. reflexivity.
  - split; [exact Herr|]. split; [exact Hlook|exact Htot].
Defined.

(** * Further properties of [bcache.go] *)

(** ** Entry capacities and the range of the byte count *)

Lemma drop_length {K : Type} `{EqDecision K} (k : K) (l : list (K * iface)) :
  (length (lru.drop k l) <= length l)%nat.
Proof.
  induction l as [|[k' v] r IH]; simpl; [done|].
  destruct (decide (k = k')); simpl; lia.
Qed.

Lemma drop_length_found {K : Type} `{EqDecision K} (k : K) (l : list (K * iface)) v :
  lru.find k l = Some v -> (S (length (lru.drop k l)) <= length l)%nat.
Proof.
  induction l as [|[k' v'] r IH]; simpl; [done|].
  destruct (decide (k = k')) as [->|Hne]; simpl.
  - intros _. pose proof (drop_length k' r). lia.
  - intros Hf. specialize (IH Hf). lia.
Qed.

Lemma lruKeeps_refl {K : Type} (c : lru.Cache K) : lruKeeps c c.
Proof. by split. Qed.

Lemma lruKeeps_trans {K : Type} (c1 c2 c3 : lru.Cache K) :
  lruKeeps c1 c2 -> lruKeeps c2 c3 -> lruKeeps c1 c3.
Proof. intros [? ?] [? ?]. split; [congruence|auto]. Qed.

Lemma lruKeeps_Get {K : Type} `{EqDecision K} (c : lru.Cache K) k :
  lruKeeps c (fst (lru.Get c k)).
Proof.
  unfold lruKeeps, lru.Get, lru.Len.
  destruct (lru.find k (lru.items c)) eqn:Hf; simpl; [|done].
  split; [done|]. pose proof (drop_length_found _ _ _ Hf). lia.
Qed.

Lemma lruKeeps_Remove {K : Type} `{EqDecision K} (c : lru.Cache K) k :
  lruKeeps c (fst (lru.Remove c k)).
Proof.
  unfold lruKeeps, lru.Remove, lru.Len.
  destruct (lru.find k (lru.items c)) eqn:Hf; simpl; [|done].
  split; [done|]. pose proof (drop_length k (lru.items c)). lia.
Qed.

Lemma lruKeeps_RemoveOldest {K : Type} (c : lru.Cache K) :
  lruKeeps c (fst (lru.RemoveOldest c)).
Proof.
  destruct (RemoveOldest_spec c) as [[_ ->]|(l & ev & Hl & ->)]; [by split|].
  unfold lruKeeps, lru.Len. simpl. split; [done|].
  rewrite Hl, length_app. simpl. lia.
Qed.

(** [Add] never leaves more entries than the capacity: a new key that
    overflows pushes the oldest entry out. *)
Lemma lruKeeps_Add {K : Type} `{EqDecision K} (c : lru.Cache K) k v :
  lruKeeps c (fst (lru.Add c k v)).
Proof.
  unfold lruKeeps, lru.Add.
  destruct (lru.find k (lru.items c)) eqn:Hf; simpl.
  - split; [done|]. unfold lru.Len. simpl.
    pose proof (drop_length_found _ _ _ Hf). lia.
  - destruct (_ >? _) eqn:Hgt.
    + destruct (RemoveOldest_spec
                  {| lru.size := lru.size c; lru.items := (k, v) :: lru.items c |})
        as [[Hnil _]|(l & ev & Hl & ->)]; [done|].
      simpl in *. split; [done|]. unfold lru.Len. simpl. intros Hle.
      assert (Hlen : length ((k, v) :: lru.items c) = length (l ++ [ev]))
        by by rewrite Hl.
      rewrite length_app in Hlen. simpl in Hlen. lia.
    + simpl. split; [done|]. intros _. lia.
Qed.

Lemma optionRel_refl {A : Type} (R : A -> A -> Prop) (o : option A) :
  (forall a, R a a) -> optionRel R o o.
Proof. intros HR. destruct o; simpl; auto. Qed.

Lemma optionRel_trans {A : Type} (R : A -> A -> Prop) (o1 o2 o3 : option A) :
  (forall a b c, R a b -> R b c -> R a c) ->
  optionRel R o1 o2 -> optionRel R o2 o3 -> optionRel R o1 o3.
Proof. intros HR. destruct o1, o2, o3; simpl; try done. apply HR. Qed.

Lemma capped_refl b : capped b b.
Proof.
  split; [|split]; [apply optionRel_refl, lruKeeps_refl..|done].
Qed.

Lemma capped_trans b1 b2 b3 : capped b1 b2 -> capped b2 b3 -> capped b1 b3.
Proof.
  intros (Hi & Ht & Hr) (Hi' & Ht' & Hr'). split; [|split].
  - eapply optionRel_trans; [apply @lruKeeps_trans|done..].
  - eapply optionRel_trans; [apply @lruKeeps_trans|done..].
  - auto.
Qed.

Lemma capped_same b b' :
  ids b' = ids b -> cleanTransient b' = cleanTransient b ->
  (0 <= cleanTotalBytes b < 2 ^ 64 -> 0 <= cleanTotalBytes b' < 2 ^ 64) ->
  capped b b'.
Proof.
  intros Hi Ht Hr. unfold capped. rewrite Hi, Ht.
  split; [|split]; [apply optionRel_refl, lruKeeps_refl..|done].
Qed.

Lemma capped_withIds b i i' :
  ids b = Some i -> lruKeeps i i' -> capped b (withIds b i').
Proof.
  intros Hi Hk. unfold capped. simpl. rewrite Hi.
  split; [done|]. split; [apply optionRel_refl, lruKeeps_refl|done].
Qed.

Lemma capped_withTransient b c c' :
  cleanTransient b = Some c -> lruKeeps c c' -> capped b (withTransient b c').
Proof.
  intros Hc Hk. unfold capped. simpl. rewrite Hc.
  split; [apply optionRel_refl, lruKeeps_refl|]. split; done.
Qed.

Lemma wrap64_range z : 0 <= wrap64 z < 2 ^ 64.
Proof. unfold wrap64. apply Z.mod_pos_bound. lia. Qed.

Lemma subtractBlockBytes_range b blk :
  0 <= cleanTotalBytes b < 2 ^ 64 ->
  0 <= cleanTotalBytes (subtractBlockBytes b blk) < 2 ^ 64.
Proof.
  intros Hr. pose proof (getCachedBlockSize_range blk).
  unfold subtractBlockBytes. destruct (_ >=? _) eqn:E; simpl; lia.
Qed.

Lemma capped_evicted b ev : capped b (evicted b ev).
Proof.
  destruct ev as [[k [bc|q]]|]; simpl; try apply capped_refl.
  apply capped_same; [by unfold subtractBlockBytes; destruct (_ >=? _)..|].
  apply subtractBlockBytes_range.
Qed.

Lemma capped_transientRemoveOldest b : capped b (transientRemoveOldest b).
Proof.
  unfold transientRemoveOldest. destruct (cleanTransient b) as [c|] eqn:Hc;
    [|apply capped_refl].
  pose proof (lruKeeps_RemoveOldest c) as Hk.
  destruct (lru.RemoveOldest c) as [c' ev]. simpl in Hk.
  eapply capped_trans; [by apply (capped_withTransient b c c')|apply capped_evicted].
Qed.

Lemma capped_transientAdd b k v : capped b (transientAdd b k v).
Proof.
  unfold transientAdd. destruct (cleanTransient b) as [c|] eqn:Hc;
    [|apply capped_refl].
  pose proof (lruKeeps_Add c k v) as Hk.
  destruct (lru.Add c k v) as [c' ev]. simpl in Hk.
  eapply capped_trans; [by apply (capped_withTransient b c c')|apply capped_evicted].
Qed.

Lemma capped_transientRemove b k : capped b (transientRemove b k).
Proof.
  unfold transientRemove. destruct (cleanTransient b) as [c|] eqn:Hc;
    [|apply capped_refl].
  pose proof (lruKeeps_Remove c k) as Hk.
  destruct (lru.Remove c k) as [c' ev]. simpl in Hk.
  eapply capped_trans; [by apply (capped_withTransient b c c')|apply capped_evicted].
Qed.

Lemma capped_makeRoomLoop size cap fuel : forall b oldLen b',
  makeRoomLoop fuel size cap oldLen b = Some b' -> capped b b'.
Proof.
  induction fuel as [|fuel IH]; intros b oldLen b' Hloop; [done|].
  simpl in Hloop.
  destruct (_ >? _); [|injection Hloop as <-; apply capped_refl].
  destruct (_ =? _); [injection Hloop as <-; apply capped_refl|].
  eapply capped_trans; [apply capped_transientRemoveOldest|by eapply IH].
Qed.

Lemma capped_makeRoomForSize b size lifetime b' ok :
  makeRoomForSize b size lifetime = Some (b', ok) -> capped b b'.
Proof.
  unfold makeRoomForSize. destruct (cleanTransient b) as [c|] eqn:Hc.
  2:{ intros [= <- <-]. apply capped_refl. }
  destruct (makeRoomLoop _ _ _ _ _) as [b1|] eqn:Hloop; [|done].
  apply capped_makeRoomLoop in Hloop.
  destruct (_ >? _); [destruct lifetime|]; intros [= <- <-]; try done;
    (eapply capped_trans; [exact Hloop|];
     apply capped_same; [done|done|]; intros _; apply wrap64_range).
Qed.

Lemma capped_putFinish b ptr blk lifetime h w b' e :
  putFinish b ptr blk lifetime h w = Returned (b', e) -> capped b b'.
Proof.
  unfold putFinish.
  destruct (if negb w then _ else _) as [[b1 ok]|] eqn:Hm; [|done].
  assert (Hk : capped b b1).
  { destruct w; simpl in Hm; [injection Hm as <- <-; apply capped_refl|].
    by eapply capped_makeRoomForSize. }
  destruct lifetime; try (by intros [= <- <-]).
  destruct (negb ok); intros [= <- <-]; [done|].
  eapply capped_trans; [exact Hk|apply capped_transientAdd].
Qed.

Section Capped.

Variable hash : list Z -> RawDefaultHash.

Lemma capped_putRecordHash b ptr t blk :
  capped b (fst (putRecordHash hash b ptr t blk)).
Proof.
  unfold putRecordHash. destruct (ids b) as [i|] eqn:Hi; [|apply capped_refl].
  destruct blk as [d|f|cb|n]; try apply capped_refl.
  destruct (IsInd (fileCommon f)); simpl; [apply capped_refl|].
  apply (capped_withIds b i); [done|apply lruKeeps_Add].
Qed.

Lemma capped_PutWithPrefetch b ptr t blk lifetime hp b' e :
  PutWithPrefetch hash b ptr t blk lifetime hp = Returned (b', e) -> capped b b'.
Proof.
  intros Hput.
  assert (Hcases : cacheable blk \/ ~ cacheable blk)
    by (destruct blk; simpl; tauto).
  destruct Hcases as [Hblk|Hblk].
  2:{ destruct blk; simpl in Hblk; try tauto; injection Hput as <- <-;
        apply capped_refl. }
  destruct lifetime.
  - destruct blk; simpl in Hblk; try tauto; injection Hput as <- <-;
      apply capped_refl.
  - rewrite PutWithPrefetch_Transient in Hput by done.
    pose proof (capped_putRecordHash b ptr t blk) as Hk.
    destruct (putRecordHash hash b ptr t blk) as [b1 ptr1]. simpl in Hk.
    eapply capped_trans; [exact Hk|].
    destruct (cleanTransient b1) as [c|] eqn:Hc;
      [|injection Hput as <- <-; apply capped_refl].
    pose proof (lruKeeps_Get c (ID ptr1)) as Hg.
    destruct (lru.Get c (ID ptr1)) as [c' [[[old h0]|q]|]]; try done;
      (eapply capped_trans;
        [by apply (capped_withTransient b1 c c')|by eapply capped_putFinish]).
  - rewrite PutWithPrefetch_Permanent in Hput by done.
    eapply capped_trans; [|by eapply capped_putFinish]. by apply capped_same.
  - destruct blk; simpl in Hblk; try tauto; injection Hput as <- <-;
      apply capped_refl.
Qed.

Lemma capped_step b o b' : step hash b o = Returned b' -> capped b b'.
Proof.
  destruct o as [ptr t blk lt hp|id|ptr t|t fb|ptr|t fb|capacity]; simpl.
  - destruct (PutWithPrefetch hash b ptr t blk lt hp) as [[b1 e]| |] eqn:Hput;
      try done.
    intros [= <-]. by eapply capped_PutWithPrefetch.
  - intros [= <-]. unfold DeletePermanent.
    destruct (cleanPermanent b !! id); [|apply capped_refl].
    simpl. apply capped_same; [by unfold subtractBlockBytes; destruct (_ >=? _)..|].
    intros Hr. by apply subtractBlockBytes_range.
  - intros [= <-]. unfold DeleteTransient.
    destruct (cleanTransient b) as [c|] eqn:Hc; [|apply capped_refl].
    pose proof (lruKeeps_Get c (ID ptr)) as Hg.
    destruct (lru.Get c (ID ptr)) as [c' [[bc|q]|]]; simpl in *;
      try (by apply (capped_withTransient b c c')).
    eapply capped_trans; [by apply (capped_withTransient b c c')|].
    eapply capped_trans; [|apply capped_transientRemove].
    destruct (ids b) as [i|] eqn:Hi; [|apply capped_refl].
    destruct (block bc) as [d|f|cb|n]; try apply capped_refl.
    destruct (IsInd (fileCommon f)); simpl; [apply capped_refl|].
    apply (capped_withIds _ i); [done|apply lruKeeps_Remove].
  - intros [= <-]. unfold DeleteKnownPtr.
    destruct (IsInd (fileCommon fb)); [apply capped_refl|].
    destruct (ids b) as [i|] eqn:Hi; [|apply capped_refl]. simpl.
    apply (capped_withIds _ i); [done|apply lruKeeps_Remove].
  - intros [= <-].
    assert (Hst : fst (Get b ptr) = fst (GetWithPrefetch b ptr)).
    { unfold Get. by destruct (GetWithPrefetch b ptr) as [b' [[[blk hp] lt] err]]. }
    rewrite Hst. destruct (cleanTransient b) as [c|] eqn:Hc.
    + rewrite (GetWithPrefetch_state b c ptr Hc).
      apply (capped_withTransient b c); [done|apply lruKeeps_Get].
    + unfold GetWithPrefetch. rewrite Hc.
      destruct (cleanPermanent b !! ID ptr); apply capped_refl.
  - intros [= <-]. unfold CheckForKnownPtr.
    destruct (IsInd (fileCommon fb)); [apply capped_refl|].
    destruct (ids b) as [i|] eqn:Hi; [|apply capped_refl].
    pose proof (lruKeeps_Get i {| tlf := t; plaintextHash := GetHash hash fb |}) as Hg.
    destruct (lru.Get i _) as [i' [[bc|q]|]]; simpl in *;
      by apply (capped_withIds _ i).
  - intros [= <-]. by apply capped_same.
Qed.

Lemma capped_run os : forall b b', run hash b os = Returned b' -> capped b b'.
Proof.
  induction os as [|o os IH]; intros b b' Hrun; simpl in Hrun.
  - injection Hrun as <-. apply capped_refl.
  - destruct (step hash b o) as [b1| |] eqn:Hstep; try done.
    eapply capped_trans; [by eapply capped_step|by apply IH].
Qed.

End Capped.

(** ** Sequences of operations never fail *)

Section NeverFails.

Variable hash : list Z -> RawDefaultHash.

Lemma keeps_transientShape b b' : keeps b b' -> transientShape b -> transientShape b'.
Proof.
  unfold keeps, transientShape. intros (_ & Ht & _) Hs.
  destruct (cleanTransient b), (cleanTransient b'); try done.
  destruct Ht as [_ Ht]. by apply Ht.
Qed.

Lemma step_returns b o :
  transientShape b -> exists b', step hash b o = Returned b'.
Proof.
  intros Hs. destruct o as [ptr t blk lt hp|id|ptr t|t fb|ptr|t fb|capacity];
    simpl; try by eexists.
  destruct (PutWithPrefetch_returns hash b ptr t blk lt hp Hs) as [[b' e] ->].
  by eexists.
Qed.

Lemma run_returns os : forall b,
  transientShape b -> exists b', run hash b os = Returned b'.
Proof.
  induction os as [|o os IH]; intros b Hs; simpl; [by eexists|].
  destruct (step_returns b o Hs) as [b1 Hstep]. rewrite Hstep.
  apply IH. eapply keeps_transientShape; [|exact Hs]. by eapply keeps_step.
Qed.

(** The constructor returns a cache for every capacity, and every sequence
    of operations on it runs to the end. *)
Lemma new_then_run transientCapacity cleanBytesCapacity os :
  exists b0 b,
    NewBlockCacheStandard transientCapacity cleanBytesCapacity = Some b0 /\
    run hash b0 os = Returned b.
Proof.
  assert (Hnew : exists b0,
    NewBlockCacheStandard transientCapacity cleanBytesCapacity = Some b0 /\
    transientShape b0).
  { unfold NewBlockCacheStandard, lru.New.
    destruct (transientCapacity >? 0) eqn:Hcap.
    - apply Z.gtb_lt in Hcap.
      replace (transientCapacity <=? 0) with false
        by (symmetry; apply Z.leb_gt; lia).
      eexists. split; [reflexivity|]. unfold transientShape. simpl.
      split; [apply NoDup_nil_2|apply Forall_nil_2].
    - eexists. split; [reflexivity|]. done. }
  destruct Hnew as (b0 & Hnew & Hs).
  destruct (run_returns os b0 Hs) as [b Hrun]. by exists b0, b.
Qed.

Lemma reachable_index_values transientCapacity cleanBytesCapacity os b0 b key v :
  NewBlockCacheStandard transientCapacity cleanBytesCapacity = Some b0 ->
  run hash b0 os = Returned b ->
  idsLookup b key = Some v ->
  exists ptr, v = IPointer ptr /\ RefNonce ptr = ZeroRefNonce.
Proof.
  intros Hnew Hrun Hl.
  assert (Hin : indexEntry b key v).
  { unfold idsLookup in Hl. unfold indexEntry.
    destruct (ids b); [by apply find_Some|done]. }
  destruct (run_indexEntry hash os b0 b key v Hrun Hin) as [Hin0|(o & _ & Hrec)].
  - exfalso. unfold NewBlockCacheStandard, lru.New in Hnew.
    destruct (transientCapacity >? 0); [destruct (transientCapacity <=? 0)|];
      try done; injection Hnew as <-; unfold indexEntry in Hin0; simpl in Hin0;
      [by apply elem_of_nil in Hin0|done].
  - destruct o as [ptr t blk lt hp| | | | | |]; try done.
    destruct blk as [d|fb|cb|n]; try done. destruct lt; try done.
    destruct Hrec as (_ & _ & ->). by exists (zeroRefNonce ptr).
Qed.

(** X1. From a new cache of any capacities, every sequence of operations
    runs to the end, and in the state it reaches no call can hit one of the
    insurance checks: a put returns (it neither panics on its unchecked type
    assertion nor loops for ever making room), [GetWithPrefetch] fails only
    with [NoSuchBlockError], [DeleteTransient] never fails, and
    [CheckForKnownPtr] fails only, and always, on an indirect block; the
    pointer it returns has a zero RefNonce. *)
Theorem X1_operations_never_hit_insurance_checks
  (transientCapacity cleanBytesCapacity : Z) (os : list op) :
  exists b0 b,
    NewBlockCacheStandard transientCapacity cleanBytesCapacity = Some b0 /\
    run hash b0 os = Returned b /\
    (forall ptr t blk lifetime hp,
       exists r, PutWithPrefetch hash b ptr t blk lifetime hp = Returned r) /\
    (forall ptr,
       snd (snd (GetWithPrefetch b ptr)) = None \/
       snd (snd (GetWithPrefetch b ptr)) = Some (NoSuchBlockError (ID ptr))) /\
    (forall ptr t, snd (DeleteTransient hash b ptr t) = None) /\
    (forall t fb,
       snd (snd (CheckForKnownPtr hash b t fb))
       = (if IsInd (fileCommon fb) then Some NotDirectFileBlockError else None) /\
       RefNonce (fst (snd (CheckForKnownPtr hash b t fb))) = ZeroRefNonce).
Proof.
  destruct (new_then_run transientCapacity cleanBytesCapacity os)
    as (b0 & b & Hnew & Hrun).
  exists b0, b. split; [done|]. split; [done|].
  destruct (reachable_shaped hash _ _ _ _ _ Hnew Hrun) as (_ & Hshape & _).
  assert (Hcont : forall c k v, cleanTransient b = Some c ->
            lru.find k (lru.items c) = Some v -> exists bc, v = IContainer bc).
  { intros c k v Hc Hf. unfold transientShape in Hshape. rewrite Hc in Hshape.
    destruct Hshape as [_ Hall]. apply find_Some in Hf.
    rewrite Forall_forall in Hall. by destruct (Hall _ Hf) as [bc ?]; exists bc. }
  split; [intros; by apply PutWithPrefetch_returns|].
  split; [|split].
  - intros ptr. unfold GetWithPrefetch.
    destruct (cleanTransient b) as [c|] eqn:Hc.
    + destruct (lru.find (ID ptr) (lru.items c)) as [v|] eqn:Hf.
      * destruct (Hcont _ _ _ eq_refl Hf) as [bc ->].
        rewrite (Get_hit _ _ _ Hf). by left.
      * rewrite (Get_miss _ _ Hf). simpl.
        destruct (cleanPermanent b !! ID ptr); simpl; [by left|by right].
    + destruct (cleanPermanent b !! ID ptr); simpl; [by left|by right].
  - intros ptr t. unfold DeleteTransient.
    destruct (cleanTransient b) as [c|] eqn:Hc; [|done].
    destruct (lru.find (ID ptr) (lru.items c)) as [v|] eqn:Hf.
    + destruct (Hcont _ _ _ eq_refl Hf) as [bc ->].
      by rewrite (Get_hit _ _ _ Hf).
    + by rewrite (Get_miss _ _ Hf).
  - intros t fb. unfold CheckForKnownPtr.
    destruct (IsInd (fileCommon fb)); [done|].
    destruct (ids b) as [i|] eqn:Hi; [|done].
    destruct (lru.find {| tlf := t; plaintextHash := GetHash hash fb |}
                (lru.items i)) as [v|] eqn:Hf.
    + destruct (reachable_index_values _ _ _ _ _
                  {| tlf := t; plaintextHash := GetHash hash fb |} v Hnew Hrun)
        as (q & -> & Hq).
      { unfold idsLookup. rewrite Hi. exact Hf. }
      by rewrite (Get_hit _ _ _ Hf).
    + by rewrite (Get_miss _ _ Hf).
Qed.

(** X2. From a new cache, every sequence of operations reaches a state in
    which each LRU exists exactly when the constructor's
    [transientCapacity] is positive, has that entry capacity and holds at
    most that many entries; the keys of the transient store are pairwise
    distinct; and [cleanTotalBytes] is within the range of a [uint64]. *)
Theorem X2_entry_capacities_hold
  (transientCapacity cleanBytesCapacity : Z) (os : list op) :
  exists b0 b,
    NewBlockCacheStandard transientCapacity cleanBytesCapacity = Some b0 /\
    run hash b0 os = Returned b /\
    0 <= cleanTotalBytes b < 2 ^ 64 /\
    match cleanTransient b with
    | Some c =>
        0 < transientCapacity /\ lru.size c = transientCapacity /\
        lru.Len c <= transientCapacity /\ NoDup (lru.items c).*1
    | None => transientCapacity <= 0
    end /\
    match ids b with
    | Some i =>
        0 < transientCapacity /\ lru.size i = transientCapacity /\
        lru.Len i <= transientCapacity
    | None => transientCapacity <= 0
    end.
Proof.
  destruct (new_then_run transientCapacity cleanBytesCapacity os)
    as (b0 & b & Hnew & Hrun).
  exists b0, b. split; [done|]. split; [done|].
  destruct (reachable_shaped hash _ _ _ _ _ Hnew Hrun) as (_ & Hshape & _).
  pose proof (capped_run hash os b0 b Hrun) as (Hi & Ht & Hr).
  unfold NewBlockCacheStandard, lru.New in Hnew.
  destruct (transientCapacity >? 0) eqn:Hcap.
  - apply Z.gtb_lt in Hcap.
    replace (transientCapacity <=? 0) with false in Hnew
      by (symmetry; apply Z.leb_gt; lia).
    injection Hnew as <-. simpl in Hi, Ht, Hr.
    split; [apply Hr; lia|].
    unfold transientShape in Hshape.
    destruct (cleanTransient b) as [c|]; [|done].
    destruct (ids b) as [i|]; [|done].
    destruct Ht as [Hsz Hlen], Hi as [Hszi Hleni], Hshape as [Hnd _].
    unfold lru.Len in *. simpl in *. rewrite Hsz, Hszi in *.
    split; [split; [done|]; split; [done|]; split; [apply Hlen; lia|done]|].
    split; [done|]. split; [done|]. apply Hleni. lia.
  - rewrite Z.gtb_ltb in Hcap. apply Z.ltb_ge in Hcap.
    injection Hnew as <-. simpl in Hi, Ht, Hr.
    split; [apply Hr; lia|].
    destruct (cleanTransient b) as [c|]; [done|].
    destruct (ids b) as [i|]; [done|]. done.
Qed.

End NeverFails.

(** ** Round trips through the two stores *)

Section RoundTrips.

Variable hash : list Z -> RawDefaultHash.

Lemma Get_of_GetWithPrefetch b ptr blk hp lt err :
  snd (GetWithPrefetch b ptr) = (blk, hp, lt, err) ->
  snd (Get b ptr) = (blk, err).
Proof.
  unfold Get. destruct (GetWithPrefetch b ptr) as [b' [[[blk' hp'] lt'] err']].
  simpl. by intros [= -> _ _ ->].
Qed.

Lemma put_success_cacheable b ptr t blk hp b' :
  PutWithPrefetch hash b ptr t blk TransientEntry hp = Returned (b', None) ->
  cacheable blk.
Proof. by destruct blk. Qed.

(** The flag a Transient put leaves: the one it was given, OR-ed with the
    one of the entry it replaces. *)
Lemma put_transient_flag b c ptr t blk hp b' :
  cacheable blk -> cleanTransient b = Some c -> 0 < lru.size c ->
  PutWithPrefetch hash b ptr t blk TransientEntry hp = Returned (b', None) ->
  transientLookup b' (ID ptr)
  = Some (IContainer
            {| block := blk;
               hasPrefetched :=
                 hp || match lru.find (ID ptr) (lru.items c) with
                       | Some (IContainer bc) => hasPrefetched bc
                       | _ => false
                       end |}).
Proof.
  intros Hblk Hc Hsz. rewrite PutWithPrefetch_Transient by done.
  pose proof (putRecordHash_frame hash b ptr t blk) as Hframe. cbv zeta in Hframe.
  destruct (putRecordHash hash b ptr t blk) as [b1 ptr1]. simpl in Hframe |- *.
  destruct Hframe as (Hid & Ht1 & _). rewrite Ht1, Hc, Hid.
  destruct (lru.find (ID ptr) (lru.items c)) as [[[old h0]|q]|] eqn:Hf.
  - rewrite (Get_hit _ _ _ Hf).
    erewrite putFinish_reput;
      [| reflexivity | rewrite Hid; simpl; by destruct (decide _)].
    intros [= <-]. unfold transientLookup. simpl. rewrite Hid.
    by destruct (decide _).
  - by rewrite (Get_hit _ _ _ Hf).
  - rewrite (Get_miss _ _ Hf). unfold putFinish. simpl.
    destruct (makeRoomForSize _ _ _) as [[b2 ok]|] eqn:Hm; [|done].
    destruct (makeRoomForSize_frame _ c _ _ _ _ Hm eq_refl)
      as (l & dropped & Hc2 & _).
    destruct ok; simpl; [|done]. intros [= <-].
    unfold transientLookup, transientAdd. rewrite Hc2.
    pose proof (Add_find_eq {| lru.size := lru.size c; lru.items := l |} (ID ptr1)
                  (IContainer {| block := blk; hasPrefetched := hp |}) Hsz) as Hadd.
    destruct (lru.Add _ _ _) as [c3 ev]. rewrite evicted_transient.
    simpl in Hadd. rewrite <- Hid, Hadd. by rewrite orb_false_r.
Qed.

(** X3. On a cache constructed with a positive [transientCapacity], in
    every state it reaches: after a Transient put that returned no error,
    [GetWithPrefetch] of the same pointer returns the block that was put,
    with [TransientEntry] and no error, and [Get] returns that block; the
    reported [hasPrefetched] is the flag that was put, OR-ed with the flag
    of the entry the put replaced, so that it is [true] after [Put]. *)
Theorem X3_transient_put_then_get
  (transientCapacity cleanBytesCapacity : Z) (os : list op)
  (b0 b : BlockCacheStandard) (ptr : BlockPointer) (t : tlf_ID) (blk : Block) :
  0 < transientCapacity ->
  NewBlockCacheStandard transientCapacity cleanBytesCapacity = Some b0 ->
  run hash b0 os = Returned b ->
  (forall hp b',
     PutWithPrefetch hash b ptr t blk TransientEntry hp = Returned (b', None) ->
     snd (GetWithPrefetch b' ptr)
     = (Some blk,
        hp || match transientLookup b (ID ptr) with
              | Some (IContainer bc) => hasPrefetched bc
              | _ => false
              end,
        TransientEntry, None) /\
     snd (Get b' ptr) = (Some blk, None)) /\
  (forall b',
     Put hash b ptr t blk TransientEntry = Returned (b', None) ->
     snd (GetWithPrefetch b' ptr) = (Some blk, true, TransientEntry, None)).
Proof.
  intros Hcap Hnew Hrun.
  destruct (reachable_shaped hash _ _ _ _ _ Hnew Hrun) as (Hwf & _ & _ & Hids).
  destruct (Hids Hcap) as (i & Hi & Hszi).
  unfold wellFormed in Hwf. rewrite Hi in Hwf.
  destruct (cleanTransient b) as [c|] eqn:Hc; [|done]. destruct Hwf as [_ Hszc].
  assert (Hgen : forall hp b',
     PutWithPrefetch hash b ptr t blk TransientEntry hp = Returned (b', None) ->
     snd (GetWithPrefetch b' ptr)
     = (Some blk,
        hp || match transientLookup b (ID ptr) with
              | Some (IContainer bc) => hasPrefetched bc
              | _ => false
              end,
        TransientEntry, None)).
  { intros hp b' Hput.
    pose proof (put_success_cacheable _ _ _ _ _ _ Hput) as Hblk.
    pose proof (put_transient_flag b c ptr t blk hp b' Hblk Hc Hszc Hput) as Hl.
    rewrite (GetWithPrefetch_transient_hit _ _ _ Hl). simpl.
    unfold transientLookup. by rewrite Hc. }
  split.
  - intros hp b' Hput. split; [by apply Hgen|].
    eapply Get_of_GetWithPrefetch. by apply Hgen.
  - intros b' HP. unfold Put in HP. by rewrite (Hgen true b' HP).
Qed.

Lemma PutWithPrefetch_cleanPermanent b ptr t blk lifetime hp b' e :
  PutWithPrefetch hash b ptr t blk lifetime hp = Returned (b', e) ->
  cleanPermanent b' = cleanPermanent b \/
  (lifetime = PermanentEntry /\
   cleanPermanent b' = <[ID ptr:=blk]> (cleanPermanent b)).
Proof.
  intros Hput.
  assert (Hcases : cacheable blk \/ ~ cacheable blk)
    by (destruct blk; simpl; tauto).
  destruct Hcases as [Hblk|Hblk].
  2:{ left. destruct blk; simpl in Hblk; try tauto; by injection Hput as <- <-. }
  destruct lifetime.
  - left. destruct blk; simpl in Hblk; try tauto; by injection Hput as <- <-.
  - left. rewrite PutWithPrefetch_Transient in Hput by done.
    pose proof (putRecordHash_frame hash b ptr t blk) as Hframe. cbv zeta in Hframe.
    destruct (putRecordHash hash b ptr t blk) as [b1 ptr1]. simpl in Hframe.
    destruct Hframe as (_ & _ & Hp1 & _).
    destruct (cleanTransient b1) as [c|]; [|injection Hput as <- <-; done].
    destruct (lru.Get c (ID ptr1)) as [c' [[[old h0]|q]|]]; try done;
      apply putFinish_sameRest in Hput as (_ & _ & ->); done.
  - right. split; [done|]. rewrite PutWithPrefetch_Permanent in Hput by done.
    by apply putFinish_sameRest in Hput as (_ & _ & ->).
  - left. destruct blk; simpl in Hblk; try tauto; by injection Hput as <- <-.
Qed.

Lemma step_leavesPermanent id b o b' :
  leavesPermanent id o -> step hash b o = Returned b' ->
  permanentLookup b' id = permanentLookup b id.
Proof.
  unfold permanentLookup.
  destruct o as [ptr t blk lt hp|id'|ptr t|t fb|ptr|t fb|capacity]; simpl.
  - intros Hl. destruct (PutWithPrefetch hash b ptr t blk lt hp) as [[b1 e]| |] eqn:Hput;
      try done.
    intros [= <-].
    destruct (PutWithPrefetch_cleanPermanent _ _ _ _ _ _ _ _ Hput) as [->|[-> ->]];
      [done|]. by apply lookup_insert_ne.
  - intros Hne [= <-]. unfold DeletePermanent.
    destruct (cleanPermanent b !! id') eqn:Hl'; [|done]. simpl.
    unfold subtractBlockBytes. simpl.
    destruct (_ >=? _); simpl; by apply lookup_delete_ne.
  - intros _ [= <-]. unfold DeleteTransient.
    destruct (cleanTransient b) as [c|]; [|done].
    destruct (lru.Get c (ID ptr)) as [c' [[bc|q]|]]; simpl; try done.
    match goal with
    | |- cleanPermanent (transientRemove ?s ?k) !! _ = _ =>
        pose proof (transientRemove_sameRest s k) as (_ & _ & ->)
    end.
    destruct (ids b); [|done]. destruct (block bc); try done.
    by destruct (IsInd (fileCommon f)).
  - intros _ [= <-]. unfold DeleteKnownPtr.
    destruct (IsInd (fileCommon fb)); [done|]. by destruct (ids b).
  - intros _ [= <-]. unfold Get, GetWithPrefetch.
    destruct (cleanTransient b) as [c|].
    + destruct (lru.Get c (ID ptr)) as [c' [[bc|q]|]]; simpl; try done.
      by destruct (cleanPermanent b !! ID ptr).
    + by destruct (cleanPermanent b !! ID ptr).
  - intros _ [= <-]. unfold CheckForKnownPtr.
    destruct (IsInd (fileCommon fb)); [done|]. destruct (ids b) as [i|]; [|done].
    by destruct (lru.Get i _) as [i' [[bc|q]|]].
  - by intros _ [= <-].
Qed.

Lemma run_leavesPermanent id os : forall b b',
  Forall (leavesPermanent id) os -> run hash b os = Returned b' ->
  permanentLookup b' id = permanentLookup b id.
Proof.
  induction os as [|o os IH]; intros b b' Hall Hrun; simpl in Hrun.
  - by injection Hrun as <-.
  - apply Forall_cons in Hall as [Ho Hall].
    destruct (step hash b o) as [b1| |] eqn:Hstep; try done.
    rewrite (IH _ _ Hall Hrun). by eapply step_leavesPermanent.
Qed.

(** X4. A block put with [PermanentEntry] stays in the permanent store
    through every sequence of operations that contains neither a
    [DeletePermanent] of its ID nor another Permanent put under it: puts,
    evictions, transient deletes, lookups and capacity changes never remove
    it.  [GetWithPrefetch] then returns it with [hasPrefetched = true] and
    [PermanentEntry], unless the transient store holds an entry under the
    same ID, which is served first. *)
Theorem X4_permanent_block_is_never_evicted
  (b : BlockCacheStandard) (ptr : BlockPointer) (t : tlf_ID) (blk : Block)
  (hp : bool) (os : list op) (b1 b2 : BlockCacheStandard) :
  PutWithPrefetch hash b ptr t blk PermanentEntry hp = Returned (b1, None) ->
  Forall (leavesPermanent (ID ptr)) os ->
  run hash b1 os = Returned b2 ->
  permanentLookup b2 (ID ptr) = Some blk /\
  match transientLookup b2 (ID ptr) with
  | None =>
      snd (GetWithPrefetch b2 ptr) = (Some blk, true, PermanentEntry, None) /\
      snd (Get b2 ptr) = (Some blk, None)
  | Some (IContainer bc) =>
      snd (GetWithPrefetch b2 ptr)
      = (Some (block bc), hasPrefetched bc, TransientEntry, None)
  | Some _ =>
      snd (GetWithPrefetch b2 ptr)
      = (None, false, NoCacheEntry, Some (BadDataError (ID ptr)))
  end.
Proof.
  intros Hput Hall Hrun.
  assert (Hblk : cacheable blk) by by destruct blk.
  assert (Hl1 : permanentLookup b1 (ID ptr) = Some blk).
  { rewrite PutWithPrefetch_Permanent in Hput by done.
    apply putFinish_sameRest in Hput as (_ & _ & Hp).
    unfold permanentLookup. rewrite Hp. apply lookup_insert_eq. }
  assert (Hl2 : permanentLookup b2 (ID ptr) = Some blk).
  { by rewrite (run_leavesPermanent _ _ _ _ Hall Hrun). }
  split; [done|].
  unfold transientLookup, permanentLookup, GetWithPrefetch, Get, GetWithPrefetch in *.
  destruct (cleanTransient b2) as [c|]; simpl.
  - unfold lru.Get. destruct (lru.find (ID ptr) (lru.items c)) as [[bc|q]|];
      simpl; try done. by rewrite Hl2.
  - by rewrite Hl2.
Qed.

End RoundTrips.

(** ** Puts that return an error *)

Section PutErrors.

Variable hash : list Z -> RawDefaultHash.

(** Whatever the byte counts, the eviction loop stops when the block fits
    or when the transient store is empty. *)
Lemma makeRoomLoop_stops size cap fuel : forall b c oldLen b',
  makeRoomLoop fuel size cap oldLen b = Some b' ->
  cleanTransient b = Some c ->
  (oldLen = transientLen b -> lru.items c = []) ->
  wrap64 (cleanTotalBytes b' + size) <= cap \/
  cleanTransient b' = Some {| lru.size := lru.size c; lru.items := [] |}.
Proof.
  induction fuel as [|fuel IH]; intros b c oldLen b' Hloop Hc Hold;
    [discriminate|].
  simpl in Hloop.
  destruct (wrap64 (cleanTotalBytes b + size) >? cap) eqn:Hgt.
  2:{ injection Hloop as <-. left. lia. }
  destruct (oldLen =? transientLen b) eqn:Heq.
  { apply Z.eqb_eq in Heq. injection Hloop as <-. right.
    rewrite Hc. f_equal. specialize (Hold Heq). destruct c. simpl in *.
    by rewrite Hold. }
  unfold transientRemoveOldest in Hloop. rewrite Hc in Hloop.
  destruct (RemoveOldest_spec c) as [[Hnil Heqr]|(l & ev & Hl & Heqr)];
    rewrite Heqr in Hloop.
  - by apply (IH _ c _ _ Hloop (evicted_transient _ _ _)).
  - apply (IH _ _ _ _ Hloop (evicted_transient _ _ _)).
    intros Hlen. exfalso. revert Hlen. unfold transientLen.
    rewrite evicted_transient, Hc. unfold lru.Len. simpl.
    rewrite Hl, length_app. simpl. lia.
Qed.

(** [makeRoomForSize] answers [false] for a Transient put only after it has
    emptied the transient store, and the block still does not fit. *)
Lemma makeRoomForSize_refused b c size b' :
  makeRoomForSize b size TransientEntry = Some (b', false) ->
  cleanTransient b = Some c ->
  cleanTransient b' = Some {| lru.size := lru.size c; lru.items := [] |} /\
  sameRest b b' /\
  cleanBytesCapacity b < wrap64 (cleanTotalBytes b' + size).
Proof.
  intros Hm Hc.
  pose proof (makeRoomForSize_sameRest _ _ _ _ _ Hm) as Hsame.
  unfold makeRoomForSize, GetCleanBytesCapacity in Hm. rewrite Hc in Hm.
  destruct (makeRoomLoop _ _ _ _ _) as [b1|] eqn:Hloop; [|discriminate].
  destruct (wrap64 (cleanTotalBytes b1 + size) >? cleanBytesCapacity b) eqn:Hgt;
    [|discriminate].
  injection Hm as <-.
  destruct (makeRoomLoop_stops _ _ _ _ _ _ _ Hloop Hc) as [Hfit|Hempty].
  - unfold transientLen. rewrite Hc. lia.
  - lia.
  - split; [done|]. split; [done|]. lia.
Qed.

(** X5. The errors of [PutWithPrefetch].  A put that returns an error has
    either refused its arguments (a common block, an unknown block type or
    an unknown lifetime) and left the cache exactly as it was, or it is a
    Transient put of an ID absent from the transient store that returns
    [cachePutCacheFullError] for that ID; in that case every transient
    entry has been evicted, the block still does not fit the byte capacity
    beside what is left charged, and the permanent store and the capacity
    are untouched. *)
Theorem X5_put_errors
  (b : BlockCacheStandard) (ptr : BlockPointer) (t : tlf_ID) (blk : Block)
  (lifetime : BlockCacheLifetime) (hp : bool) (b' : BlockCacheStandard)
  (e : error) :
  PutWithPrefetch hash b ptr t blk lifetime hp = Returned (b', Some e) ->
  (b' = b /\
   ((exists c, blk = CommonBlockOf c) /\ e = AttemptedCommonBlockError \/
    (exists n, blk = OtherBlock n) /\ e = UnknownBlockTypeError \/
    cacheable blk /\ (exists n, lifetime = OtherLifetime n) /\
    e = UnknownLifetimeError)) \/
  (cacheable blk /\ lifetime = TransientEntry /\
   e = cachePutCacheFullError (ID ptr) /\
   transientLookup b (ID ptr) = None /\
   (exists c, cleanTransient b = Some c /\
      cleanTransient b' = Some {| lru.size := lru.size c; lru.items := [] |}) /\
   cleanPermanent b' = cleanPermanent b /\
   cleanBytesCapacity b' = cleanBytesCapacity b /\
   cleanBytesCapacity b < wrap64 (cleanTotalBytes b' + getCachedBlockSize blk)).
Proof.
  intros Hput.
  assert (Hcases : cacheable blk \/ ~ cacheable blk)
    by (destruct blk; simpl; tauto).
  destruct Hcases as [Hblk|Hblk].
  2:{ left. destruct blk; simpl in Hblk; try tauto; injection Hput as <- <-;
        (split; [done|]); [left|right; left]; by eauto. }
  destruct lifetime.
  - destruct blk; simpl in Hblk; try tauto; discriminate.
  - right. rewrite PutWithPrefetch_Transient in Hput by done.
    pose proof (putRecordHash_frame hash b ptr t blk) as Hframe.
    cbv zeta in Hframe.
    destruct (putRecordHash hash b ptr t blk) as [b1 ptr1]. simpl in Hframe.
    destruct Hframe as (Hid & Ht1 & Hp1 & Htot1 & Hcap1).
    rewrite Ht1 in Hput.
    destruct (cleanTransient b) as [c|] eqn:Hc; [|discriminate].
    unfold transientLookup. rewrite Hc.
    destruct (lru.find (ID ptr1) (lru.items c)) as [[[old h0]|q]|] eqn:Hf.
    + rewrite (Get_hit _ _ _ Hf) in Hput. unfold putFinish in Hput.
      simpl in Hput. discriminate.
    + rewrite (Get_hit _ _ _ Hf) in Hput. discriminate.
    + rewrite (Get_miss _ _ Hf) in Hput. unfold putFinish in Hput.
      simpl in Hput.
      destruct (makeRoomForSize _ _ _) as [[b2 ok]|] eqn:Hm; [|discriminate].
      destruct ok; simpl in Hput; [discriminate|]. injection Hput as <- <-.
      destruct (makeRoomForSize_refused _ c _ _ Hm eq_refl)
        as (Hc2 & (Hcap2 & _ & Hp2) & Hfull).
      simpl in Hcap2, Hp2, Hfull.
      rewrite <- Hid. split; [done|]. split; [done|]. split; [done|].
      split; [done|]. split; [by exists c|].
      split; [by rewrite Hp2|]. split; [by rewrite Hcap2|].
      by rewrite <- Hcap1.
  - rewrite PutWithPrefetch_Permanent in Hput by done.
    unfold putFinish in Hput.
    destruct (if negb _ then _ else _) as [[b2 ok]|]; discriminate.
  - left. destruct blk; simpl in Hblk; try tauto; injection Hput as <- <-;
      (split; [done|]); right; right; by eauto.
Qed.

End PutErrors.

(** ** The byte capacity *)

Lemma lowers_refl b : lowers b b.
Proof. unfold lowers. lia. Qed.

Lemma lowers_trans b1 b2 b3 : lowers b1 b2 -> lowers b2 b3 -> lowers b1 b3.
Proof. unfold lowers. intros H12 H23 H. specialize (H12 H). lia. Qed.

Lemma lowers_same b b' : cleanTotalBytes b' = cleanTotalBytes b -> lowers b b'.
Proof. unfold lowers. lia. Qed.

Lemma lowers_subtractBlockBytes b blk : lowers b (subtractBlockBytes b blk).
Proof.
  unfold lowers, subtractBlockBytes. intros Hn.
  pose proof (getCachedBlockSize_range blk).
  destruct (_ >=? _) eqn:E; simpl; [|lia].
  apply Z.geb_le in E. lia.
Qed.

Lemma lowers_evicted b ev : lowers b (evicted b ev).
Proof.
  destruct ev as [[k [bc|q]]|]; simpl; try apply lowers_refl.
  apply lowers_subtractBlockBytes.
Qed.

Lemma lowers_transientRemoveOldest b : lowers b (transientRemoveOldest b).
Proof.
  unfold transientRemoveOldest. destruct (cleanTransient b) as [c|];
    [|apply lowers_refl].
  destruct (lru.RemoveOldest c) as [c' ev].
  eapply lowers_trans; [|apply lowers_evicted]. by apply lowers_same.
Qed.

Lemma lowers_transientAdd b k v : lowers b (transientAdd b k v).
Proof.
  unfold transientAdd. destruct (cleanTransient b) as [c|]; [|apply lowers_refl].
  destruct (lru.Add c k v) as [c' ev].
  eapply lowers_trans; [|apply lowers_evicted]. by apply lowers_same.
Qed.

Lemma lowers_transientRemove b k : lowers b (transientRemove b k).
Proof.
  unfold transientRemove. destruct (cleanTransient b) as [c|];
    [|apply lowers_refl].
  destruct (lru.Remove c k) as [c' ev].
  eapply lowers_trans; [|apply lowers_evicted]. by apply lowers_same.
Qed.

Lemma lowers_makeRoomLoop size cap fuel : forall b oldLen b',
  makeRoomLoop fuel size cap oldLen b = Some b' -> lowers b b'.
Proof.
  induction fuel as [|fuel IH]; intros b oldLen b' Hloop; [discriminate|].
  simpl in Hloop.
  destruct (_ >? _); [|injection Hloop as <-; apply lowers_refl].
  destruct (_ =? _); [injection Hloop as <-; apply lowers_refl|].
  eapply lowers_trans; [apply lowers_transientRemoveOldest|].
  by eapply IH.
Qed.

(** For a Transient put, [makeRoomForSize] answers [true] with a byte count
    within the capacity, and [false] with a byte count it has only
    lowered. *)
Lemma makeRoomForSize_within b size b' ok :
  makeRoomForSize b size TransientEntry = Some (b', ok) ->
  0 <= cleanTotalBytes b ->
  0 <= cleanTotalBytes b' /\
  (if ok then cleanTotalBytes b' <= cleanBytesCapacity b
   else cleanTotalBytes b' <= cleanTotalBytes b).
Proof.
  unfold makeRoomForSize, GetCleanBytesCapacity. intros Hm Hn.
  destruct (cleanTransient b) as [c|].
  2:{ injection Hm as <- <-. lia. }
  destruct (makeRoomLoop _ _ _ _ _) as [b1|] eqn:Hloop; [|discriminate].
  pose proof (lowers_makeRoomLoop _ _ _ _ _ _ Hloop Hn) as Hlow.
  destruct (wrap64 (cleanTotalBytes b1 + size) >? cleanBytesCapacity b) eqn:Hgt;
    injection Hm as <- <-; simpl; [lia|].
  pose proof (wrap64_nonneg (cleanTotalBytes b1 + size)). lia.
Qed.

Section ByteCapacity.

Variable hash : list Z -> RawDefaultHash.

Lemma put_transient_within b ptr t blk hp b' e :
  PutWithPrefetch hash b ptr t blk TransientEntry hp = Returned (b', e) ->
  0 <= cleanTotalBytes b <= cleanBytesCapacity b ->
  0 <= cleanTotalBytes b' <= cleanBytesCapacity b' /\
  cleanBytesCapacity b' = cleanBytesCapacity b.
Proof.
  intros Hput Hin.
  assert (Hcases : cacheable blk \/ ~ cacheable blk)
    by (destruct blk; simpl; tauto).
  destruct Hcases as [Hblk|Hblk].
  2:{ destruct blk; simpl in Hblk; try tauto; by injection Hput as <- <-. }
  rewrite PutWithPrefetch_Transient in Hput by done.
  pose proof (putRecordHash_frame hash b ptr t blk) as Hframe.
  cbv zeta in Hframe.
  destruct (putRecordHash hash b ptr t blk) as [b1 ptr1]. simpl in Hframe.
  destruct Hframe as (_ & _ & _ & Htot1 & Hcap1).
  destruct (cleanTransient b1) as [c|]; [|injection Hput as <- <-; lia].
  destruct (lru.Get c (ID ptr1)) as [c' [[[old h0]|q]|]]; [|done|].
  - unfold putFinish in Hput. simpl in Hput. injection Hput as <- <-.
    pose proof (transientAdd_sameRest (withTransient b1 c') (ID ptr1)
      (IContainer {| block := blk; hasPrefetched := hp || h0 |})) as (Hcap & _).
    pose proof (lowers_transientAdd (withTransient b1 c') (ID ptr1)
      (IContainer {| block := blk; hasPrefetched := hp || h0 |})) as Hlow.
    unfold lowers in Hlow. simpl in Hcap, Hlow. rewrite Hcap. lia.
  - unfold putFinish in Hput. simpl in Hput.
    destruct (makeRoomForSize _ _ _) as [[b2 ok]|] eqn:Hm; [|done].
    pose proof (makeRoomForSize_sameRest _ _ _ _ _ Hm) as (Hcap2 & _).
    destruct (makeRoomForSize_within _ _ _ _ Hm) as (Hn2 & Hle2);
      [simpl; lia|].
    simpl in Hcap2, Hle2.
    destruct ok; simpl in Hput; injection Hput as <- <-; [|lia].
    pose proof (transientAdd_sameRest b2 (ID ptr1)
      (IContainer {| block := blk; hasPrefetched := hp |})) as (Hcap & _).
    pose proof (lowers_transientAdd b2 (ID ptr1)
      (IContainer {| block := blk; hasPrefetched := hp |}) Hn2) as Hlow.
    rewrite Hcap. lia.
Qed.

Lemma step_within b o b' :
  transientOnly o -> step hash b o = Returned b' ->
  0 <= cleanTotalBytes b <= cleanBytesCapacity b ->
  0 <= cleanTotalBytes b' <= cleanBytesCapacity b' /\
  cleanBytesCapacity b' = cleanBytesCapacity b.
Proof.
  destruct o as [ptr t blk lt hp|id|ptr t|t fb|ptr|t fb|capacity]; simpl;
    intros Hto Hstep Hin.
  - destruct (PutWithPrefetch hash b ptr t blk lt hp) as [[b1 e]| |] eqn:Hput;
      try done.
    injection Hstep as <-. destruct lt; try done.
    + destruct blk; by injection Hput as <- <-.
    + by eapply put_transient_within.
    + destruct blk; by injection Hput as <- <-.
  - injection Hstep as <-. unfold DeletePermanent.
    destruct (cleanPermanent b !! id) as [blk|]; [|done]. simpl.
    pose proof (lowers_subtractBlockBytes
                  (withPermanent b (delete id (cleanPermanent b))) blk) as Hlow.
    unfold lowers in Hlow. simpl in Hlow.
    assert (Hcap : cleanBytesCapacity
                     (subtractBlockBytes
                        (withPermanent b (delete id (cleanPermanent b))) blk)
                   = cleanBytesCapacity b).
    { unfold subtractBlockBytes. by destruct (_ >=? _). }
    rewrite Hcap. lia.
  - injection Hstep as <-. unfold DeleteTransient.
    destruct (cleanTransient b) as [c|]; [|done].
    destruct (lru.Get c (ID ptr)) as [c' [[bc|q]|]]; simpl; try done.
    match goal with
    | |- context [transientRemove ?s ?k] =>
        pose proof (transientRemove_sameRest s k) as (Hcap & _);
        pose proof (lowers_transientRemove s k) as Hlow;
        assert (Hs : cleanTotalBytes s = cleanTotalBytes b /\
                     cleanBytesCapacity s = cleanBytesCapacity b)
    end.
    { destruct (ids b); [|done]. destruct (block bc); try done.
      by destruct (IsInd (fileCommon f)). }
    unfold lowers in Hlow. destruct Hs as [Hs1 Hs2].
    rewrite Hs1 in Hlow. rewrite Hcap, Hs2. lia.
  - injection Hstep as <-. unfold DeleteKnownPtr.
    destruct (IsInd (fileCommon fb)); [done|]. by destruct (ids b).
  - injection Hstep as <-. unfold Get, GetWithPrefetch.
    destruct (cleanTransient b) as [c|].
    + destruct (lru.Get c (ID ptr)) as [c' [[bc|q]|]]; simpl; try done.
      by destruct (cleanPermanent b !! ID ptr).
    + by destruct (cleanPermanent b !! ID ptr).
  - injection Hstep as <-. unfold CheckForKnownPtr.
    destruct (IsInd (fileCommon fb)); [done|]. destruct (ids b) as [i|]; [|done].
    by destruct (lru.Get i _) as [i' [[bc|q]|]].
  - done.
Qed.

Lemma run_within os : forall b b',
  Forall transientOnly os -> run hash b os = Returned b' ->
  0 <= cleanTotalBytes b <= cleanBytesCapacity b ->
  0 <= cleanTotalBytes b' <= cleanBytesCapacity b' /\
  cleanBytesCapacity b' = cleanBytesCapacity b.
Proof.
  induction os as [|o os IH]; intros b b' Hall Hrun Hin; simpl in Hrun.
  - by injection Hrun as <-.
  - apply Forall_cons in Hall as [Ho Hall].
    destruct (step hash b o) as [b1| |] eqn:Hstep; try done.
    destruct (step_within _ _ _ Ho Hstep Hin) as [Hin1 Hcap1].
    destruct (IH _ _ Hall Hrun Hin1) as [Hin' Hcap']. split; [done|].
    by rewrite Hcap'.
Qed.

(** X6. A cache on which no Permanent put is made and whose byte capacity
    is not changed never counts more bytes than its capacity: after every
    sequence of Transient puts, deletes and lookups on a new cache,
    [cleanTotalBytes] is at most the [cleanBytesCapacity] it was
    constructed with. *)
Theorem X6_transient_puts_respect_byte_capacity
  (transientCapacity capacity : Z) (os : list op) :
  0 <= capacity ->
  Forall transientOnly os ->
  exists b0 b,
    NewBlockCacheStandard transientCapacity capacity = Some b0 /\
    run hash b0 os = Returned b /\
    GetCleanBytesCapacity b = capacity /\
    0 <= cleanTotalBytes b <= capacity.
Proof.
  intros Hcap Hall.
  destruct (new_then_run hash transientCapacity capacity os)
    as (b0 & b & Hnew & Hrun).
  exists b0, b. split; [done|]. split; [done|].
  assert (Hb0 : cleanTotalBytes b0 = 0 /\ cleanBytesCapacity b0 = capacity).
  { unfold NewBlockCacheStandard in Hnew.
    destruct (transientCapacity >? 0); [|by injection Hnew as <-].
    destruct (lru.New transientCapacity); [|done].
    destruct (lru.New transientCapacity); [|done]. by injection Hnew as <-. }
  destruct Hb0 as [Ht0 Hc0].
  destruct (run_within _ _ _ Hall Hrun) as [Hin Hc]; [lia|].
  unfold GetCleanBytesCapacity. rewrite Hc, Hc0. split; [done|]. lia.
Qed.

End ByteCapacity.

(** ** Lookups *)

Lemma GetWithPrefetch_result b ptr :
  snd (GetWithPrefetch b ptr) =
  match transientLookup b (ID ptr) with
  | Some (IContainer bc) =>
      (Some (block bc), hasPrefetched bc, TransientEntry, None)
  | Some _ => (None, false, NoCacheEntry, Some (BadDataError (ID ptr)))
  | None =>
      match permanentLookup b (ID ptr) with
      | Some blk => (Some blk, true, PermanentEntry, None)
      | None => (None, false, NoCacheEntry, Some (NoSuchBlockError (ID ptr)))
      end
  end.
Proof.
  unfold GetWithPrefetch, transientLookup, permanentLookup.
  destruct (cleanTransient b) as [c|].
  - unfold lru.Get. destruct (lru.find (ID ptr) (lru.items c)) as [[bc|q]|];
      simpl; try done. by destruct (cleanPermanent b !! ID ptr).
  - by destruct (cleanPermanent b !! ID ptr).
Qed.

Lemma sameContents_refl b : sameContents b b.
Proof. by repeat split. Qed.

Lemma sameContents_GetWithPrefetch b ptr :
  sameContents b (fst (GetWithPrefetch b ptr)).
Proof.
  unfold GetWithPrefetch. destruct (cleanTransient b) as [c|] eqn:Hc.
  - assert (Hsame : sameContents b (withTransient b (fst (lru.Get c (ID ptr))))).
    { unfold sameContents, transientLookup, idsLookup. simpl. rewrite Hc.
      split; [|done]. intros id. apply Get_find. }
    destruct (lru.Get c (ID ptr)) as [c' [[bc|q]|]]; simpl in *; try done.
    by destruct (cleanPermanent b !! ID ptr).
  - destruct (cleanPermanent b !! ID ptr); apply sameContents_refl.
Qed.

Lemma sameContents_GetWithPrefetch_result b b' ptr :
  sameContents b b' ->
  snd (GetWithPrefetch b' ptr) = snd (GetWithPrefetch b ptr).
Proof.
  intros (Ht & _ & Hp & _). rewrite !GetWithPrefetch_result.
  unfold permanentLookup. by rewrite Ht, Hp.
Qed.

Section Lookups.

Variable hash : list Z -> RawDefaultHash.

Lemma CheckForKnownPtr_result b t fb :
  snd (CheckForKnownPtr hash b t fb) =
  if IsInd (fileCommon fb) then (zeroBlockPointer, Some NotDirectFileBlockError)
  else
    match idsLookup b {| tlf := t; plaintextHash := GetHash hash fb |} with
    | Some (IPointer ptr) => (ptr, None)
    | Some _ => (zeroBlockPointer, Some UnexpectedCachedIDError)
    | None => (zeroBlockPointer, None)
    end.
Proof.
  unfold CheckForKnownPtr, idsLookup. destruct (IsInd (fileCommon fb)); [done|].
  destruct (ids b) as [i|]; [|done]. unfold lru.Get.
  by destruct (lru.find _ (lru.items i)) as [[bc|q]|].
Qed.

Lemma sameContents_CheckForKnownPtr b t fb :
  sameContents b (fst (CheckForKnownPtr hash b t fb)).
Proof.
  unfold CheckForKnownPtr.
  destruct (IsInd (fileCommon fb)); [apply sameContents_refl|].
  destruct (ids b) as [i|] eqn:Hi; [|apply sameContents_refl].
  set (key := {| tlf := t; plaintextHash := GetHash hash fb |}).
  assert (Hsame : sameContents b (withIds b (fst (lru.Get i key)))).
  { unfold sameContents, transientLookup, idsLookup. simpl. rewrite Hi.
    split; [done|]. split; [|done]. intros key'. apply Get_find. }
  by destruct (lru.Get i key) as [i' [[bc|q]|]].
Qed.

Lemma sameContents_CheckForKnownPtr_result b b' t fb :
  sameContents b b' ->
  snd (CheckForKnownPtr hash b' t fb) = snd (CheckForKnownPtr hash b t fb).
Proof.
  intros (_ & Hi & _). rewrite !CheckForKnownPtr_result. by rewrite Hi.
Qed.

(** X7. Lookups change nothing but the recency order.  After
    [GetWithPrefetch], [Get] or [CheckForKnownPtr], whatever they returned,
    the cache holds the same value under every key of the transient store
    and of the dedup index, the same permanent store, byte count and byte
    capacity; every later [GetWithPrefetch] and [CheckForKnownPtr] answers
    as it would have answered before. *)
Theorem X7_lookups_change_only_recency (b : BlockCacheStandard) :
  (forall ptr,
     let b' := fst (GetWithPrefetch b ptr) in
     fst (Get b ptr) = b' /\
     sameContents b b' /\
     (forall ptr', snd (GetWithPrefetch b' ptr') = snd (GetWithPrefetch b ptr')) /\
     (forall t fb,
        snd (CheckForKnownPtr hash b' t fb) = snd (CheckForKnownPtr hash b t fb))) /\
  (forall t fb,
     let b' := fst (CheckForKnownPtr hash b t fb) in
     sameContents b b' /\
     (forall ptr', snd (GetWithPrefetch b' ptr') = snd (GetWithPrefetch b ptr')) /\
     (forall t' fb',
        snd (CheckForKnownPtr hash b' t' fb')
        = snd (CheckForKnownPtr hash b t' fb'))).
Proof.
  split.
  - intros ptr b'. pose proof (sameContents_GetWithPrefetch b ptr) as Hsame.
    split.
    { unfold Get, b'. by destruct (GetWithPrefetch b ptr) as [b1 [[[blk hp] lt] err]]. }
    split; [done|]. split.
    + intros ptr'. by apply sameContents_GetWithPrefetch_result.
    + intros t fb. by apply sameContents_CheckForKnownPtr_result.
  - intros t fb b'. pose proof (sameContents_CheckForKnownPtr b t fb) as Hsame.
    split; [done|]. split.
    + intros ptr'. by apply sameContents_GetWithPrefetch_result.
    + intros t' fb'. by apply sameContents_CheckForKnownPtr_result.
Qed.

End Lookups.

(** ** Deletes *)

Lemma Remove_find {K : Type} `{EqDecision K} (c : lru.Cache K) (k k' : K) :
  lru.find k' (lru.items (fst (lru.Remove c k)))
  = if decide (k = k') then None else lru.find k' (lru.items c).
Proof.
  unfold lru.Remove. destruct (lru.find k (lru.items c)) eqn:Hf; simpl.
  - destruct (decide (k = k')) as [<-|Hne]; [apply find_drop_eq|].
    by apply find_drop_ne.
  - destruct (decide (k = k')) as [<-|Hne]; done.
Qed.

Lemma transientRemove_found s c k v :
  cleanTransient s = Some c -> lru.find k (lru.items c) = Some v ->
  transientRemove s k
  = evicted
      (withTransient s {| lru.size := lru.size c;
                          lru.items := lru.drop k (lru.items c) |})
      (Some (k, v)).
Proof.
  intros Hc Hf. unfold transientRemove, lru.Remove. by rewrite Hc, Hf.
Qed.

Lemma subtractBlockBytes_total b blk :
  cleanTotalBytes (subtractBlockBytes b blk)
  = Z.max 0 (cleanTotalBytes b - getCachedBlockSize blk).
Proof.
  unfold subtractBlockBytes.
  destruct (_ >=? _) eqn:E; simpl.
  - apply Z.geb_le in E. lia.
  - rewrite Z.geb_leb in E. apply Z.leb_gt in E. lia.
Qed.

Section Deletes.

Variable hash : list Z -> RawDefaultHash.

(** X8. [DeleteTransient] removes one entry and nothing else.  When the
    transient store holds a block under the pointer's ID, the entry is
    removed, the byte count is debited by the size of that block and stops
    at 0, and, if the block is a direct file block, the index entry of the
    given folder and of its plaintext is removed too.  When the store holds
    nothing under the ID, the cache is left exactly as it was; when it
    holds a value that is not a block container, [BadDataError] is returned
    and the value stays.  In every case the entries under other IDs, the
    index entries under other keys, the permanent store and the byte
    capacity are untouched. *)
Theorem X8_DeleteTransient_removes_one_entry
  (b : BlockCacheStandard) (ptr : BlockPointer) (t : tlf_ID) :
  let r := DeleteTransient hash b ptr t in
  (forall id, id <> ID ptr ->
     transientLookup (fst r) id = transientLookup b id) /\
  cleanPermanent (fst r) = cleanPermanent b /\
  cleanBytesCapacity (fst r) = cleanBytesCapacity b /\
  match transientLookup b (ID ptr) with
  | Some (IContainer bc) =>
      snd r = None /\
      transientLookup (fst r) (ID ptr) = None /\
      cleanTotalBytes (fst r)
      = Z.max 0 (cleanTotalBytes b - getCachedBlockSize (block bc)) /\
      match block bc with
      | FileBlockOf fb =>
          if IsInd (fileCommon fb) then ids (fst r) = ids b
          else
            let key := {| tlf := t; plaintextHash := hash (Contents fb) |} in
            idsLookup (fst r) key = None /\
            (forall key', key' <> key ->
               idsLookup (fst r) key' = idsLookup b key')
      | _ => ids (fst r) = ids b
      end
  | Some v =>
      snd r = Some (BadDataError (ID ptr)) /\
      transientLookup (fst r) (ID ptr) = Some v /\
      cleanTotalBytes (fst r) = cleanTotalBytes b /\
      ids (fst r) = ids b
  | None => snd r = None /\ fst r = b
  end.
Proof.
  intros r. subst r. unfold DeleteTransient, transientLookup.
  destruct (cleanTransient b) as [c|] eqn:Hc; [|simpl; rewrite Hc; done].
  destruct (lru.find (ID ptr) (lru.items c)) as [v|] eqn:Hf.
  2:{ rewrite (Get_miss _ _ Hf), (withTransient_same _ _ Hc). simpl.
      by rewrite Hc. }
  rewrite (Get_hit _ _ _ Hf).
  set (c' := {| lru.size := lru.size c;
                lru.items := (ID ptr, v) :: lru.drop (ID ptr) (lru.items c) |}).
  assert (Hfind' : forall id, lru.find id (lru.items c') = lru.find id (lru.items c)).
  { intros id. simpl. destruct (decide (id = ID ptr)) as [->|Hne]; [done|].
    by apply find_drop_ne. }
  destruct v as [bc|q].
  2:{ simpl. split; [intros id _; apply Hfind'|]. split; [done|]. split; [done|].
      split; [done|]. split; [|done]. by destruct (decide _). }
  cbv zeta.
  set (b1 := match ids (withTransient b c'), block bc with
             | Some i, FileBlockOf fBlock =>
                 if negb (IsInd (fileCommon fBlock)) then
                   withIds (withTransient b c')
                     (fst (lru.Remove i
                             {| tlf := t; plaintextHash := hash (Contents fBlock) |}))
                 else withTransient b c'
             | _, _ => withTransient b c'
             end).
  assert (Hb1 : cleanTransient b1 = Some c' /\
                cleanPermanent b1 = cleanPermanent b /\
                cleanBytesCapacity b1 = cleanBytesCapacity b /\
                cleanTotalBytes b1 = cleanTotalBytes b).
  { subst b1. simpl. destruct (ids b); [|done]. destruct (block bc); try done.
    by destruct (IsInd (fileCommon f)). }
  destruct Hb1 as (Hc1 & Hp1 & Hcap1 & Htot1).
  assert (Hf1 : lru.find (ID ptr) (lru.items c') = Some (IContainer bc)).
  { simpl. by destruct (decide _). }
  simpl fst. simpl snd. unfold idsLookup.
  rewrite (transientRemove_found _ _ _ _ Hc1 Hf1).
  match goal with
  | |- context [evicted (withTransient b1 ?c2) ?ev] =>
      pose proof (evicted_sameRest b1 c2 ev) as (Hcap2 & Hids2 & Hp2);
      pose proof (evicted_transient b1 c2 ev) as Hc2;
      set (b2 := evicted (withTransient b1 c2) ev) in *
  end.
  rewrite Hc2, Hp2, Hp1, Hcap2, Hcap1, Hids2. simpl lru.items.
  split.
  { intros id Hne. destruct (decide (ID ptr = ID ptr)); [|done].
    destruct (decide (id = ID ptr)); [done|].
    rewrite !find_drop_ne by done. done. }
  split; [done|]. split; [done|]. split; [done|].
  split.
  { destruct (decide (ID ptr = ID ptr)); [|done]. apply find_drop_eq. }
  split.
  { subst b2. simpl. rewrite subtractBlockBytes_total. simpl. by rewrite Htot1. }
  clear Hc1 Hp1 Hcap1 Htot1 Hcap2 Hids2 Hp2 Hc2. clear b2. subst b1. simpl.
  destruct (block bc) as [d|fb|cb|n].
  - by destruct (ids b) eqn:Hi.
  - destruct (IsInd (fileCommon fb)); simpl; [by destruct (ids b) eqn:Hi|].
    destruct (ids b) as [i|] eqn:Hi; simpl; [|by rewrite Hi]. split.
    + rewrite Remove_find. by destruct (decide _).
    + intros key' Hne. rewrite Remove_find. by destruct (decide _).
  - by destruct (ids b) eqn:Hi.
  - by destruct (ids b) eqn:Hi.
Qed.

(** X9. [DeleteKnownPtr] forgets one entry of the dedup index and leaves
    the blocks alone.  For an indirect block it returns
    [NotDirectFileBlockError] and changes nothing.  For a direct block it
    returns no error; afterwards [CheckForKnownPtr] of that folder and
    block returns the zero pointer, the index entries under every other
    key are as before, and both stores, the byte count and the byte
    capacity are untouched, so that every [GetWithPrefetch] answers as
    before. *)
Theorem X9_DeleteKnownPtr_forgets_one_index_entry
  (b : BlockCacheStandard) (t : tlf_ID) (fb : FileBlock) :
  let r := DeleteKnownPtr hash b t fb in
  cleanTransient (fst r) = cleanTransient b /\
  cleanPermanent (fst r) = cleanPermanent b /\
  cleanTotalBytes (fst r) = cleanTotalBytes b /\
  cleanBytesCapacity (fst r) = cleanBytesCapacity b /\
  (forall ptr,
     snd (GetWithPrefetch (fst r) ptr) = snd (GetWithPrefetch b ptr)) /\
  if IsInd (fileCommon fb) then
    snd r = Some NotDirectFileBlockError /\ fst r = b
  else
    let key := {| tlf := t; plaintextHash := GetHash hash fb |} in
    snd r = None /\
    idsLookup (fst r) key = None /\
    snd (CheckForKnownPtr hash (fst r) t fb) = (zeroBlockPointer, None) /\
    (forall key', key' <> key -> idsLookup (fst r) key' = idsLookup b key').
Proof.
  intros r. subst r. unfold DeleteKnownPtr.
  destruct (IsInd (fileCommon fb)) eqn:Hind; [done|].
  destruct (ids b) as [i|] eqn:Hi.
  - simpl. split; [done|]. split; [done|]. split; [done|]. split; [done|].
    split.
    { intros ptr. rewrite !GetWithPrefetch_result. done. }
    assert (Hl : idsLookup
                   (withIds b
                      (fst (lru.Remove i
                              {| tlf := t; plaintextHash := hash (Contents fb) |})))
                   {| tlf := t; plaintextHash := GetHash hash fb |} = None).
    { unfold idsLookup, GetHash. simpl. rewrite Remove_find.
      by destruct (decide _). }
    split; [done|]. split; [done|]. split.
    + by rewrite CheckForKnownPtr_result, Hind, Hl.
    + intros key' Hne. unfold idsLookup, GetHash in *. simpl. rewrite Hi.
      rewrite Remove_find. by destruct (decide _).
  - simpl. split; [done|]. split; [done|]. split; [done|]. split; [done|].
    split; [done|]. split; [done|].
    assert (Hl : idsLookup b {| tlf := t; plaintextHash := GetHash hash fb |} = None)
      by (unfold idsLookup; by rewrite Hi).
    split; [done|]. split; [|done].
    by rewrite CheckForKnownPtr_result, Hind, Hl.
Qed.

End Deletes.

(** ** Putting twice *)

Lemma atFront_find {K : Type} `{EqDecision K} (c : lru.Cache K) k v :
  atFront k v c -> lru.find k (lru.items c) = Some v.
Proof. intros (tl & -> & _). simpl. by destruct (decide _). Qed.

Lemma atFront_refresh {K : Type} `{EqDecision K} (c : lru.Cache K) k v :
  atFront k v c ->
  {| lru.size := lru.size c; lru.items := (k, v) :: lru.drop k (lru.items c) |} = c.
Proof.
  intros (tl & Hitems & Htl). destruct c as [sz l]. simpl in *. subst l.
  simpl. destruct (decide (k = k)); [|done].
  by rewrite (drop_absent _ _ (find_None _ _ Htl)).
Qed.

Lemma atFront_Get {K : Type} `{EqDecision K} (c : lru.Cache K) k v :
  atFront k v c -> lru.Get c k = (c, Some v).
Proof.
  intros Hfront. rewrite (Get_hit _ _ _ (atFront_find _ _ _ Hfront)).
  by rewrite (atFront_refresh _ _ _ Hfront).
Qed.

Lemma atFront_Add {K : Type} `{EqDecision K} (c : lru.Cache K) k v :
  atFront k v c -> lru.Add c k v = (c, None).
Proof.
  intros Hfront. rewrite (Add_hit _ _ _ _ (atFront_find _ _ _ Hfront)).
  by rewrite (atFront_refresh _ _ _ Hfront).
Qed.

Lemma Add_atFront {K : Type} `{EqDecision K} (c : lru.Cache K) k v :
  0 < lru.size c -> atFront k v (fst (lru.Add c k v)).
Proof.
  intros Hsz. destruct (lru.find k (lru.items c)) as [old|] eqn:Hf.
  - rewrite (Add_hit _ _ _ _ Hf). simpl. eexists. split; [done|].
    apply find_drop_eq.
  - destruct (Add_miss c k v Hsz Hf) as [->|(l & ev & Hl & ->)]; simpl.
    + by exists (lru.items c).
    + exists l. split; [done|]. rewrite Hl in Hf. by eapply find_app_None.
Qed.

Lemma withIds_same b i : ids b = Some i -> withIds b i = b.
Proof. destruct b; simpl; by intros ->. Qed.

Lemma withPermanent_same b : withPermanent b (cleanPermanent b) = b.
Proof. by destruct b. Qed.

Lemma transientAdd_front b c k v :
  cleanTransient b = Some c -> atFront k v c -> transientAdd b k v = b.
Proof.
  intros Hc Hfront. unfold transientAdd. rewrite Hc, (atFront_Add _ _ _ Hfront).
  simpl. by apply withTransient_same.
Qed.

(** With an empty transient store and no room for the block,
    [makeRoomForSize] gives up at once. *)
Lemma makeRoomForSize_empty b c size :
  cleanTransient b = Some c -> lru.items c = [] ->
  cleanBytesCapacity b < wrap64 (cleanTotalBytes b + size) ->
  makeRoomForSize b size TransientEntry = Some (b, false).
Proof.
  intros Hc Hnil Hfull. unfold makeRoomForSize, GetCleanBytesCapacity.
  assert (Hlen : transientLen b = 0).
  { unfold transientLen, lru.Len. by rewrite Hc, Hnil. }
  assert (Hold : transientRemoveOldest b = b).
  { unfold transientRemoveOldest, lru.RemoveOldest. rewrite Hc, Hnil. simpl.
    by apply withTransient_same. }
  assert (Hgt : (wrap64 (cleanTotalBytes b + size) >? cleanBytesCapacity b) = true)
    by (apply Z.gtb_lt; lia).
  rewrite Hc, Hlen. simpl. rewrite Hgt, Hlen, Hold. simpl. rewrite Hgt, Hlen.
  simpl. by rewrite Hgt.
Qed.

Section PutTwice.

Variable hash : list Z -> RawDefaultHash.

Lemma putRecordHash_again b b1 ptr t blk :
  wellFormed b ->
  ids b1 = ids (fst (putRecordHash hash b ptr t blk)) ->
  putRecordHash hash b1 ptr t blk = (b1, snd (putRecordHash hash b ptr t blk)).
Proof.
  unfold wellFormed, putRecordHash. intros Hwf Hids.
  destruct (ids b) as [i|] eqn:Hi.
  2:{ assert (Hn : ids b1 = None).
      { destruct blk; simpl in Hids; by rewrite Hids. }
      rewrite Hn. by destruct blk. }
  destruct (cleanTransient b) as [c|]; [|done]. destruct Hwf as [Hszi _].
  destruct blk as [d|f|cb|n]; simpl in *; try by destruct (ids b1).
  destruct (IsInd (fileCommon f)); simpl in *; [by destruct (ids b1)|].
  rewrite Hids. rewrite atFront_Add; [|by apply Add_atFront].
  simpl. f_equal. by apply withIds_same.
Qed.

(** After a Transient put that returned no error, the block sits at the
    front of the transient store, with a flag that absorbs the one that was
    put. *)
Lemma put_transient_front b c ptr t blk hp b1 :
  cacheable blk -> cleanTransient b = Some c -> 0 < lru.size c ->
  PutWithPrefetch hash b ptr t blk TransientEntry hp = Returned (b1, None) ->
  exists c1 h,
    cleanTransient b1 = Some c1 /\
    atFront (ID ptr) (IContainer {| block := blk; hasPrefetched := h |}) c1 /\
    hp || h = h.
Proof.
  intros Hblk Hc Hsz. rewrite PutWithPrefetch_Transient by done.
  pose proof (putRecordHash_frame hash b ptr t blk) as Hframe. cbv zeta in Hframe.
  destruct (putRecordHash hash b ptr t blk) as [bR ptr1]. simpl in Hframe |- *.
  destruct Hframe as (Hid & Ht1 & _). rewrite Ht1, Hc, Hid.
  destruct (lru.find (ID ptr) (lru.items c)) as [[[old h0]|q]|] eqn:Hf.
  - rewrite (Get_hit _ _ _ Hf).
    erewrite putFinish_reput;
      [| reflexivity | rewrite Hid; simpl; by destruct (decide _)].
    intros [= <-]. simpl. eexists _, (hp || h0). split; [done|]. split.
    + eexists. simpl. rewrite Hid. split; [done|].
      destruct (decide _); [|done]. rewrite drop_drop. apply find_drop_eq.
    + by destruct hp.
  - by rewrite (Get_hit _ _ _ Hf).
  - rewrite (Get_miss _ _ Hf). unfold putFinish. simpl.
    destruct (makeRoomForSize _ _ _) as [[b2 ok]|] eqn:Hm; [|done].
    destruct (makeRoomForSize_frame _ c _ _ _ _ Hm eq_refl)
      as (l & dropped & Hc2 & _).
    destruct ok; simpl; [|done]. intros [= <-].
    unfold transientAdd. rewrite Hc2.
    pose proof (Add_atFront {| lru.size := lru.size c; lru.items := l |} (ID ptr1)
                  (IContainer {| block := blk; hasPrefetched := hp |}) Hsz) as Hadd.
    destruct (lru.Add _ _ _) as [c3 ev]. rewrite evicted_transient.
    simpl in Hadd. rewrite Hid in Hadd. exists c3, hp. split; [done|].
    split; [done|]. by destruct hp.
Qed.

(** After a Transient put that returned an error, the transient store is
    empty and the block does not fit. *)
Lemma put_transient_refused b c ptr t blk hp b1 e :
  cacheable blk -> cleanTransient b = Some c ->
  PutWithPrefetch hash b ptr t blk TransientEntry hp = Returned (b1, Some e) ->
  e = cachePutCacheFullError (ID ptr) /\
  cleanTransient b1 = Some {| lru.size := lru.size c; lru.items := [] |} /\
  cleanBytesCapacity b1 < wrap64 (cleanTotalBytes b1 + getCachedBlockSize blk).
Proof.
  intros Hblk Hc. rewrite PutWithPrefetch_Transient by done.
  pose proof (putRecordHash_frame hash b ptr t blk) as Hframe. cbv zeta in Hframe.
  destruct (putRecordHash hash b ptr t blk) as [bR ptr1]. simpl in Hframe |- *.
  destruct Hframe as (Hid & Ht1 & _). rewrite Ht1, Hc.
  destruct (lru.find (ID ptr1) (lru.items c)) as [[[old h0]|q]|] eqn:Hf.
  - rewrite (Get_hit _ _ _ Hf). unfold putFinish. simpl. discriminate.
  - rewrite (Get_hit _ _ _ Hf). discriminate.
  - rewrite (Get_miss _ _ Hf). unfold putFinish. simpl.
    destruct (makeRoomForSize _ _ _) as [[b2 ok]|] eqn:Hm; [|discriminate].
    destruct ok; simpl; [discriminate|]. intros [= <- <-].
    destruct (makeRoomForSize_refused _ c _ _ Hm eq_refl)
      as (Hc2 & (Hcap2 & _) & Hfull).
    simpl in Hcap2, Hfull. rewrite Hid. split; [done|]. split; [done|].
    by rewrite Hcap2.
Qed.

Lemma put_twice b ptr t blk lifetime hp b1 e :
  wellFormed b ->
  PutWithPrefetch hash b ptr t blk lifetime hp = Returned (b1, e) ->
  PutWithPrefetch hash b1 ptr t blk lifetime hp = Returned (b1, e).
Proof.
  intros Hwf Hput.
  assert (Hcases : cacheable blk \/ ~ cacheable blk)
    by (destruct blk; simpl; tauto).
  destruct Hcases as [Hblk|Hblk].
  2:{ destruct blk; simpl in Hblk; try tauto; by injection Hput as <- <-. }
  destruct lifetime.
  - destruct blk; simpl in Hblk; try tauto; by injection Hput as <- <-.
  - pose proof (PutWithPrefetch_ids_transient hash _ _ _ _ _ _ _ Hblk Hput) as Hids.
    pose proof (putRecordHash_again b b1 ptr t blk Hwf Hids) as Hagain.
    pose proof (putRecordHash_frame hash b ptr t blk) as Hframe.
    cbv zeta in Hframe. destruct Hframe as (Hid & Ht1 & Hp1 & Htot1 & Hcap1).
    destruct (cleanTransient b) as [c|] eqn:Hc.
    2:{ (* no transient store, and no index either *)
      unfold wellFormed in Hwf. rewrite Hc in Hwf.
      destruct (ids b) eqn:Hi; [done|].
      assert (HbR : putRecordHash hash b ptr t blk = (b, ptr)).
      { unfold putRecordHash. rewrite Hi. by destruct blk. }
      rewrite PutWithPrefetch_Transient in Hput by done.
      rewrite HbR, Hc in Hput. injection Hput as <- <-.
      rewrite PutWithPrefetch_Transient by done. by rewrite HbR, Hc. }
    assert (Hszc : 0 < lru.size c).
    { unfold wellFormed in Hwf. rewrite Hc in Hwf.
      destruct (ids b); [by destruct Hwf|done]. }
    destruct e as [e|].
    + (* the first put found no room *)
      destruct (put_transient_refused b c ptr t blk hp b1 e Hblk Hc Hput)
        as (-> & Hc1 & Hfull).
      rewrite PutWithPrefetch_Transient by done. rewrite Hagain, Hc1.
      rewrite Get_miss by done. rewrite (withTransient_same _ _ Hc1).
      unfold putFinish. simpl.
      rewrite (makeRoomForSize_empty b1 _ _ Hc1 eq_refl) by done.
      simpl. by rewrite Hid.
    + destruct (put_transient_front b c ptr t blk hp b1 Hblk Hc Hszc Hput)
        as (c1 & h & Hc1 & Hfront & Hh).
      rewrite PutWithPrefetch_Transient by done. rewrite Hagain, Hc1, Hid.
      rewrite (atFront_Get _ _ _ Hfront). rewrite (withTransient_same _ _ Hc1).
      unfold putFinish. simpl. rewrite Hh, Hid.
      by rewrite (transientAdd_front _ _ _ _ Hc1 Hfront).
  - rewrite PutWithPrefetch_Permanent in Hput by done.
    pose proof (putFinish_sameRest _ _ _ _ _ _ _ _ Hput) as (_ & _ & Hp).
    simpl in Hp.
    assert (He : e = None).
    { unfold putFinish in Hput.
      destruct (if negb _ then _ else _) as [[b2 ok]|]; [|done].
      by injection Hput as _ <-. }
    subst e. rewrite PutWithPrefetch_Permanent by done.
    assert (Hin : bool_decide (is_Some (cleanPermanent b1 !! ID ptr)) = true).
    { apply bool_decide_eq_true. rewrite Hp, lookup_insert_eq. by eexists. }
    rewrite Hin. unfold putFinish. simpl. do 2 f_equal.
    rewrite Hp, insert_insert_eq, <- Hp. apply withPermanent_same.
  - destruct blk; simpl in Hblk; try tauto; by injection Hput as <- <-.
Qed.

End PutTwice.

Section Idempotence.

Variable hash : list Z -> RawDefaultHash.

(** X10. [PutWithPrefetch] is idempotent for given arguments, as the
    comment above it promises: in every state a new cache reaches, a put
    that has returned, made once more with the same pointer, folder, block,
    lifetime and flag, returns the same result (no error, or the same
    error) and leaves the cache exactly as the first put left it: same
    entries in the same recency order, same index, same byte count. *)
Theorem X10_put_is_idempotent
  (transientCapacity cleanBytesCapacity : Z) (os : list op)
  (b0 b : BlockCacheStandard) (ptr : BlockPointer) (t : tlf_ID) (blk : Block)
  (lifetime : BlockCacheLifetime) (hp : bool) (b1 : BlockCacheStandard)
  (e : option error) :
  NewBlockCacheStandard transientCapacity cleanBytesCapacity = Some b0 ->
  run hash b0 os = Returned b ->
  PutWithPrefetch hash b ptr t blk lifetime hp = Returned (b1, e) ->
  PutWithPrefetch hash b1 ptr t blk lifetime hp = Returned (b1, e).
Proof.
  intros Hnew Hrun Hput.
  destruct (reachable_shaped hash _ _ _ _ _ Hnew Hrun) as (Hwf & _).
  exact (put_twice hash _ _ _ _ _ _ _ _ Hwf Hput).
Qed.

End Idempotence.

(** ** What a put evicts *)

(** When the block fits as the cache stands, [makeRoomForSize] evicts
    nothing and charges the block. *)
Lemma makeRoomForSize_room b c size lifetime :
  cleanTransient b = Some c ->
  wrap64 (cleanTotalBytes b + size) <= cleanBytesCapacity b ->
  makeRoomForSize b size lifetime
  = Some (withTotalBytes b (wrap64 (cleanTotalBytes b + size)), true).
Proof.
  intros Hc Hfit. unfold makeRoomForSize, GetCleanBytesCapacity. rewrite Hc.
  assert (Hgt : (wrap64 (cleanTotalBytes b + size) >? cleanBytesCapacity b) = false).
  { rewrite Z.gtb_ltb. apply Z.ltb_ge. lia. }
  simpl. by rewrite Hgt, Hgt.
Qed.

Section Evictions.

Variable hash : list Z -> RawDefaultHash.

(** X11. What a Transient put evicts.  On a cache constructed with a
    positive [transientCapacity], in every state it reaches, a put under an
    ID absent from the transient store that returns no error leaves the
    new entry in front of the entries it keeps, and those are the most
    recently used ones, in their order: what is evicted is taken from the
    least recently used end.  When the block fits the byte capacity as the
    cache stands, nothing is evicted if the store is below its entry
    capacity, and the byte count grows by the size of the block; if the
    store is at its entry capacity, exactly one entry, the least recently
    used, is evicted. *)
Theorem X11_put_evicts_least_recently_used
  (transientCapacity capacity : Z) (os : list op)
  (b0 b : BlockCacheStandard) (ptr : BlockPointer) (t : tlf_ID) (blk : Block)
  (hp : bool) (b' : BlockCacheStandard) :
  0 < transientCapacity ->
  NewBlockCacheStandard transientCapacity capacity = Some b0 ->
  run hash b0 os = Returned b ->
  transientLookup b (ID ptr) = None ->
  PutWithPrefetch hash b ptr t blk TransientEntry hp = Returned (b', None) ->
  exists c kept dropped,
    cleanTransient b = Some c /\
    lru.items c = kept ++ dropped /\
    cleanTransient b'
    = Some {| lru.size := lru.size c;
              lru.items :=
                (ID ptr, IContainer {| block := blk; hasPrefetched := hp |})
                  :: kept |} /\
    (wrap64 (cleanTotalBytes b + getCachedBlockSize blk) <= cleanBytesCapacity b ->
     (lru.Len c < lru.size c ->
      dropped = [] /\
      cleanTotalBytes b' = wrap64 (cleanTotalBytes b + getCachedBlockSize blk)) /\
     (lru.Len c = lru.size c -> exists ev, dropped = [ev])).
Proof.
  intros Hcap Hnew Hrun Hmiss Hput.
  destruct (reachable_shaped hash _ _ _ _ _ Hnew Hrun) as (Hwf & _ & _ & Hids).
  destruct (Hids Hcap) as (i & Hi & Hszi).
  unfold wellFormed in Hwf. rewrite Hi in Hwf.
  destruct (cleanTransient b) as [c|] eqn:Hc; [|done]. destruct Hwf as [_ Hszc].
  pose proof (put_success_cacheable _ _ _ _ _ _ _ Hput) as Hblk.
  unfold transientLookup in Hmiss. rewrite Hc in Hmiss.
  rewrite PutWithPrefetch_Transient in Hput by done.
  pose proof (putRecordHash_frame hash b ptr t blk) as Hframe. cbv zeta in Hframe.
  destruct (putRecordHash hash b ptr t blk) as [bR ptr1]. simpl in Hframe.
  destruct Hframe as (Hid & Ht1 & _ & Htot1 & Hcap1). rewrite Hc in Ht1.
  rewrite Ht1, Hid, (Get_miss _ _ Hmiss) in Hput.
  rewrite (withTransient_same _ _ Ht1) in Hput.
  unfold putFinish in Hput. simpl in Hput.
  set (size := getCachedBlockSize blk) in *.
  set (v := IContainer {| block := blk; hasPrefetched := hp |}) in *.
  exists c.
  destruct (Z_le_gt_dec (wrap64 (cleanTotalBytes b + size)) (cleanBytesCapacity b))
    as [Hfit|Hnofit].
  - (* the block fits as the cache stands *)
    rewrite (makeRoomForSize_room bR c) in Hput by (by rewrite ?Htot1, ?Hcap1).
    simpl in Hput. injection Hput as <-.
    unfold transientAdd. simpl. rewrite Ht1. unfold lru.Add. rewrite Hid, Hmiss.
    simpl. destruct (_ >? _) eqn:Hgt.
    + apply Z.gtb_lt in Hgt. unfold lru.Len in Hgt |- *. simpl in Hgt.
      assert (Hcase : lru.items c = [] \/ exists r x, lru.items c = r ++ [x]).
      { destruct (lru.items c) as [|x r _] using rev_ind; eauto. }
      destruct Hcase as [Hnil|(r & x & Hr)].
      { rewrite Hnil in Hgt. simpl in Hgt. lia. }
      exists r, [x]. split; [done|]. split; [done|]. split.
      * destruct (RemoveOldest_spec
                    {| lru.size := lru.size c;
                       lru.items := (ID ptr, v) :: lru.items c |})
          as [[Hnil' _]|(l & ev & Hl & ->)]; [done|].
        simpl in Hl. rewrite Hr in Hl.
        change ((ID ptr, v) :: r ++ [x]) with (((ID ptr, v) :: r) ++ [x]) in Hl.
        apply app_inj_tail in Hl as [<- <-]. by rewrite evicted_transient.
      * intros _. split; [lia|]. by eauto.
    + rewrite Z.gtb_ltb in Hgt. apply Z.ltb_ge in Hgt.
      unfold lru.Len in Hgt |- *. simpl in Hgt.
      exists (lru.items c), []. split; [done|]. split; [by rewrite app_nil_r|].
      split; [done|]. intros _. split.
      * intros _. split; [done|]. simpl. by rewrite Htot1.
      * lia.
  - (* entries have to go first *)
    destruct (makeRoomForSize bR size TransientEntry) as [[b2 ok]|] eqn:Hm;
      [|done].
    destruct (makeRoomForSize_frame _ c _ _ _ _ Hm Ht1)
      as (l & dropped & Hc2 & Hitems & _).
    destruct ok; simpl in Hput; [|done]. injection Hput as <-.
    unfold transientAdd. rewrite Hc2.
    assert (Hl : lru.find (ID ptr1) l = None).
    { rewrite Hid. rewrite Hitems in Hmiss. by eapply find_app_None. }
    destruct (Add_miss {| lru.size := lru.size c; lru.items := l |} (ID ptr1) v
                Hszc Hl) as [->|(l' & ev & Hl' & ->)];
      rewrite evicted_transient; simpl lru.size.
    + exists l, dropped. rewrite <- Hid. split; [done|]. split; [done|].
      split; [done|]. lia.
    + exists l', (ev :: dropped). rewrite <- Hid. split; [done|].
      simpl in Hl'. split; [by rewrite Hitems, Hl', <- app_assoc|].
      split; [done|]. lia.
Qed.

End Evictions.

(** ** Puts and the index; a put undone *)

(** What [DeleteTransient] leaves when the transient store holds a block
    under the ID: the entry is dropped and its bytes are debited; only the
    index may differ besides. *)
Lemma DeleteTransient_found (hash : list Z -> RawDefaultHash) b c ptr t bc :
  cleanTransient b = Some c ->
  lru.find (ID ptr) (lru.items c) = Some (IContainer bc) ->
  let r := DeleteTransient hash b ptr t in
  snd r = None /\
  cleanTransient (fst r)
  = Some {| lru.size := lru.size c;
            lru.items := lru.drop (ID ptr) (lru.items c) |} /\
  cleanTotalBytes (fst r)
  = Z.max 0 (cleanTotalBytes b - getCachedBlockSize (block bc)) /\
  cleanPermanent (fst r) = cleanPermanent b /\
  cleanBytesCapacity (fst r) = cleanBytesCapacity b.
Proof.
  intros Hc Hf r. subst r. unfold DeleteTransient.
  rewrite Hc, (Get_hit _ _ _ Hf).
  set (c' := {| lru.size := lru.size c;
                lru.items := (ID ptr, IContainer bc)
                               :: lru.drop (ID ptr) (lru.items c) |}).
  cbv zeta.
  set (b1 := match ids (withTransient b c'), block bc with
             | Some i, FileBlockOf fBlock =>
                 if negb (IsInd (fileCommon fBlock)) then
                   withIds (withTransient b c')
                     (fst (lru.Remove i
                             {| tlf := t; plaintextHash := hash (Contents fBlock) |}))
                 else withTransient b c'
             | _, _ => withTransient b c'
             end).
  assert (Hb1 : cleanTransient b1 = Some c' /\
                cleanPermanent b1 = cleanPermanent b /\
                cleanBytesCapacity b1 = cleanBytesCapacity b /\
                cleanTotalBytes b1 = cleanTotalBytes b).
  { subst b1. simpl. destruct (ids b); [|done]. destruct (block bc); try done.
    by destruct (IsInd (fileCommon f)). }
  destruct Hb1 as (Hc1 & Hp1 & Hcap1 & Htot1).
  assert (Hf1 : lru.find (ID ptr) (lru.items c') = Some (IContainer bc)).
  { simpl. by destruct (decide _). }
  simpl fst. simpl snd.
  rewrite (transientRemove_found _ _ _ _ Hc1 Hf1).
  match goal with
  | |- context [evicted (withTransient b1 ?c2) ?ev] =>
      pose proof (evicted_sameRest b1 c2 ev) as (Hcap2 & _ & Hp2);
      pose proof (evicted_transient b1 c2 ev) as Hc2
  end.
  rewrite Hc2, Hp2, Hp1, Hcap2, Hcap1.
  split; [done|]. split.
  { simpl. destruct (decide (ID ptr = ID ptr)); [|done]. by rewrite drop_drop. }
  split; [|done].
  simpl. rewrite subtractBlockBytes_total. simpl. by rewrite Htot1.
Qed.

(** An [Add] leaves the entries under other keys alone when the cache is
    below its entry capacity or already holds the key. *)
Lemma Add_find_ne {K : Type} `{EqDecision K} (c : lru.Cache K) k v k' :
  lru.Len c < lru.size c \/ is_Some (lru.find k (lru.items c)) ->
  k' <> k ->
  lru.find k' (lru.items (fst (lru.Add c k v))) = lru.find k' (lru.items c).
Proof.
  intros Hroom Hne. unfold lru.Add.
  destruct (lru.find k (lru.items c)) as [old|] eqn:Hf; simpl.
  - destruct (decide (k' = k)); [done|]. by apply find_drop_ne.
  - destruct Hroom as [Hlen|[? ?]]; [|done].
    assert (Hgt : (lru.Len {| lru.size := lru.size c;
                              lru.items := (k, v) :: lru.items c |}
                   >? lru.size c) = false).
    { rewrite Z.gtb_ltb. apply Z.ltb_ge. unfold lru.Len in *. simpl. lia. }
    rewrite Hgt. simpl. by destruct (decide (k' = k)).
Qed.

(** At its entry capacity, the [Add] of a new key evicts the oldest
    entry. *)
Lemma Add_full {K : Type} `{EqDecision K} (c : lru.Cache K) k v :
  0 < lru.size c <= lru.Len c -> lru.find k (lru.items c) = None ->
  exists kept old,
    lru.items c = kept ++ [old] /\
    fst (lru.Add c k v)
    = {| lru.size := lru.size c; lru.items := (k, v) :: kept |}.
Proof.
  intros Hfull Hf. unfold lru.Add. rewrite Hf.
  assert (Hgt : (lru.Len {| lru.size := lru.size c;
                            lru.items := (k, v) :: lru.items c |}
                 >? lru.size c) = true).
  { apply Z.gtb_lt. unfold lru.Len in *. simpl. lia. }
  rewrite Hgt.
  destruct (RemoveOldest_spec
              {| lru.size := lru.size c; lru.items := (k, v) :: lru.items c |})
    as [[Hnil _]|(l & ev & Hl & ->)]; [done|].
  simpl in Hl |- *.
  assert (Hcase : lru.items c = [] \/ exists r x, lru.items c = r ++ [x]).
  { destruct (lru.items c) as [|x r _] using rev_ind; eauto. }
  destruct Hcase as [Hnil|(r & x & Hr)].
  - exfalso. unfold lru.Len in Hfull. rewrite Hnil in Hfull. simpl in Hfull. lia.
  - rewrite Hr in Hl.
    change ((k, v) :: r ++ [x]) with (((k, v) :: r) ++ [x]) in Hl.
    apply app_inj_tail in Hl as [<- <-]. by exists r, x.
Qed.

Section PutAndIndex.

Variable hash : list Z -> RawDefaultHash.

(** X12. A put changes the dedup index by one [Add] at most, and evictions
    from the transient store never touch it.  Whatever a put returns and
    whatever it evicts from the transient store, the index afterwards is the
    index before, except that a Transient put of a direct file block has
    run one [Add] on it, for the key of its folder and plaintext and the
    pointer with a zero RefNonce.  When the index is below its entry
    capacity, or already holds that key, every other key keeps its entry,
    those of the blocks the put evicted included; at its entry capacity the
    [Add] of a new key evicts the least recently used entry of the index
    itself. *)
Theorem X12_put_changes_index_by_one_entry
  (b : BlockCacheStandard) (ptr : BlockPointer) (t : tlf_ID) (blk : Block)
  (lifetime : BlockCacheLifetime) (hp : bool) (b' : BlockCacheStandard)
  (e : option error) :
  PutWithPrefetch hash b ptr t blk lifetime hp = Returned (b', e) ->
  match lifetime, blk, ids b with
  | TransientEntry, FileBlockOf fb, Some i =>
      if IsInd (fileCommon fb) then ids b' = ids b
      else
        let key := {| tlf := t; plaintextHash := GetHash hash fb |} in
        ids b' = Some (fst (lru.Add i key (IPointer (zeroRefNonce ptr)))) /\
        (lru.Len i < lru.size i \/ is_Some (lru.find key (lru.items i)) ->
         forall key', key' <> key -> idsLookup b' key' = idsLookup b key') /\
        (0 < lru.size i <= lru.Len i -> lru.find key (lru.items i) = None ->
         exists kept old,
           lru.items i = kept ++ [old] /\
           ids b'
           = Some {| lru.size := lru.size i;
                     lru.items := (key, IPointer (zeroRefNonce ptr)) :: kept |})
  | _, _, _ => ids b' = ids b
  end.
Proof.
  intros Hput.
  assert (Hother : lifetime <> TransientEntry \/ ~ cacheable blk ->
                   ids b' = ids b).
  { intros H. by eapply PutWithPrefetch_ids_other. }
  destruct lifetime.
  1,3,4: assert (Hids : ids b' = ids b) by (apply Hother; by left);
    destruct blk; try done; by destruct (ids b).
  destruct blk as [d|fb|cb|n].
  - pose proof (PutWithPrefetch_ids_transient hash b ptr t (DirBlockOf d) hp b' e
                  I Hput) as Hids.
    unfold putRecordHash in Hids.
    destruct (ids b) eqn:Hi; simpl in Hids; congruence.
  - pose proof (PutWithPrefetch_ids_transient hash b ptr t (FileBlockOf fb) hp b' e
                  I Hput) as Hids.
    unfold putRecordHash in Hids.
    destruct (ids b) as [i|] eqn:Hi; [|simpl in Hids; congruence].
    destruct (IsInd (fileCommon fb)); simpl in Hids; [congruence|].
    cbv zeta. split; [done|]. split.
    + intros Hroom key' Hne. unfold idsLookup. rewrite Hids, Hi.
      by apply Add_find_ne.
    + intros Hfull Hnew. rewrite Hids.
      destruct (Add_full i _ (IPointer (zeroRefNonce ptr)) Hfull Hnew)
        as (kept & old & Hitems & ->).
      by exists kept, old.
  - apply Hother. right. tauto.
  - apply Hother. right. tauto.
Qed.

(** X13. A put undone.  In a state a new cache has reached, take an ID
    absent from the transient store, a store below its entry capacity, and
    a block that fits the byte capacity as the cache stands.  A Transient
    put of the block followed by [DeleteTransient] of the same pointer
    leaves the transient store, with its recency order, the permanent
    store, the byte count and the byte capacity exactly as they were before
    the put. *)
Theorem X13_put_then_delete_restores_the_stores
  (transientCapacity capacity : Z) (os : list op)
  (b0 b : BlockCacheStandard) (c : lru.Cache kbfsblock_ID)
  (ptr : BlockPointer) (t : tlf_ID) (blk : Block) (hp : bool)
  (b1 : BlockCacheStandard) :
  NewBlockCacheStandard transientCapacity capacity = Some b0 ->
  run hash b0 os = Returned b ->
  cleanTransient b = Some c ->
  lru.find (ID ptr) (lru.items c) = None ->
  lru.Len c < lru.size c ->
  cleanTotalBytes b + getCachedBlockSize blk <= cleanBytesCapacity b ->
  cleanBytesCapacity b < 2 ^ 64 ->
  PutWithPrefetch hash b ptr t blk TransientEntry hp = Returned (b1, None) ->
  let r := DeleteTransient hash b1 ptr t in
  cleanTotalBytes b1 = cleanTotalBytes b + getCachedBlockSize blk /\
  snd r = None /\
  cleanTransient (fst r) = cleanTransient b /\
  cleanPermanent (fst r) = cleanPermanent b /\
  cleanTotalBytes (fst r) = cleanTotalBytes b /\
  cleanBytesCapacity (fst r) = cleanBytesCapacity b.
Proof.
  intros Hnew Hrun Hc Hmiss Hlen Hfit Hcap64 Hput.
  destruct (reachable_shaped hash _ _ _ _ _ Hnew Hrun) as (_ & _ & Hn & _).
  pose proof (put_success_cacheable _ _ _ _ _ _ _ Hput) as Hblk.
  pose proof (getCachedBlockSize_range blk) as Hsz.
  assert (Hw : wrap64 (cleanTotalBytes b + getCachedBlockSize blk)
               = cleanTotalBytes b + getCachedBlockSize blk)
    by (apply wrap64_small; lia).
  rewrite PutWithPrefetch_Transient in Hput by done.
  pose proof (putRecordHash_frame hash b ptr t blk) as Hframe. cbv zeta in Hframe.
  destruct (putRecordHash hash b ptr t blk) as [bR ptr1]. simpl in Hframe.
  destruct Hframe as (Hid & Ht1 & Hp1 & Htot1 & Hcap1). rewrite Hc in Ht1.
  rewrite Ht1, Hid, (Get_miss _ _ Hmiss) in Hput.
  rewrite (withTransient_same _ _ Ht1) in Hput.
  unfold putFinish in Hput. simpl in Hput.
  rewrite (makeRoomForSize_room bR c) in Hput
    by (by rewrite ?Htot1, ?Hcap1, ?Hw).
  simpl in Hput. injection Hput as <-.
  set (v := {| block := blk; hasPrefetched := hp |}).
  set (bT := withTotalBytes bR
               (wrap64 (cleanTotalBytes bR + getCachedBlockSize blk))).
  assert (Hadd : transientAdd bT (ID ptr1) (IContainer v)
                 = withTransient bT
                     {| lru.size := lru.size c;
                        lru.items := (ID ptr, IContainer v) :: lru.items c |}).
  { unfold transientAdd. subst bT. simpl. rewrite Ht1. unfold lru.Add.
    rewrite Hid, Hmiss. simpl.
    assert (Hgt : (lru.Len {| lru.size := lru.size c;
                              lru.items := (ID ptr, IContainer v) :: lru.items c |}
                   >? lru.size c) = false).
    { rewrite Z.gtb_ltb. apply Z.ltb_ge. unfold lru.Len in *. simpl. lia. }
    by rewrite Hgt. }
  rewrite Hadd. clear Hadd.
  assert (Htot : cleanTotalBytes bT = cleanTotalBytes b + getCachedBlockSize blk).
  { subst bT. simpl. by rewrite Htot1, Hw. }
  intros r. subst r.
  match goal with
  | |- context [DeleteTransient hash ?s ptr t] =>
      destruct (DeleteTransient_found hash s
                  {| lru.size := lru.size c;
                     lru.items := (ID ptr, IContainer v) :: lru.items c |}
                  ptr t v eq_refl)
        as (Herr & Hc2 & Htot2 & Hp2 & Hcap2)
  end.
  { simpl. by destruct (decide _). }
  simpl in Hc2, Htot2, Hp2, Hcap2.
  split; [done|]. split; [done|]. split.
  { rewrite Hc2. destruct (decide (ID ptr = ID ptr)); [|done].
    rewrite (drop_absent _ _ (find_None _ _ Hmiss)). by destruct c. }
  split; [by rewrite Hp2|]. split; [|by rewrite Hcap2].
  rewrite Htot2, Htot1, Hw. lia.
Qed.

End PutAndIndex.

(** * The further properties at concrete caches *)

Lemma X3_witness :
  snd (GetWithPrefetch transient32 (pointerAt "1"))
  = (Some block32, true, TransientEntry, None).
Proof.
  destruct (X3_transient_put_then_get exampleHash 10 1000 []
              (newCache 10 1000) (newCache 10 1000)
              (pointerAt "1") exampleFolder block32) as [_ Hput].
  - lia.
  - reflexivity.
  - reflexivity.
  - apply Hput. vm_compute. reflexivity.
Defined.

Lemma X4_witness :
  run exampleHash permanent100 transientOps = Returned permanent100Used /\
  permanentLookup permanent100Used "p" = Some block100 /\
  snd (Get permanent100Used (pointerAt "p")) = (Some block100, None).
Proof.
  split; [vm_compute; reflexivity|].
  destruct (X4_permanent_block_is_never_evicted exampleHash (newCache 10 1000)
              (pointerAt "p") exampleFolder block100 true transientOps
              permanent100 permanent100Used) as [Hlook Hget].
  - vm_compute. reflexivity.
  - repeat constructor.
  - vm_compute. reflexivity.
  - split; [exact Hlook|]. exact (proj2 Hget).
Defined.

Lemma X5_witness :
  transientLen three32 = 3 /\
  resultOf (putOn three32 "5" block400 TransientEntry false)
  = Some (Some (cachePutCacheFullError "5")) /\
  cleanTransient three32then400 = Some {| lru.size := 10; lru.items := [] |} /\
  cleanBytesCapacity three32
  < wrap64 (cleanTotalBytes three32then400 + getCachedBlockSize block400).
Proof.
  split; [reflexivity|]. split; [vm_compute; reflexivity|].
  destruct (X5_put_errors exampleHash three32 (pointerAt "5") exampleFolder
              block400 TransientEntry false three32then400
              (cachePutCacheFullError "5"))
    as [[_ [[_ He]|[[_ He]|(_ & _ & He)]]]
       |(_ & _ & _ & _ & (c & Hc & Hc') & _ & _ & Hfull)];
    [vm_compute; reflexivity|discriminate He..|].
  split; [|exact Hfull].
  rewrite Hc'. injection Hc as <-. reflexivity.
Defined.

Lemma X6_witness :
  exists b0 b,
    NewBlockCacheStandard 10 100 = Some b0 /\
    run exampleHash b0 transientOps = Returned b /\
    GetCleanBytesCapacity b = 100 /\
    0 <= cleanTotalBytes b <= 100.
Proof.
  apply (X6_transient_puts_respect_byte_capacity exampleHash 10 100 transientOps).
  - lia.
  - repeat constructor.
Defined.

Lemma X10_witness :
  PutWithPrefetch exampleHash transient32 (pointerAt "1") exampleFolder block32
    TransientEntry true
  = Returned (transient32, None).
Proof.
  apply (X10_put_is_idempotent exampleHash 10 1000 []
           (newCache 10 1000) (newCache 10 1000)).
  - reflexivity.
  - reflexivity.
  - vm_compute. reflexivity.
Defined.

Lemma X11_witness :
  exists c kept dropped,
    cleanTransient three32 = Some c /\
    lru.items c = kept ++ dropped /\
    cleanTransient three32then10
    = Some {| lru.size := lru.size c;
              lru.items :=
                (ID (pointerAt "4"),
                 IContainer {| block := block10; hasPrefetched := false |})
                  :: kept |} /\
    (wrap64 (cleanTotalBytes three32 + getCachedBlockSize block10)
       <= cleanBytesCapacity three32 ->
     (lru.Len c < lru.size c ->
      dropped = [] /\
      cleanTotalBytes three32then10
      = wrap64 (cleanTotalBytes three32 + getCachedBlockSize block10)) /\
     (lru.Len c = lru.size c -> exists ev, dropped = [ev])).
Proof.
  apply (X11_put_evicts_least_recently_used exampleHash 10 100
           [ OpPut (pointerAt "1") exampleFolder block32 TransientEntry false;
             OpPut (pointerAt "2") exampleFolder block32 TransientEntry false;
             OpPut (pointerAt "3") exampleFolder block32 TransientEntry false ]
           (newCache 10 100) three32 (pointerAt "4") exampleFolder block10 false
           three32then10).
  - lia.
  - reflexivity.
  - vm_compute. reflexivity.
  - vm_compute. reflexivity.
  - vm_compute. reflexivity.
Defined.

Lemma X12_witness :
  ids three32then400
  = Some (fst (lru.Add (default {| lru.size := 0; lru.items := [] |} (ids three32))
                 {| tlf := exampleFolder;
                    plaintextHash := GetHash exampleHash (directBlock 400 3) |}
                 (IPointer (zeroRefNonce (pointerAt "5"))))) /\
  idsLookup three32then400
    {| tlf := exampleFolder;
       plaintextHash := GetHash exampleHash (directBlock 32 170) |}
  = idsLookup three32
      {| tlf := exampleFolder;
         plaintextHash := GetHash exampleHash (directBlock 32 170) |}.
Proof.
  pose proof (X12_put_changes_index_by_one_entry exampleHash three32
                (pointerAt "5") exampleFolder block400 TransientEntry false
                three32then400 (Some (cachePutCacheFullError "5"))) as Hput.
  assert (Hret : PutWithPrefetch exampleHash three32 (pointerAt "5")
                   exampleFolder block400 TransientEntry false
                 = Returned (three32then400, Some (cachePutCacheFullError "5")))
    by (vm_compute; reflexivity).
  specialize (Hput Hret). vm_compute in Hput.
  destruct Hput as (Hids & Hkeep & _). split.
  - vm_compute. exact Hids.
  - vm_compute.
    apply (Hkeep (or_introl eq_refl)
             {| tlf := exampleFolder; plaintextHash := repeat 170 32 |}).
    discriminate.
Defined.

Lemma X13_witness :
  cleanTotalBytes transient32then100 = cleanTotalBytes transient32 + 100 /\
  cleanTransient
    (fst (DeleteTransient exampleHash transient32then100 (pointerAt "2")
            exampleFolder))
  = cleanTransient transient32 /\
  cleanTotalBytes
    (fst (DeleteTransient exampleHash transient32then100 (pointerAt "2")
            exampleFolder))
  = cleanTotalBytes transient32.
Proof.
  destruct (X13_put_then_delete_restores_the_stores exampleHash 10 1000
              [OpPut (pointerAt "1") exampleFolder block32 TransientEntry true]
              (newCache 10 1000) transient32
              {| lru.size := 10;
                 lru.items :=
                   [("1"%string,
                     IContainer {| block := block32; hasPrefetched := true |})] |}
              (pointerAt "2") exampleFolder block100 false transient32then100)
    as (Hput & _ & Htransient & _ & Htotal & _).
  - reflexivity.
  - vm_compute. reflexivity.
  - vm_compute. reflexivity.
  - vm_compute. reflexivity.
  - vm_compute. reflexivity.
  - vm_compute. intros H. discriminate H.
  - vm_compute. reflexivity.
  - vm_compute. reflexivity.
  - split; [exact Hput|]. split; [exact Htransient|exact Htotal].
Defined.
